(** * Radicchi community detection (circulo/algorithms/radicchi.py)

    A shallow embedding of [radicchi], [radicchi_internal],
    [prune_components], the two community predicates and the two edge
    clustering coefficients, together with the part of the igraph API
    they use, and the properties of the algorithm stated over it.

    Conventions of the embedding:
    - an igraph [Graph] object lives in a store ([heap]) and is referred
      to by its location; [Graph.copy] and the [Graph.subgraph] calls of
      [radicchi_internal] allocate, [delete_edges] and the assignment to
      [vs['id']] update in place;
    - the value of an undirected graph is its vertex count, the set of
      its edge tuples [(u, v)] with [u <= v] as [e.tuple] reports them,
      and the ['id'] vertex attribute;
    - Python exceptions are the [Raise] results of [res]; [Timeout] is
      the exhaustion of the recursion budget of the embedding;
    - Python floats produced by the coefficients are quotients of two
      integers, kept as exact rationals, with [float('inf')] apart;
    - the order in which Python iterates over a [set] is a parameter of
      the embedding (one for sets of edge tuples, one for sets of
      vertices), only known to enumerate the set. *)

From Stdlib Require Import QArith.
From stdpp Require Import gmap strings list sorting.
Close Scope Q_scope.
Set Warnings "-clear-no-such-hyp".

(** ** Exceptions and results *)

Inductive exn :=
  | Exception (msg : string)
  | IndexError
  | InternalError.

Inductive res (A : Type) :=
  | Ok (a : A)
  | Raise (e : exn)
  | Timeout.
Arguments Ok {A} a.
Arguments Raise {A} e.
Arguments Timeout {A}.

#[global] Instance res_ret : MRet res := @Ok.
#[global] Instance res_bind : MBind res := λ A B f m,
  match m with
  | Ok a => f a
  | Raise e => Raise e
  | Timeout => Timeout
  end.

(** [l[i]] for a non-negative index. *)
Definition index {A} (l : list A) (i : nat) : res A :=
  match l !! i with
  | Some x => Ok x
  | None => Raise IndexError
  end.

(** [for x in l: acc = body(acc, x)], stopping at the first exception. *)
Fixpoint for_each {A B} (body : B → A → res B) (acc : B) (l : list A) : res B :=
  match l with
  | [] => Ok acc
  | x :: l' => acc' ← body acc x; for_each body acc' l'
  end.

(** [[f(x) for x in l]] *)
Fixpoint comprehension {A B} (f : A → res B) (l : list A) : res (list B) :=
  match l with
  | [] => Ok []
  | x :: l' => y ← f x; ys ← comprehension f l'; Ok (y :: ys)
  end.

(** [[x for x in l if p(x)]] *)
Fixpoint comprehension_if {A} (p : A → res bool) (l : list A) : res (list A) :=
  match l with
  | [] => Ok []
  | x :: l' =>
      b ← p x; ys ← comprehension_if p l';
      Ok (if b : bool then x :: ys else ys)
  end.

(** [enumerate(l)] *)
Definition enumerate {A} (l : list A) : list (nat * A) :=
  zip (seq 0 (length l)) l.

(** [sum(l)] on integers *)
Definition sum_Z (l : list Z) : Z := foldr Z.add 0%Z l.

(** ** Scores: Python floats that are quotients of integers *)

Inductive score :=
  | Finite (q : Q)
  | Infinity.

Definition score_lt (a b : score) : bool :=
  match a, b with
  | Finite x, Finite y => negb (Qle_bool y x)
  | Finite _, Infinity => true
  | Infinity, _ => false
  end.

Definition score_eq (a b : score) : bool :=
  match a, b with
  | Finite x, Finite y => Qeq_bool x y
  | Infinity, Infinity => true
  | _, _ => false
  end.

(** The order of the scores, with [float('inf')] on top. *)
Definition score_le (a b : score) : bool :=
  match a, b with
  | Finite x, Finite y => Qle_bool x y
  | _, Infinity => true
  | Infinity, Finite _ => false
  end.

(** Truth value of a float: only zero is false. *)
Definition score_truth (a : score) : bool :=
  match a with
  | Finite x => negb (Qeq_bool x 0)
  | Infinity => true
  end.

(** [(n + 1.0) / m] *)
Definition ratio (n m : Z) : score :=
  Finite (Qdiv (Qplus (inject_Z n) 1) (inject_Z m)).

(** ** The igraph objects *)

Definition edge : Type := nat * nat.

Record graph := Graph {
  vcount : nat;
  es : gset edge;
  vs_id : list nat
}.

(** A simple undirected graph: every edge tuple is [(u, v)] with
    [u < v < vcount]; being a set, [es] has no parallel edges. *)
Definition simple (g : graph) : Prop :=
  ∀ e, e ∈ es g → e.1 < e.2 ∧ e.2 < vcount g.

(** [g.neighbors(v)] as a set *)
Definition neighbors_of (g : graph) (v : nat) : gset nat :=
  set_map snd (filter (λ e : edge, e.1 = v) (es g))
  ∪ set_map fst (filter (λ e : edge, e.2 = v) (es g)).

(** The degree of [v]: the edge ends at [v] (a loop counts twice). *)
Definition degree_of (g : graph) (v : nat) : Z :=
  Z.of_nat (size (filter (λ e : edge, e.1 = v) (es g))
            + size (filter (λ e : edge, e.2 = v) (es g))).

(** [g.degree()] *)
Definition degree_all (g : graph) : list Z :=
  degree_of g <$> seq 0 (vcount g).

(** [g.degree(nodes)]: igraph rejects a vertex that does not exist. *)
Definition degree_nodes (g : graph) (nodes : list nat) : res (list Z) :=
  comprehension
    (λ v, if decide (v < vcount g) then Ok (degree_of g v)
          else Raise InternalError) nodes.

(** [g.components()]: the connected components, each as the increasing
    list of its vertices, in the order of their smallest vertex.
    [component_labels] gives every vertex the smallest vertex of its
    component, by merging the labels of the two ends of every edge. *)
Definition merge_labels (lbl : list nat) (e : edge) : list nat :=
  let a := lbl !!! e.1 in
  let b := lbl !!! e.2 in
  (λ c, if decide (c = a `max` b) then a `min` b else c) <$> lbl.

Definition component_labels (g : graph) : list nat :=
  foldl merge_labels (seq 0 (vcount g)) (elements (es g)).

Definition components (g : graph) : list (list nat) :=
  let lbl := component_labels g in
  (λ r, filter (λ v, lbl !!! v = r) (seq 0 (vcount g)))
    <$> filter (λ r, lbl !!! r = r) (seq 0 (vcount g)).

(** [g.subgraph(nodes)]: the induced subgraph. Its vertices are the
    given ones in increasing order, renumbered from 0, and they keep
    their attributes. *)
Definition kept (g : graph) (nodes : list nat) : list nat :=
  filter (λ v, v ∈ nodes) (seq 0 (vcount g)).

Definition new_index (keep : list nat) (v : nat) : nat :=
  length (filter (λ w, w < v) keep).

Definition subgraph (g : graph) (nodes : list nat) : res graph :=
  if decide (Forall (λ v, v < vcount g) nodes) then
    let keep := kept g nodes in
    Ok {| vcount := length keep;
          es := set_map (λ e : edge, (new_index keep e.1, new_index keep e.2))
                  (filter (λ e : edge, e.1 ∈ nodes ∧ e.2 ∈ nodes) (es g));
          vs_id := omap (λ v, vs_id g !! v) keep |}
  else Raise InternalError.

(** [g.delete_edges(l)] for a list of vertex pairs: igraph looks every
    pair up and rejects one that is not an edge. *)
Definition edge_tuple (e : edge) : edge := (e.1 `min` e.2, e.1 `max` e.2).

Definition delete_edges (g : graph) (l : list edge) : res graph :=
  if decide (Forall (λ e, edge_tuple e ∈ es g) l) then
    Ok {| vcount := vcount g;
          es := es g ∖ list_to_set (edge_tuple <$> l);
          vs_id := vs_id g |}
  else Raise InternalError.

(** ** The store of graph objects *)

Abbreviation loc := nat (only parsing).
Abbreviation heap := (gmap nat graph) (only parsing).

Definition M (A : Type) : Type := heap → res A * heap.

#[global] Instance M_ret : MRet M := λ A a σ, (Ok a, σ).
#[global] Instance M_bind : MBind M := λ A B f m σ,
  match m σ with
  | (Ok a, σ') => f a σ'
  | (Raise e, σ') => (Raise e, σ')
  | (Timeout, σ') => (Timeout, σ')
  end.

Definition lift {A} (r : res A) : M A := λ σ, (r, σ).

(** Reading the object behind a reference. *)
Definition deref (l : loc) : M graph := λ σ,
  match σ !! l with
  | Some g => (Ok g, σ)
  | None => (Raise InternalError, σ)
  end.

(** A new object. *)
Definition alloc (g : graph) : M loc := λ σ,
  let l := fresh (dom σ) in (Ok l, <[l := g]> σ).

(** Updating an object in place. *)
Definition store (l : loc) (g : graph) : M unit := λ σ,
  (Ok (), <[l := g]> σ).

(** [for x in l: acc = body(acc, x)] over the store. *)
Fixpoint for_each_M {A B} (body : B → A → M B) (acc : B) (l : list A) : M B :=
  match l with
  | [] => mret acc
  | x :: l' => acc' ← body acc x; for_each_M body acc' l'
  end.

(** ** radicchi.py *)

(** The dictionary returned by [prune_components]; [None] is Python's
    [None]. *)
Record prune_result := PruneResult {
  pruned : bool;
  orig_communities : option (list (list nat));
  new_communities : option (list (list nat));
  remaining : option (list nat)
}.

(** Using a value that may be [None] as a sequence. *)
Definition sequence {A} (o : option (list A)) : res (list A) :=
  match o with
  | Some l => Ok l
  | None => Raise (Exception "TypeError")
  end.

(** The bookkeeping that [radicchi_internal] caches and updates by hand. *)
Record caches := Caches {
  degree : list Z;
  neighbors : list (gset nat);
  edges : gset edge;
  n_components : nat
}.

(** How one pass of the [while True] loop ends. *)
Inductive outcome :=
  | Break (communities : list (list nat))
  | Continue (st : caches).

Definition scorer : Type := nat → nat → list Z → list (gset nat) → res score.

Section Radicchi.

(** The iteration orders of Python's sets. *)
Variable iter_edges : gset edge → list edge.
Variable iter_nodes : gset nat → list nat.

Definition edge_clustering_coefficient_3 : scorer := λ u v degree neighbors,
  udeg ← index degree u;
  vdeg ← index degree v;
  let mdeg := ((udeg - 1) `min` (vdeg - 1))%Z in
  if decide (mdeg = 0%Z) then Ok Infinity
  else
    nu ← index neighbors u;
    nv ← index neighbors v;
    let cdeg := Z.of_nat (size (nu ∩ nv)) in
    Ok (ratio cdeg mdeg).

Definition edge_clustering_coefficient_4 : scorer := λ u v degree neighbors,
  udeg ← index degree u;
  vdeg ← index degree v;
  let mdeg := ((udeg - 1) * (vdeg - 1))%Z in
  if decide (mdeg = 0%Z) then Ok Infinity
  else
    nu ← index neighbors u;
    let uneighbors := nu ∖ {[v]} in
    nv ← index neighbors v;
    let vneighbors := nv ∖ {[u]} in
    num_squares ← for_each (λ num_squares w,
        nw ← index neighbors w;
        let wneighbors := nw ∖ {[u]} in
        Ok (num_squares + Z.of_nat (size (wneighbors ∩ vneighbors)))%Z)
      0%Z (iter_nodes uneighbors);
    Ok (ratio num_squares mdeg).

Definition is_strong_community (G : graph) (nodes : list nat) : res bool :=
  subgraph ← subgraph G nodes;
  degree ← degree_nodes G nodes;
  let community_degree := degree_all subgraph in
  (fix loop (range : list nat) : res bool :=
     match range with
     | [] => Ok true
     | i :: range' =>
         ci ← index community_degree i;
         di ← index degree i;
         if decide (ci ≤ di - ci)%Z then Ok false else loop range'
     end) (seq 0 (length nodes)).

Definition is_weak_community (G : graph) (nodes : list nat) : res bool :=
  subgraph ← subgraph G nodes;
  degree ← degree_nodes G nodes;
  let indegree := degree_all subgraph in
  let tsum := sum_Z degree in
  let insum := sum_Z indegree in
  let outsum := (tsum - insum)%Z in
  Ok (bool_decide (outsum < insum)%Z).

Definition prune_components (orig new : loc) (community_measure : string)
  : M prune_result :=
  new_g ← deref new;
  orig_g ← deref orig;
  let components := components new_g in
  let ids := vs_id new_g in
  let new_components := components in
  orig_components ← lift (comprehension (comprehension (index ids)) new_components);
  let is_community :=
    if decide (community_measure = "strong") then is_strong_community
    else is_weak_community in
  community_indices ← lift (
    ics ← comprehension_if (λ ic : nat * list nat, is_community orig_g ic.2)
            (enumerate orig_components);
    Ok (fst <$> (ics : list (nat * list nat))));
  orig_communities ← lift (comprehension (index orig_components) community_indices);
  new_communities ← lift (comprehension (index new_components) community_indices);
  if decide (1 < length community_indices) then
    let all_new_community_nodes := concat new_communities in
    let all_new_nodes := seq 0 (vcount new_g) in
    let all_new_remaining_nodes :=
      iter_nodes (list_to_set all_new_nodes ∖ list_to_set all_new_community_nodes) in
    mret {| pruned := true;
            orig_communities := Some orig_communities;
            new_communities := Some new_communities;
            remaining := Some all_new_remaining_nodes |}
  else
    mret {| pruned := false; orig_communities := None;
            new_communities := None; remaining := None |}.

(** Lines 50-57: one step of the scan for the edges of minimum score. *)
Definition scan_step (edge_clustering_coefficient : scorer)
    (degree : list Z) (neighbors : list (gset nat))
    (acc : list edge * option score) (e : edge)
  : res (list edge * option score) :=
  let '(min_edges, min_ecc) := acc in
  ecc ← edge_clustering_coefficient e.1 e.2 degree neighbors;
  match min_ecc with
  | None => Ok ([e], Some ecc)
  | Some m =>
      if negb (score_truth m) || score_lt ecc m then Ok ([e], Some ecc)
      else if score_eq ecc m then Ok (min_edges ++ [e], min_ecc)
      else Ok (min_edges, min_ecc)
  end.

Definition scan (edge_clustering_coefficient : scorer) (st : caches)
  : res (list edge * option score) :=
  for_each (scan_step edge_clustering_coefficient (degree st) (neighbors st))
    ([], None) (iter_edges (edges st)).

(** Lines 60-64: the caches after the removal of one edge. *)
Definition discard_edge (st : caches) (min_edge : edge) : res caches :=
  let edges := edges st ∖ {[min_edge]} in
  let '(u, v) := min_edge in
  nu ← index (neighbors st) u;
  let neighbors := <[u := nu ∖ {[v]}]> (neighbors st) in
  nv ← index neighbors v;
  let neighbors := <[v := nv ∖ {[u]}]> neighbors in
  du ← index (degree st) u;
  let degree := <[u := (du - 1)%Z]> (degree st) in
  dv ← index degree v;
  let degree := <[v := (dv - 1)%Z]> degree in
  Ok {| degree := degree; neighbors := neighbors; edges := edges;
        n_components := n_components st |}.

(** Lines 76-89: the communities assembled after an active pruning. *)
Definition assemble (rec : loc → M (list (list nat))) (g : loc)
    (result : prune_result) : M (list (list nat)) :=
  orig_communities ← lift (sequence (orig_communities result));
  new_communities ← lift (sequence (new_communities result));
  remaining ← lift (sequence (remaining result));
  communities ← for_each_M (λ communities (ic : nat * list nat),
      g_v ← deref g;
      s_v ← lift (subgraph g_v ic.2);
      s ← alloc s_v;
      subcommunities ← rec s;
      if decide (length subcommunities = 0) then
        oc ← lift (index orig_communities ic.1);
        mret (communities ++ [oc])
      else mret (communities ++ subcommunities))
    [] (enumerate new_communities);
  g_v ← deref g;
  orig_remaining ← lift (comprehension (index (vs_id g_v)) remaining);
  r_v ← lift (subgraph g_v remaining);
  r ← alloc r_v;
  subcommunities ← rec r;
  let clustered := concat subcommunities in
  let isolated_remaining := filter (λ i, i ∉ clustered) orig_remaining in
  mret (communities ++ ((λ i, [i]) <$> isolated_remaining)).

(** Lines 50-64: the scan, then the removal of the edges it found from
    the graph and from the caches. *)
Definition remove_minimum (g : loc) (edge_clustering_coefficient : scorer)
    (st : caches) : M caches :=
  found ← lift (scan edge_clustering_coefficient st);
  let min_edges := found.1 in
  g_v ← deref g;
  g_v ← lift (delete_edges g_v min_edges);
  _ ← store g g_v;
  lift (for_each discard_edge st min_edges).

(** Lines 66-91: the check for a split, the pruning and the recursion. *)
Definition split_check (rec : loc → M (list (list nat))) (G g : loc)
    (measure : string) (st : caches) : M outcome :=
  g_v ← deref g;
  let n_components_new := length (components g_v) in
  if decide (n_components st < n_components_new) then
    result ← prune_components G g measure;
    let st := {| degree := degree st; neighbors := neighbors st;
                 edges := edges st; n_components := n_components_new |} in
    if pruned result then
      communities ← assemble rec g result;
      mret (Break communities)
    else mret (Continue st)
  else mret (Continue st).

(** One pass of the [while True] loop of [radicchi_internal]. *)
Definition iteration (rec : loc → M (list (list nat))) (G g : loc)
    (measure : string) (edge_clustering_coefficient : scorer) (st : caches)
  : M outcome :=
  if decide (size (edges st) = 0) then mret (Break [])
  else
    st ← remove_minimum g edge_clustering_coefficient st;
    split_check rec G g measure st.

Fixpoint loop (rec : loc → M (list (list nat))) (G g : loc)
    (measure : string) (edge_clustering_coefficient : scorer)
    (fuel : nat) (st : caches) : M (list (list nat)) :=
  match fuel with
  | 0 => lift Timeout
  | S fuel' =>
      o ← iteration rec G g measure edge_clustering_coefficient st;
      match o with
      | Break communities => mret communities
      | Continue st' =>
          loop rec G g measure edge_clustering_coefficient fuel' st'
      end
  end.

(** The value of [clustering] when a call leaves it out. *)
Definition default_clustering : Z := 3.

Fixpoint radicchi_internal (fuel : nat) (G g : loc) (level : nat)
    (measure : string) (clustering : Z) {struct fuel} : M (list (list nat)) :=
  match fuel with
  | 0 => lift Timeout
  | S fuel' =>
      g_v ← deref g;
      let degree := degree_all g_v in
      let neighbors := neighbors_of g_v <$> seq 0 (vcount g_v) in
      let edges := es g_v in
      let n_components := length (components g_v) in
      let edge_clustering_coefficient :=
        if decide (clustering = 3%Z) then edge_clustering_coefficient_3
        else edge_clustering_coefficient_4 in
      loop (λ s, radicchi_internal fuel' G s (level + 1) measure default_clustering)
        G g measure edge_clustering_coefficient fuel'
        {| degree := degree; neighbors := neighbors; edges := edges;
           n_components := n_components |}
  end.

(** Lines 20-23: the membership list built from the groups. *)
Definition assign (clustering : list nat) (il : nat * list nat) : res (list nat) :=
  for_each (λ clustering v,
      if decide (v < length clustering) then Ok (<[v := il.1]> clustering)
      else Raise IndexError)
    clustering il.2.

Definition label (n : nat) (result : list (list nat)) : res (list nat) :=
  for_each assign (replicate n 0) (enumerate result).

(** [radicchi(G, measure)]; the value returned is the membership list
    of the [VertexClustering]. *)
Definition radicchi (fuel : nat) (G : loc) (measure : string) : M (list nat) :=
  G_v ← deref G;
  g ← alloc G_v;
  g_v ← deref g;
  _ ← store g {| vcount := vcount g_v; es := es g_v;
                 vs_id := seq 0 (vcount g_v) |};
  result ←
    (if decide (measure = "weak") then
       radicchi_internal fuel G g 0 measure 4
     else if decide (measure = "strong") then
       radicchi_internal fuel G g 0 measure 3
     else lift (Raise (Exception "Other measures of community not yet supported")));
  G_v ← deref G;
  lift (label (vcount G_v) result).

End Radicchi.

(** ** Notions used to state the properties *)

(** The working copy that [radicchi] makes of [G]: every vertex tagged
    with its own index. *)
Definition tagged_copy (G_v : graph) : graph :=
  {| vcount := vcount G_v; es := es G_v; vs_id := seq 0 (vcount G_v) |}.

(** The caches as lines 35-38 compute them from the graph. *)
Definition caches_of (g_v : graph) (k : nat) : caches :=
  {| degree := degree_all g_v;
     neighbors := neighbors_of g_v <$> seq 0 (vcount g_v);
     edges := es g_v;
     n_components := k |}.

(** [e] has the least score of [l]. *)
Definition least (sc : edge → score) (l : list edge) (e : edge) : Prop :=
  Forall (λ e', score_le (sc e) (sc e') = true) l.

#[global] Instance least_dec sc l e : Decision (least sc l e).
Proof. unfold least. apply _. Defined.

(** A set iteration order enumerates the set. *)
Definition enumerates {A} `{Countable A} (iter : gset A → list A) : Prop :=
  ∀ X, iter X ≡ₚ elements X.

Definition score_positive (s : score) : Prop :=
  match s with
  | Finite q => (0 < q)%Q
  | Infinity => True
  end.

(** [s] is infinite when the denominator [m] is zero, and at least [1 / m]
    otherwise. *)
Definition score_bound (m : Z) (s : score) : Prop :=
  match s with
  | Finite q => m ≠ 0%Z ∧ (1 / inject_Z m <= q)%Q
  | Infinity => m = 0%Z
  end.

(** The score that the scan sees on an edge. *)
Definition score_of (ecc : scorer) (st : caches) (e : edge) : score :=
  match ecc e.1 e.2 (degree st) (neighbors st) with
  | Ok s => s
  | _ => Infinity
  end.

(** The edges whose score is the minimum over the current edges. *)
Definition minimum_edges (ecc : scorer) (st : caches) : gset edge :=
  filter (λ e, set_Forall
                 (λ e', score_le (score_of ecc st e) (score_of ecc st e') = true)
                 (edges st))
    (edges st).

(** The graph without the edges of [X]. *)
Definition without (g : graph) (X : gset edge) : graph :=
  {| vcount := vcount g; es := es g ∖ X; vs_id := vs_id g |}.

(** The two coefficients that [radicchi_internal] chooses from. *)
Definition coefficient (iter_nodes : gset nat → list nat) (ecc : scorer) : Prop :=
  ecc = edge_clustering_coefficient_3
  ∨ ecc = edge_clustering_coefficient_4 iter_nodes.

(** [σ'] keeps every object of [σ] outside of [X] as it is. *)
Definition frame (X : gset nat) (σ σ' : gmap nat graph) : Prop :=
  dom σ ⊆ dom σ' ∧ ∀ l, l ∈ dom σ → l ∉ X → σ' !! l = σ !! l.

(** A computation that only updates the objects of [X], and new ones. *)
Definition modifies {A} (X : gset nat) (m : M A) : Prop :=
  ∀ σ, frame X σ (m σ).2.

#[global] Instance exn_eq_dec : EqDecision exn.
Proof. solve_decision. Defined.

#[global] Instance res_eq_dec {A} `{EqDecision A} : EqDecision (res A).
Proof. solve_decision. Defined.

(** The predicate that [prune_components] binds to a measure. *)
Definition community_test (measure : string) : graph → list nat → res bool :=
  if decide (measure = "strong") then is_strong_community
  else is_weak_community.

(** The component [c] of the working graph satisfies the predicate: its
    vertices, named by their ['id'], form a community of the original
    graph. *)
Definition satisfies (measure : string) (orig_g new_g : graph) (c : list nat) : Prop :=
  comprehension (index (vs_id new_g)) c ≫= community_test measure orig_g = Ok true.

#[global] Instance satisfies_dec measure orig_g new_g c :
  Decision (satisfies measure orig_g new_g c).
Proof. unfold satisfies. apply _. Defined.

(** The components of the working graph that satisfy the predicate. *)
Definition confirmed (measure : string) (orig_g new_g : graph) : list (list nat) :=
  filter (satisfies measure orig_g new_g) (components new_g).

(** A working graph of the recursion on the original graph [G_v]: a
    simple graph whose vertices carry distinct vertices of [G_v] as
    their ['id']. *)
Record working (G_v g_v : graph) : Prop := Working {
  working_simple : simple g_v;
  working_ids_length : length (vs_id g_v) = vcount g_v;
  working_ids_NoDup : NoDup (vs_id g_v);
  working_ids_range : Forall (λ i, i < vcount G_v) (vs_id g_v)
}.

(** A computation that returns [a] and leaves the store [σ'], whatever
    the iteration order of the sets of edges. *)
Definition returns {A} (m : (gset edge → list edge) → M A)
    (σ : gmap nat graph) (a : A) (σ' : gmap nat graph) : Prop :=
  ∀ iter_edges, enumerates iter_edges → m iter_edges σ = (Ok a, σ').

(** The store holds the original graph at [G] and a working graph at [g]. *)
Definition holds (σ : gmap nat graph) (G : nat) (G_v : graph) (g : nat) (g_v : graph)
  : Prop :=
  σ !! G = Some G_v ∧ σ !! g = Some g_v ∧ g ≠ G.

(** The groups that [radicchi_internal] returns on a working graph
    whose vertices carry the ids [ids]: non-empty groups of these ids, no
    id twice, and none or at least two of them. *)
Definition groups_ok (ids : list nat) (result : list (list nat)) : Prop :=
  Forall (Forall (λ i, i ∈ ids)) result
  ∧ NoDup (concat result)
  ∧ Forall (λ l, l ≠ []) result
  ∧ (result = [] ∨ 2 ≤ length result).

(** What the loop needs of the recursive calls: on a working graph with
    less than [bound] edges they return groups of its vertices and only
    update the graph they are given. *)
Definition recursion_ok (G : nat) (G_v : graph) (bound : nat)
    (rec : (gset edge → list edge) → nat → M (list (list nat))) : Prop :=
  (∀ iter_edges s, modifies {[s]} (rec iter_edges s))
  ∧ ∀ s s_v σ,
      holds σ G G_v s s_v → working G_v s_v → size (es s_v) < bound →
      ∃ result σ',
        returns (λ iter_edges, rec iter_edges s) σ result σ'
        ∧ groups_ok (vs_id s_v) result.

(** The caches agree with each other: [degree[v]] is the number of the
    cached neighbours of [v], no vertex is its own neighbour, the
    neighbourhoods are symmetric, and the cached edges are the pairs
    [(u, v)] with [u < v] and [v] a cached neighbour of [u]. *)
Definition consistent (st : caches) : Prop :=
  length (degree st) = length (neighbors st)
  ∧ (∀ v nv, neighbors st !! v = Some nv →
       degree st !! v = Some (Z.of_nat (size nv))
       ∧ (v ∉ nv)
       ∧ ∀ w, w ∈ nv → ∃ nw, neighbors st !! w = Some nw ∧ v ∈ nw)
  ∧ (∀ u v, (u, v) ∈ edges st ↔
       u < v ∧ ∃ nu, neighbors st !! u = Some nu ∧ v ∈ nu).

(** [s] is infinite when the denominator [m] is zero, and at most
    [1 + 1 / m], so at most 2, otherwise. *)
Definition score_within (m : Z) (s : score) : Prop :=
  match s with
  | Finite q => m ≠ 0%Z ∧ (q <= 1 + 1 / inject_Z m)%Q ∧ (q <= 2)%Q
  | Infinity => m = 0%Z
  end.

(** The common neighbours that [edge_clustering_coefficient_4] counts
    for [w]. *)
Definition squares_through (g : graph) (u v w : nat) : nat :=
  size ((neighbors_of g w ∖ {[u]}) ∩ (neighbors_of g v ∖ {[u]})).

(** The neighbours of [v] inside and outside of [nodes]. *)
Definition internal_degree (G : graph) (nodes : list nat) (v : nat) : Z :=
  Z.of_nat (size (filter (λ w, w ∈ nodes) (neighbors_of G v))).

Definition external_degree (G : graph) (nodes : list nat) (v : nat) : Z :=
  Z.of_nat (size (filter (λ w, w ∉ nodes) (neighbors_of G v))).

(** ** Example graphs *)

(** Two triangles [{0,1,2}] and [{3,4,5}] joined by the bridge [2-3]. *)
Definition two_triangles : graph :=
  {| vcount := 6;
     es := list_to_set [(0, 1); (0, 2); (1, 2); (2, 3); (3, 4); (3, 5); (4, 5)];
     vs_id := [] |}.

(** The two triangles once the bridge is removed, as a working graph. *)
Definition split_triangles : graph :=
  {| vcount := 6;
     es := list_to_set [(0, 1); (0, 2); (1, 2); (3, 4); (3, 5); (4, 5)];
     vs_id := seq 0 6 |}.

(** A graph on which the weak measure recurses into a community that
    the two coefficients split differently. *)
Definition pairing_graph : graph :=
  {| vcount := 8;
     es := list_to_set
             [(0, 5); (1, 3); (1, 6); (2, 6); (3, 5); (3, 7); (4, 6); (6, 7)];
     vs_id := [] |}.

(** Two vertices and no edge. *)
Definition two_vertices : graph := {| vcount := 2; es := ∅; vs_id := [] |}.

(** Every vertex is alone in its community: no two vertices share a
    label. *)
Definition all_singletons (membership : list nat) : Prop := NoDup membership.

#[global] Instance simple_dec g : Decision (simple g).
Proof. unfold simple. apply (set_Forall_dec _ (es g)). Defined.

(** * Properties *)

(** ** Running a computation *)

Lemma run_bind {A B} (m : M A) (f : A → M B) σ :
  (m ≫= f) σ =
  match m σ with
  | (Ok a, σ') => f a σ'
  | (Raise e, σ') => (Raise e, σ')
  | (Timeout, σ') => (Timeout, σ')
  end.
Proof. reflexivity. Qed.

Lemma run_bind_ok {A B} (m : M A) (f : A → M B) σ a σ' :
  m σ = (Ok a, σ') → (m ≫= f) σ = f a σ'.
Proof. intros H. by rewrite run_bind, H. Qed.

Lemma run_ret {A} (a : A) σ : (mret a : M A) σ = (Ok a, σ).
Proof. reflexivity. Qed.

Lemma run_lift {A} (r : res A) σ : lift r σ = (r, σ).
Proof. reflexivity. Qed.

Lemma run_deref l g σ : σ !! l = Some g → deref l σ = (Ok g, σ).
Proof. intros H. unfold deref. by rewrite H. Qed.

Lemma label_nil n : label n [] = Ok (replicate n 0).
Proof. reflexivity. Qed.

Section Top.
Variable iter_edges : gset edge → list edge.
Variable iter_nodes : gset nat → list nat.

Lemma radicchi_unfold fuel G measure σ G_v :
  σ !! G = Some G_v →
  radicchi iter_edges iter_nodes fuel G measure σ =
  let g := fresh (dom σ) in
  ((result ←
    (if decide (measure = "weak") then
       radicchi_internal iter_edges iter_nodes fuel G g 0 measure 4
     else if decide (measure = "strong") then
       radicchi_internal iter_edges iter_nodes fuel G g 0 measure 3
     else lift (Raise (Exception "Other measures of community not yet supported")));
  G_v ← deref G;
  lift (label (vcount G_v) result)) : M (list nat)) (<[g := tagged_copy G_v]> σ).
Proof.
  intros HG. unfold radicchi.
  rewrite (run_bind_ok _ _ _ _ _ (run_deref _ _ _ HG)).
  rewrite run_bind. unfold alloc at 1. cbv beta zeta.
  rewrite run_bind, (run_deref _ G_v) by apply lookup_insert_eq.
  rewrite run_bind. unfold store at 1. rewrite insert_insert_eq.
  reflexivity.
Qed.

Lemma radicchi_invalid_measure fuel G measure σ G_v :
  σ !! G = Some G_v → measure ≠ "weak" → measure ≠ "strong" →
  radicchi iter_edges iter_nodes fuel G measure σ =
  (Raise (Exception "Other measures of community not yet supported"),
   <[fresh (dom σ) := tagged_copy G_v]> σ).
Proof.
  intros HG Hw Hs. rewrite (radicchi_unfold _ _ _ _ _ HG). cbv zeta.
  rewrite run_bind. rewrite !decide_False by done. reflexivity.
Qed.
End Top.

Lemma strong_empty G : is_strong_community G [] = Ok true.
Proof. reflexivity. Qed.
Lemma kept_nil G : kept G [] = [].
Proof.
  unfold kept. induction (seq 0 (vcount G)) as [|v l IH]; [done|].
  by rewrite filter_cons_False by apply not_elem_of_nil.
Qed.
Lemma weak_empty G : is_weak_community G [] = Ok false.
Proof.
  unfold is_weak_community, subgraph. rewrite decide_True by constructor.
  cbn [mbind res_bind degree_nodes comprehension]. unfold degree_all. cbn [vcount].
  by rewrite kept_nil.
Qed.

Section Top2.
Variable iter_edges : gset edge → list edge.
Variable iter_nodes : gset nat → list nat.

Lemma radicchi_internal_no_edges fuel G g level measure clustering σ g_v :
  σ !! g = Some g_v → es g_v = ∅ →
  radicchi_internal iter_edges iter_nodes (S (S fuel)) G g level measure clustering σ
  = (Ok [], σ).
Proof.
  intros Hg He. cbn [radicchi_internal].
  rewrite (run_bind_ok _ _ _ _ _ (run_deref _ _ _ Hg)).
  cbn [loop]. rewrite run_bind. unfold iteration. cbn [edges].
  rewrite He, decide_True by (by rewrite size_empty). reflexivity.
Qed.

Lemma radicchi_no_edges fuel G measure σ G_v :
  σ !! G = Some G_v → es G_v = ∅ → measure = "weak" ∨ measure = "strong" →
  (radicchi iter_edges iter_nodes (S (S fuel)) G measure σ).1
  = Ok (replicate (vcount G_v) 0).
Proof.
  intros HG He Hm. rewrite (radicchi_unfold _ _ _ _ _ _ _ HG). cbv zeta.
  assert (Hfresh : fresh (dom σ) ≠ G).
  { intros E. apply (is_fresh (dom σ)). rewrite E. apply elem_of_dom; eauto. }
  rewrite run_bind.
  assert (Hr : ∀ c, radicchi_internal iter_edges iter_nodes (S (S fuel)) G
              (fresh (dom σ)) 0 measure c (<[fresh (dom σ) := tagged_copy G_v]> σ)
            = (Ok [], <[fresh (dom σ) := tagged_copy G_v]> σ)).
  { intros c. eapply radicchi_internal_no_edges; [apply lookup_insert_eq | done]. }
  destruct Hm as [-> | ->]; cbn [decide]; 
    (rewrite ?decide_True by done; rewrite ?decide_False by done; rewrite ?decide_True by done);
    rewrite Hr, run_bind, (run_deref _ G_v) by (by rewrite lookup_insert_ne); reflexivity.
Qed.
End Top2.

(** ** The order of the scores and the scan *)

Lemma score_le_refl a : score_le a a = true.
Proof. destruct a; cbn; [|done]. apply Qle_bool_iff, Qle_refl. Qed.

Lemma score_le_trans a b c :
  score_le a b = true → score_le b c = true → score_le a c = true.
Proof.
  destruct a, b, c; cbn; try done.
  rewrite !Qle_bool_iff. apply Qle_trans.
Qed.

Lemma score_le_total a b : score_le a b = true ∨ score_le b a = true.
Proof.
  destruct a as [x|], b as [y|]; cbn; auto.
  rewrite !Qle_bool_iff. destruct (Qlt_le_dec x y) as [H|H]; [left|right]; [by apply Qlt_le_weak | done].
Qed.

Lemma score_lt_le a b : score_lt a b = negb (score_le b a).
Proof. by destruct a, b. Qed.

Lemma score_eq_le a b : score_eq a b = score_le a b && score_le b a.
Proof.
  destruct a as [x|], b as [y|]; cbn; try done.
  apply eq_true_iff_eq. rewrite andb_true_iff, Qeq_bool_iff, !Qle_bool_iff.
  split; [intros ->; split; apply Qle_refl | intros [??]; by apply Qle_antisym].
Qed.

Lemma for_each_app {A B} (body : B → A → res B) acc l1 l2 :
  for_each body acc (l1 ++ l2) = for_each body acc l1 ≫= λ acc', for_each body acc' l2.
Proof.
  revert acc. induction l1 as [|x l1 IH]; intros acc; [done|].
  cbn. destruct (body acc x); cbn; [apply IH | done | done].
Qed.

Lemma filter_ext_in {A} (P Q : A → Prop) `{!∀ x, Decision (P x)} `{!∀ x, Decision (Q x)} (l : list A) :
  (∀ x, x ∈ l → P x ↔ Q x) → filter P l = filter Q l.
Proof.
  induction l as [|x l IH]; intros Hext; [done|].
  rewrite !filter_cons. rewrite IH by (intros; apply Hext; by right).
  destruct (decide (P x)) as [HP|HP], (decide (Q x)) as [HQ|HQ]; try done.
  - destruct HQ. by apply Hext; [left|].
  - destruct HP. by apply Hext; [left|].
Qed.

Lemma filter_none {A} (P : A → Prop) `{!∀ x, Decision (P x)} (l : list A) :
  (∀ x, x ∈ l → ¬ P x) → filter P l = [].
Proof.
  induction l as [|x l IH]; intros Hno; [done|].
  rewrite filter_cons_False by (apply Hno; left). apply IH. intros; apply Hno; by right.
Qed.

Section Scan.
Variable ecc : scorer.
Variable degree : list Z.
Variable neighbors : list (gset nat).
Variable sc : edge → score.

Lemma scan_list_spec (l : list edge) :
  (∀ e, e ∈ l → ecc e.1 e.2 degree neighbors = Ok (sc e) ∧ score_truth (sc e) = true) →
  l ≠ [] →
  ∃ e0, e0 ∈ l ∧ least sc l e0 ∧
    for_each (scan_step ecc degree neighbors) ([], None) l
    = Ok (filter (least sc l) l, Some (sc e0)).
Proof.
  induction l as [|x l IH] using rev_ind; [done|]. intros Hsc _.
  assert (Hx : ecc x.1 x.2 degree neighbors = Ok (sc x) ∧ score_truth (sc x) = true).
  { apply Hsc. set_solver. }
  destruct Hx as [Hx Hxt].
  rewrite for_each_app.
  destruct (decide (l = [])) as [->|Hne].
  { exists x. cbn. rewrite Hx. cbn.
    assert (least sc [x] x) by (repeat constructor; apply score_le_refl).
    split_and!; [set_solver | done |]. by rewrite decide_True. }
  destruct IH as (e0 & He0 & Hmin & ->); [intros; apply Hsc; set_solver | done |].
  cbn. rewrite Hx. cbn.
  assert (He0t : score_truth (sc e0) = true) by (apply Hsc; set_solver).
  rewrite He0t. cbn. rewrite score_lt_le, score_eq_le.
  unfold least in *. rewrite filter_app.
  destruct (score_le (sc e0) (sc x)) eqn:Hle; cbn.
  - (* the score of x is not below the minimum *)
    exists e0. split; [set_solver|]. split.
    { apply Forall_app. split; [done | by repeat constructor]. }
    assert (Hl : filter (λ e, Forall (λ e', score_le (sc e) (sc e') = true) (l ++ [x])) l
                 = filter (λ e, Forall (λ e', score_le (sc e) (sc e') = true) l) l).
    { apply filter_ext_in. intros e He. rewrite Forall_app, Forall_singleton.
      split; [naive_solver|]. intros H. split; [done|].
      eapply score_le_trans; [|exact Hle].
      rewrite Forall_forall in H. by apply H. }
    rewrite Hl. destruct (score_le (sc x) (sc e0)) eqn:Hle'.
    + rewrite decide_True; [done|].
      apply Forall_app. split; [|repeat constructor; apply score_le_refl].
      eapply Forall_impl; [exact Hmin|]. cbn. intros e' ?. by eapply score_le_trans.
    + rewrite decide_False; [by rewrite app_nil_r|].
      rewrite Forall_app. intros [H _]. rewrite Forall_forall in H.
      specialize (H _ He0). congruence.
  - (* a new minimum *)
    assert (Hle' : score_le (sc x) (sc e0) = true).
    { destruct (score_le_total (sc x) (sc e0)); congruence. }
    exists x. split; [set_solver|].
    assert (Hxmin : Forall (λ e', score_le (sc x) (sc e') = true) (l ++ [x])).
    { apply Forall_app. split; [|repeat constructor; apply score_le_refl].
      eapply Forall_impl; [exact Hmin|]. cbn. intros e' ?. by eapply score_le_trans. }
    split; [done|]. rewrite decide_True by done. rewrite filter_none; [done|].
    intros e He. rewrite Forall_app, Forall_singleton. intros [_ H].
    assert (score_le (sc e0) (sc x) = true); [|congruence].
    eapply score_le_trans; [|exact H]. rewrite Forall_forall in Hmin. by apply Hmin.
Qed.
End Scan.

(** ** The caches of a simple graph *)

Lemma index_ok {A} (l : list A) i x : l !! i = Some x → index l i = Ok x.
Proof. intros H. unfold index. by rewrite H. Qed.

Lemma index_degree_all g v :
  v < vcount g → index (degree_all g) v = Ok (degree_of g v).
Proof.
  intros Hv. apply index_ok. unfold degree_all.
  by rewrite list_lookup_fmap, lookup_seq_lt.
Qed.

Lemma index_neighbors_all g v :
  v < vcount g →
  index (neighbors_of g <$> seq 0 (vcount g)) v = Ok (neighbors_of g v).
Proof.
  intros Hv. apply index_ok. by rewrite list_lookup_fmap, lookup_seq_lt.
Qed.

Lemma elem_of_neighbors_of g v w :
  w ∈ neighbors_of g v ↔ (v, w) ∈ es g ∨ (w, v) ∈ es g.
Proof.
  unfold neighbors_of. rewrite elem_of_union, !elem_of_map.
  split.
  - intros [([a b] & -> & H)|([a b] & -> & H)]; apply elem_of_filter in H as [E H];
      cbn in *; subst; auto.
  - intros [H|H]; [left; exists (v, w) | right; exists (w, v)];
      (split; [done|]); by apply elem_of_filter.
Qed.

Lemma neighbors_of_range g v w :
  simple g → w ∈ neighbors_of g v → w < vcount g.
Proof.
  intros Hs [H|H]%elem_of_neighbors_of; apply Hs in H; cbn in H; lia.
Qed.

Lemma degree_of_nonneg g v : (0 ≤ degree_of g v)%Z.
Proof. unfold degree_of. lia. Qed.

Lemma degree_of_fst g u v : (u, v) ∈ es g → (1 ≤ degree_of g u)%Z.
Proof.
  intros H. unfold degree_of.
  assert (size (filter (λ e : edge, e.1 = u) (es g)) ≠ 0); [|lia].
  apply size_non_empty_iff, (non_empty_inhabited (u, v)).
  by apply elem_of_filter.
Qed.

Lemma degree_of_snd g u v : (u, v) ∈ es g → (1 ≤ degree_of g v)%Z.
Proof.
  intros H. unfold degree_of.
  assert (size (filter (λ e : edge, e.2 = v) (es g)) ≠ 0); [|lia].
  apply size_non_empty_iff, (non_empty_inhabited (u, v)).
  by apply elem_of_filter.
Qed.

(** ** The values of the coefficients *)

Lemma ratio_props n m :
  (0 ≤ n)%Z → (0 < m)%Z →
  score_positive (ratio n m) ∧ score_bound m (ratio n m)
  ∧ score_truth (ratio n m) = true.
Proof.
  intros Hn Hm. unfold ratio.
  assert (Hm' : (0 < inject_Z m)%Q) by (rewrite <- (Zlt_Qlt 0); done).
  assert (Hn' : (1 <= inject_Z n + 1)%Q).
  { change 1%Q with (inject_Z 1). rewrite <- inject_Z_plus, <- Zle_Qle. lia. }
  assert (Hpos : (0 < (inject_Z n + 1) / inject_Z m)%Q).
  { apply Qlt_shift_div_l; [done|]. rewrite Qmult_0_l.
    eapply Qlt_le_trans; [|exact Hn']. done. }
  cbn. split_and!; [done | lia | |].
  - unfold Qdiv. apply Qmult_le_compat_r; [done|].
    apply Qinv_le_0_compat. by apply Qlt_le_weak.
  - apply negb_true_iff, not_true_iff_false. rewrite Qeq_bool_iff.
    intros E. rewrite E in Hpos. by apply Qlt_irrefl in Hpos.
Qed.

Lemma for_each_invariant {A B} (P : B → Prop) (body : B → A → res B) l acc :
  P acc →
  (∀ acc x, x ∈ l → P acc → ∃ acc', body acc x = Ok acc' ∧ P acc') →
  ∃ r, for_each body acc l = Ok r ∧ P r.
Proof.
  revert acc. induction l as [|x l IH]; intros acc Hacc Hstep; [by exists acc|].
  destruct (Hstep acc x) as (acc' & Hb & Hacc'); [by left | done |].
  cbn. rewrite Hb. cbn. apply IH; [done|].
  intros ????. apply Hstep; [by right | done].
Qed.

Section Coefficients.
Variable iter_nodes : gset nat → list nat.
Hypothesis iter_nodes_enumerates : enumerates iter_nodes.

Variable g : graph.
Hypothesis g_simple : simple g.

Lemma coefficient_3_value u v :
  (u, v) ∈ es g →
  ∃ s, edge_clustering_coefficient_3 u v (degree (caches_of g 0)) (neighbors (caches_of g 0)) = Ok s
    ∧ score_positive s
    ∧ score_bound ((degree_of g u - 1) `min` (degree_of g v - 1)) s
    ∧ score_truth s = true.
Proof.
  intros He. pose proof (g_simple _ He) as [Huv Hv]. cbn in Huv, Hv.
  pose proof (degree_of_fst _ _ _ He). pose proof (degree_of_snd _ _ _ He).
  unfold edge_clustering_coefficient_3. cbn [degree neighbors caches_of].
  rewrite !index_degree_all by lia. cbn [mbind res_bind].
  case_decide as Hm; [by exists Infinity|].
  rewrite !index_neighbors_all by lia. cbn [mbind res_bind].
  eexists; split; [done|]. apply ratio_props; lia.
Qed.

Lemma coefficient_4_value u v :
  (u, v) ∈ es g →
  ∃ s, edge_clustering_coefficient_4 iter_nodes u v (degree (caches_of g 0)) (neighbors (caches_of g 0)) = Ok s
    ∧ score_positive s
    ∧ score_bound ((degree_of g u - 1) * (degree_of g v - 1)) s
    ∧ score_truth s = true.
Proof.
  intros He. pose proof (g_simple _ He) as [Huv Hv]. cbn in Huv, Hv.
  pose proof (degree_of_fst _ _ _ He). pose proof (degree_of_snd _ _ _ He).
  unfold edge_clustering_coefficient_4. cbn [degree neighbors caches_of].
  rewrite !index_degree_all by lia. cbn [mbind res_bind].
  case_decide as Hm; [by exists Infinity|].
  rewrite !index_neighbors_all by lia. cbn [mbind res_bind].
  match goal with |- context [for_each ?b ?a ?l] =>
    destruct (for_each_invariant (λ n : Z, (0 ≤ n)%Z) b l a) as (n & -> & Hn)
  end; [done| |cbn [mbind res_bind]; eexists; split; [done|apply ratio_props; [done|nia]]].
  intros acc w Hw Hacc.
  rewrite iter_nodes_enumerates, elem_of_elements in Hw.
  apply elem_of_difference in Hw as [Hw _].
  rewrite index_neighbors_all by (by eapply neighbors_of_range).
  cbn [mbind res_bind]. eexists; split; [done|]. lia.
Qed.
End Coefficients.

(** ** Removing edges: the caches follow the graph *)

Lemma without_simple g X : simple g → simple (without g X).
Proof. intros Hs e He. apply Hs. cbn in He. set_solver. Qed.

Lemma without_without g X Y : without (without g X) Y = without g (X ∪ Y).
Proof. unfold without. cbn. f_equal. set_solver. Qed.

Lemma size_filter_remove (P : edge → Prop) `{!∀ e, Decision (P e)} (X : gset edge) e :
  e ∈ X →
  size (filter P (X ∖ {[e]})) = size (filter P X) - (if decide (P e) then 1 else 0).
Proof.
  intros He.
  assert (E : filter P (X ∖ {[e]}) = filter P X ∖ {[e]}) by set_solver.
  rewrite E. case_decide as HP.
  - rewrite size_difference by set_solver. by rewrite size_singleton.
  - assert (E' : filter P X ∖ {[e]} = filter P X) by set_solver.
    rewrite E'. lia.
Qed.

Lemma degree_of_without g u v w :
  (u, v) ∈ es g → u ≠ v →
  degree_of (without g {[(u, v)]}) w
  = (degree_of g w - (if decide (w = u) then 1 else 0) - (if decide (w = v) then 1 else 0))%Z.
Proof.
  intros He Huv. unfold degree_of. cbn [es without].
  rewrite !size_filter_remove by done. cbn [fst snd].
  assert (H1 : size (filter (λ e : edge, e.1 = u) (es g)) ≠ 0).
  { apply size_non_empty_iff, (non_empty_inhabited (u, v)). by apply elem_of_filter. }
  assert (H2 : size (filter (λ e : edge, e.2 = v) (es g)) ≠ 0).
  { apply size_non_empty_iff, (non_empty_inhabited (u, v)). by apply elem_of_filter. }
  repeat case_decide; subst; try done; lia.
Qed.

Lemma neighbors_of_without g u v w :
  simple g → (u, v) ∈ es g →
  neighbors_of (without g {[(u, v)]}) w
  = if decide (w = u) then neighbors_of g w ∖ {[v]}
    else if decide (w = v) then neighbors_of g w ∖ {[u]}
    else neighbors_of g w.
Proof.
  intros Hs He. pose proof (Hs _ He) as [Huv _]. cbn in Huv.
  apply set_eq. intros x.
  assert (Hvu : (v, u) ∉ es g).
  { intros H. apply Hs in H. cbn in H. lia. }
  repeat case_decide; subst;
    rewrite ?elem_of_difference, !elem_of_neighbors_of; cbn [es without];
    rewrite !elem_of_difference, !elem_of_singleton; split;
    intros; destruct_and?; destruct_or?; destruct_and?; simplify_eq; eauto;
    try (split; [eauto|congruence]); try (left; split; [done|congruence]);
    try (right; split; [done|congruence]).
Qed.

Lemma index_insert_ne {A} (l : list A) i j x :
  i ≠ j → index (<[i := x]> l) j = index l j.
Proof. intros H. unfold index. by rewrite list_lookup_insert_ne. Qed.

Lemma discard_edge_caches g k u v :
  simple g → (u, v) ∈ es g →
  discard_edge (caches_of g k) (u, v) = Ok (caches_of (without g {[(u, v)]}) k).
Proof.
  intros Hs He. pose proof (Hs _ He) as [Huv Hv]. cbn in Huv, Hv.
  unfold discard_edge. cbn [caches_of neighbors degree edges n_components].
  rewrite index_neighbors_all by lia. cbn [mbind res_bind].
  rewrite index_insert_ne, index_neighbors_all by lia. cbn [mbind res_bind].
  rewrite index_degree_all by lia. cbn [mbind res_bind].
  rewrite index_insert_ne, index_degree_all by lia. cbn [mbind res_bind]. unfold caches_of. cbn [vcount without]. f_equal. f_equal.
  - apply list_eq. intros w. unfold degree_all. cbn [vcount without].
    destruct (decide (w < vcount g)) as [Hw|Hw].
    + rewrite list_lookup_fmap, lookup_seq_lt by done. cbn.
      rewrite degree_of_without by (done || lia).
      destruct (decide (w = v)) as [->|].
      { rewrite list_lookup_insert_eq by (rewrite length_insert, length_fmap, length_seq; lia).
        rewrite decide_False by lia. f_equal. lia. }
      rewrite list_lookup_insert_ne by done.
      destruct (decide (w = u)) as [->|].
      { rewrite list_lookup_insert_eq by (rewrite length_fmap, length_seq; lia).
        f_equal. lia. }
      rewrite list_lookup_insert_ne by done.
      rewrite list_lookup_fmap, lookup_seq_lt by done. cbn. f_equal. lia.
    + rewrite !lookup_ge_None_2; [done| |];
        rewrite ?length_insert, length_fmap, length_seq; lia.
  - apply list_eq. intros w.
    destruct (decide (w < vcount g)) as [Hw|Hw].
    + rewrite list_lookup_fmap, lookup_seq_lt by done. cbn.
      rewrite neighbors_of_without by done.
      destruct (decide (w = v)) as [->|].
      { rewrite list_lookup_insert_eq by (rewrite length_insert, length_fmap, length_seq; lia).
        by rewrite decide_False by lia. }
      rewrite list_lookup_insert_ne by done.
      destruct (decide (w = u)) as [->|].
      { by rewrite list_lookup_insert_eq by (rewrite length_fmap, length_seq; lia). }
      rewrite list_lookup_insert_ne by done.
      by rewrite list_lookup_fmap, lookup_seq_lt by done.
    + rewrite !lookup_ge_None_2; [done| |];
        rewrite ?length_insert, length_fmap, length_seq; lia.
Qed.

Lemma discard_edges_caches g k (l : list edge) :
  simple g → NoDup l → (∀ e, e ∈ l → e ∈ es g) →
  for_each discard_edge (caches_of g k) l = Ok (caches_of (without g (list_to_set l)) k).
Proof.
  revert g. induction l as [|[u v] l IH]; intros g Hs Hnd Hin.
  - cbn. do 2 f_equal. unfold without. destruct g; cbn. f_equal. set_solver.
  - apply NoDup_cons in Hnd as [Hx Hnd]. cbn [for_each].
    rewrite discard_edge_caches by (done || apply Hin; by left). cbn [mbind res_bind].
    rewrite IH; [by rewrite without_without | by apply without_simple | done |].
    intros e He. cbn. apply elem_of_difference. split; [apply Hin; by right|].
    rewrite elem_of_singleton. by intros ->.
Qed.

Lemma delete_edges_simple g (l : list edge) :
  simple g → (∀ e, e ∈ l → e ∈ es g) →
  delete_edges g l = Ok (without g (list_to_set l)).
Proof.
  intros Hs Hin.
  assert (Ht : ∀ e, e ∈ l → edge_tuple e = e).
  { intros [u v] He. apply Hin, Hs in He. cbn in He. unfold edge_tuple. cbn.
    f_equal; lia. }
  assert (Hl : edge_tuple <$> l = l).
  { clear Hin. induction l as [|e l IH]; [done|]. cbn.
    rewrite Ht by (by left). f_equal. apply IH. intros; apply Ht; by right. }
  unfold delete_edges. rewrite Hl, decide_True; [done|].
  apply Forall_forall. intros e He. rewrite Ht by done. by apply Hin.
Qed.

Lemma minimum_edges_subseteq ecc (st : caches) : minimum_edges ecc st ⊆ edges st.
Proof. unfold minimum_edges. set_solver. Qed.

Section Removal.
Variable iter_edges : gset edge → list edge.
Variable iter_nodes : gset nat → list nat.
Hypothesis iter_edges_enumerates : enumerates iter_edges.
Hypothesis iter_nodes_enumerates : enumerates iter_nodes.

Variable ecc : scorer.
Hypothesis ecc_coefficient : coefficient iter_nodes ecc.

Lemma coefficient_value g k e :
  simple g → e ∈ es g →
  ecc e.1 e.2 (degree (caches_of g k)) (neighbors (caches_of g k))
    = Ok (score_of ecc (caches_of g k) e)
  ∧ score_truth (score_of ecc (caches_of g k) e) = true.
Proof.
  intros Hs He. destruct e as [u v]. unfold score_of. cbn [fst snd].
  destruct ecc_coefficient as [-> | ->].
  - destruct (coefficient_3_value g Hs u v He) as (s & Hv & _ & _ & Ht).
    cbn [caches_of degree neighbors] in *. by rewrite Hv.
  - destruct (coefficient_4_value iter_nodes iter_nodes_enumerates g Hs u v He)
      as (s & Hv & _ & _ & Ht).
    cbn [caches_of degree neighbors] in *. by rewrite Hv.
Qed.

Lemma scan_caches g k :
  simple g → es g ≠ ∅ →
  ∃ found, scan iter_edges ecc (caches_of g k) = Ok found
    ∧ NoDup found.1
    ∧ list_to_set found.1 = minimum_edges ecc (caches_of g k)
    ∧ found.1 ≠ [].
Proof.
  intros Hs Hne. unfold scan.
  destruct (scan_list_spec ecc (degree (caches_of g k)) (neighbors (caches_of g k))
              (score_of ecc (caches_of g k)) (iter_edges (es g)))
    as (e0 & He0 & Hleast & Hscan).
  { intros e He. rewrite iter_edges_enumerates, elem_of_elements in He.
    by apply coefficient_value. }
  { intros E. apply Hne, leibniz_equiv, elements_empty_inv, Permutation_nil_r.
    by rewrite <- (iter_edges_enumerates _), E. }
  cbn [edges caches_of] in *. rewrite Hscan. eexists; split; [done|]. cbn [fst].
  split_and!.
  - apply NoDup_filter. rewrite iter_edges_enumerates. apply NoDup_elements.
  - apply set_eq. intros e. unfold minimum_edges, least. cbn [edges caches_of].
    rewrite elem_of_list_to_set, list_elem_of_filter, elem_of_filter, Forall_forall.
    assert (Hiff : ∀ x, x ∈ iter_edges (es g) ↔ x ∈ es g).
    { intros x. by rewrite iter_edges_enumerates, elem_of_elements. }
    unfold set_Forall.
    split; intros [H1 H2]; (split; [intros x Hx; apply H1; by apply Hiff | by apply Hiff]).
  - intros E. assert (He : e0 ∈ filter (least (score_of ecc (caches_of g k))
                               (iter_edges (es g))) (iter_edges (es g))).
    { by apply list_elem_of_filter. }
    rewrite E in He. by apply elem_of_nil in He.
Qed.

Lemma minimum_edges_nonempty g k :
  simple g → es g ≠ ∅ → minimum_edges ecc (caches_of g k) ≠ ∅.
Proof.
  intros Hs Hne E. destruct (scan_caches g k Hs Hne) as (found & _ & _ & Hset & Hnil).
  rewrite E in Hset. destruct found.1 as [|e l]; [done|]. set_solver.
Qed.

Lemma remove_minimum_caches g g_v k σ :
  σ !! g = Some g_v → simple g_v → es g_v ≠ ∅ →
  remove_minimum iter_edges g ecc (caches_of g_v k) σ
  = (Ok (caches_of (without g_v (minimum_edges ecc (caches_of g_v k))) k),
     <[g := without g_v (minimum_edges ecc (caches_of g_v k))]> σ).
Proof.
  intros Hg Hs Hne. unfold remove_minimum.
  destruct (scan_caches g_v k Hs Hne) as (found & Hscan & Hnd & Hset & _).
  assert (Hin : ∀ e, e ∈ found.1 → e ∈ es g_v).
  { intros e He. apply (minimum_edges_subseteq ecc (caches_of g_v k)).
    rewrite <- Hset. by apply elem_of_list_to_set. }
  rewrite run_bind, run_lift, Hscan.
  rewrite (run_bind_ok _ _ _ _ _ (run_deref _ _ _ Hg)).
  rewrite run_bind, run_lift, delete_edges_simple by done.
  rewrite run_bind. unfold store at 1.
  by rewrite run_lift, discard_edges_caches, Hset.
Qed.
End Removal.

(** ** The objects that a computation updates *)

Lemma frame_refl X σ : frame X σ σ.
Proof. by split. Qed.

Lemma frame_trans X σ1 σ2 σ3 : frame X σ1 σ2 → frame X σ2 σ3 → frame X σ1 σ3.
Proof.
  intros [Hd1 H1] [Hd2 H2]. split; [set_solver|].
  intros l Hl HX. rewrite H2, H1; auto.
Qed.

Lemma modifies_mono {A} X Y (m : M A) : X ⊆ Y → modifies X m → modifies Y m.
Proof.
  intros HXY Hm σ. destruct (Hm σ) as [Hd H]. split; [done|].
  intros l Hl HY. apply H; [done | set_solver].
Qed.

Lemma modifies_ret {A} X (a : A) : modifies X (mret a).
Proof. intros σ. apply frame_refl. Qed.

Lemma modifies_lift {A} X (r : res A) : modifies X (lift r).
Proof. intros σ. apply frame_refl. Qed.

Lemma modifies_deref X l : modifies X (deref l).
Proof. intros σ. unfold deref. destruct (σ !! l); apply frame_refl. Qed.

Lemma modifies_store X l g : l ∈ X → modifies X (store l g).
Proof.
  intros Hl σ. cbn. split; [rewrite dom_insert_L; set_solver|].
  intros l' _ Hl'. apply lookup_insert_ne. by intros ->.
Qed.

Lemma modifies_bind {A B} X (m : M A) (f : A → M B) :
  modifies X m → (∀ a, modifies X (f a)) → modifies X (m ≫= f).
Proof.
  intros Hm Hf σ. rewrite run_bind. specialize (Hm σ).
  destruct (m σ) as [[a|e|] σ']; [|done|done].
  eapply frame_trans; [exact Hm | apply Hf].
Qed.

Lemma modifies_alloc_bind {B} X g (f : nat → M B) :
  (∀ s, modifies ({[s]} ∪ X) (f s)) → modifies X (alloc g ≫= f).
Proof.
  intros Hf σ. rewrite run_bind. unfold alloc. cbv zeta.
  destruct (Hf (fresh (dom σ)) (<[fresh (dom σ) := g]> σ)) as [Hd H].
  rewrite dom_insert_L in Hd. split; [set_solver|].
  intros l Hl HX.
  assert (l ≠ fresh (dom σ)) by (intros ->; by apply (is_fresh (dom σ))).
  rewrite H by (rewrite ?dom_insert_L; set_solver). by apply lookup_insert_ne.
Qed.

Lemma modifies_for_each_M {A B} X (body : B → A → M B) acc l :
  (∀ acc x, modifies X (body acc x)) → modifies X (for_each_M body acc l).
Proof.
  intros Hb. revert acc. induction l as [|x l IH]; intros acc; cbn.
  - apply modifies_ret.
  - apply modifies_bind; [apply Hb | apply IH].
Qed.

Ltac modifies_simple :=
  first [ apply modifies_ret | apply modifies_lift | apply modifies_deref ].

Ltac modifies_step :=
  first
    [ modifies_simple
    | apply modifies_bind; [modifies_simple | intros ?]
    | apply modifies_alloc_bind; intros ? ].

Section Frames.
Variable iter_edges : gset edge → list edge.
Variable iter_nodes : gset nat → list nat.

Lemma modifies_prune_components X orig new measure :
  modifies X (prune_components iter_nodes orig new measure).
Proof.
  unfold prune_components. repeat modifies_step.
  case_decide; apply modifies_ret.
Qed.

Lemma modifies_remove_minimum g ecc st :
  modifies {[g]} (remove_minimum iter_edges g ecc st).
Proof.
  unfold remove_minimum. do 3 modifies_step.
  apply modifies_bind; [apply modifies_store; set_solver | intros _; modifies_step].
Qed.

Section Rec.
Variable rec : nat → M (list (list nat)).
Hypothesis modifies_rec : ∀ s, modifies {[s]} (rec s).

Lemma modifies_assemble X g result : modifies X (assemble rec g result).
Proof.
  unfold assemble. do 3 modifies_step.
  apply modifies_bind; [|intros ?].
  { apply modifies_for_each_M. intros acc ic. do 3 modifies_step.
    apply modifies_bind; [|intros ?].
    - eapply modifies_mono; [|apply modifies_rec]. set_solver.
    - case_decide; repeat modifies_step. }
  do 4 modifies_step. apply modifies_bind; [|intros ?; apply modifies_ret].
  eapply modifies_mono; [|apply modifies_rec]. set_solver.
Qed.

Lemma modifies_split_check X G g measure st :
  modifies X (split_check iter_nodes rec G g measure st).
Proof.
  unfold split_check. modifies_step. case_decide; [|apply modifies_ret].
  apply modifies_bind; [apply modifies_prune_components|intros r].
  destruct (pruned r); [|apply modifies_ret].
  apply modifies_bind; [apply modifies_assemble | intros ?; apply modifies_ret].
Qed.

Lemma modifies_iteration G g measure ecc st :
  modifies {[g]} (iteration iter_edges iter_nodes rec G g measure ecc st).
Proof.
  unfold iteration. case_decide; [apply modifies_ret|].
  apply modifies_bind; [apply modifies_remove_minimum|intros ?].
  apply modifies_split_check.
Qed.

Lemma modifies_loop G g measure ecc fuel st :
  modifies {[g]} (loop iter_edges iter_nodes rec G g measure ecc fuel st).
Proof.
  revert st. induction fuel as [|fuel IH]; intros st; cbn [loop].
  - apply modifies_lift.
  - apply modifies_bind; [apply modifies_iteration|].
    intros [c|st']; [apply modifies_ret | apply IH].
Qed.
End Rec.

Lemma modifies_radicchi_internal fuel G g level measure clustering :
  modifies {[g]}
    (radicchi_internal iter_edges iter_nodes fuel G g level measure clustering).
Proof.
  revert g level clustering.
  induction fuel as [|fuel IH]; intros g level clustering; cbn [radicchi_internal].
  - apply modifies_lift.
  - apply modifies_bind; [apply modifies_deref|intros g_v].
    apply modifies_loop. intros s. apply IH.
Qed.

Lemma modifies_radicchi fuel G measure :
  modifies ∅ (radicchi iter_edges iter_nodes fuel G measure).
Proof.
  unfold radicchi. do 3 modifies_step.
  apply modifies_bind; [apply modifies_store; set_solver|intros _].
  apply modifies_bind; [|intros ?; repeat modifies_step].
  repeat case_decide; try apply modifies_lift;
    (eapply modifies_mono; [|apply modifies_radicchi_internal]); set_solver.
Qed.

Lemma radicchi_internal_preserves fuel G g level measure clustering σ l o :
  σ !! l = Some o → l ≠ g →
  (radicchi_internal iter_edges iter_nodes fuel G g level measure clustering σ).2 !! l
  = Some o.
Proof.
  intros Hl Hne.
  destruct (modifies_radicchi_internal fuel G g level measure clustering σ) as [_ H].
  rewrite H; [done | by apply elem_of_dom | set_solver].
Qed.

Lemma radicchi_preserves fuel G measure σ l o :
  σ !! l = Some o →
  (radicchi iter_edges iter_nodes fuel G measure σ).2 !! l = Some o.
Proof.
  intros Hl. destruct (modifies_radicchi fuel G measure σ) as [_ H].
  rewrite H; [done | by apply elem_of_dom | set_solver].
Qed.
End Frames.

(** ** Comprehensions *)

Lemma comprehension_Forall2 {A B} (f : A → res B) l r :
  comprehension f l = Ok r ↔ Forall2 (λ x y, f x = Ok y) l r.
Proof.
  revert r. induction l as [|x l IH]; intros r; cbn.
  - split; [intros [= <-]; constructor | by intros ->%Forall2_nil_inv_l].
  - split.
    + destruct (f x) as [y| |] eqn:Hx; cbn; [|done|done].
      destruct (comprehension f l) as [ys| |]; cbn; [|done|done].
      intros [= <-]. constructor; [done | by apply IH].
    + intros (y & ys & Hy & Hys & ->)%Forall2_cons_inv_l.
      rewrite Hy. cbn. apply IH in Hys. by rewrite Hys.
Qed.

Lemma comprehension_total {A B} (f : A → res B) l :
  (∀ x, x ∈ l → ∃ y, f x = Ok y) → ∃ r, comprehension f l = Ok r.
Proof.
  induction l as [|x l IH]; intros Hf; [by eexists|].
  destruct (Hf x) as [y Hy]; [by left|].
  destruct IH as [r Hr]; [intros; apply Hf; by right|].
  exists (y :: r). cbn. by rewrite Hy, Hr.
Qed.

Lemma comprehension_length {A B} (f : A → res B) l r :
  comprehension f l = Ok r → length r = length l.
Proof. intros H%comprehension_Forall2. symmetry. by eapply Forall2_length. Qed.

Lemma comprehension_if_Ok {A} (p : A → res bool) l r :
  comprehension_if p l = Ok r →
  r = filter (λ x, p x = Ok true) l ∧ ∀ x, x ∈ l → ∃ b, p x = Ok b.
Proof.
  revert r. induction l as [|x l IH]; intros r; cbn [comprehension_if].
  - intros [= <-]. split; [done|]. by intros ? ?%elem_of_nil.
  - destruct (p x) as [b| |] eqn:Hx; cbn [mbind res_bind]; [|done|done].
    destruct (comprehension_if p l) as [ys| |]; cbn [mbind res_bind]; [|done|done].
    intros [= <-]. destruct (IH ys eq_refl) as [-> Hall]. split.
    + rewrite filter_cons, Hx. destruct b; [by rewrite decide_True|by rewrite decide_False].
    + intros y [->|Hy]%elem_of_cons; eauto.
Qed.

Lemma comprehension_if_total {A} (p : A → res bool) l :
  (∀ x, x ∈ l → ∃ b, p x = Ok b) → ∃ r, comprehension_if p l = Ok r.
Proof.
  induction l as [|x l IH]; intros Hp; [by eexists|].
  destruct (Hp x) as [b Hb]; [by left|].
  destruct IH as [r Hr]; [intros; apply Hp; by right|].
  cbn. rewrite Hb, Hr. by eexists.
Qed.

Lemma elem_of_concat {A} (x : A) (ls : list (list A)) :
  x ∈ concat ls ↔ ∃ l, l ∈ ls ∧ x ∈ l.
Proof.
  induction ls as [|l ls IH]; cbn.
  - split; [by intros ?%elem_of_nil | by intros (l & ?%elem_of_nil & _)].
  - rewrite elem_of_app, IH. setoid_rewrite elem_of_cons. naive_solver.
Qed.

(** Selecting from [xs] the positions where [ys] passes a test. *)
Lemma select_positions {A B} (R : A → B → Prop) (P : A → Prop) (Q : B → Prop)
    `{!∀ x, Decision (P x)} `{!∀ y, Decision (Q y)} (pre xs : list A) (ys : list B) :
  Forall2 R xs ys → (∀ x y, R x y → P x ↔ Q y) →
  comprehension (index (pre ++ xs))
    ((filter (λ iy : nat * B, Q iy.2) (zip (seq (length pre) (length ys)) ys)).*1)
  = Ok (filter P xs).
Proof.
  intros HR HPQ. revert pre. induction HR as [|x y xs ys Hxy HR IH]; intros pre; [done|].
  cbn [length seq zip zip_with]. rewrite !filter_cons. cbn [snd].
  specialize (IH (pre ++ [x])). rewrite <- app_assoc, length_app in IH. cbn in IH.
  rewrite Nat.add_1_r in IH.
  destruct (decide (Q y)) as [HQ|HQ].
  - rewrite decide_True by (by eapply HPQ). cbn [fmap list_fmap fst comprehension].
    rewrite (index_ok _ (length pre) x) by (by rewrite list_lookup_middle).
    cbn [mbind res_bind]. by rewrite IH.
  - rewrite decide_False by (intros ?; apply HQ; by eapply HPQ). apply IH.
Qed.

Lemma enumerate_fst {A} (l : list A) i x : (i, x) ∈ enumerate l → l !! i = Some x.
Proof.
  unfold enumerate. intros (j & Hj)%list_elem_of_lookup_1.
  apply lookup_zip_with_Some in Hj as (i' & x' & [= <- <-] & Hi & Hx).
  apply lookup_seq in Hi as [-> _]. done.
Qed.

Lemma Forall2_filter_related {A B} (R : A → B → Prop) (P : A → Prop) (Q : B → Prop)
    `{!∀ x, Decision (P x)} `{!∀ y, Decision (Q y)} xs ys :
  Forall2 R xs ys → (∀ x y, R x y → P x ↔ Q y) →
  Forall2 R (filter P xs) (filter Q ys).
Proof.
  intros HR HPQ. induction HR as [|x y xs ys Hxy HR IH]; [constructor|].
  rewrite !filter_cons. destruct (decide (Q y)) as [HQ|HQ].
  - rewrite decide_True by (by eapply HPQ). by constructor.
  - by rewrite decide_False by (intros ?; apply HQ; by eapply HPQ).
Qed.

(** ** Inverting a run *)

Lemma run_bind_inv {A B} (m : M A) (f : A → M B) σ b σ' :
  (m ≫= f) σ = (Ok b, σ') →
  ∃ a σ1, m σ = (Ok a, σ1) ∧ f a σ1 = (Ok b, σ').
Proof.
  rewrite run_bind. destruct (m σ) as [[a|e|] σ1]; [eauto|done|done].
Qed.

Lemma run_lift_inv {A} (r : res A) σ a σ' :
  lift r σ = (Ok a, σ') → r = Ok a ∧ σ' = σ.
Proof. by intros [= -> ->]. Qed.

Lemma run_deref_inv l σ g σ' :
  deref l σ = (Ok g, σ') → σ !! l = Some g ∧ σ' = σ.
Proof. unfold deref. destruct (σ !! l); by intros [= -> ->]. Qed.

Lemma res_bind_inv {A B} (m : res A) (f : A → res B) b :
  m ≫= f = Ok b → ∃ a, m = Ok a ∧ f a = Ok b.
Proof. destruct m; cbn; [eauto|done|done]. Qed.

(** ** The result of [prune_components] *)

Section Pruning.
Variable iter_nodes : gset nat → list nat.

Lemma prune_components_run orig new measure σ orig_g new_g ocs :
  σ !! new = Some new_g → σ !! orig = Some orig_g →
  Forall2 (λ c oc, comprehension (index (vs_id new_g)) c = Ok oc) (components new_g) ocs →
  (∀ oc, oc ∈ ocs → ∃ b, community_test measure orig_g oc = Ok b) →
  ∃ r, prune_components iter_nodes orig new measure σ = (Ok r, σ)
    ∧ if decide (1 < length (confirmed measure orig_g new_g)) then
        pruned r = true
        ∧ new_communities r = Some (confirmed measure orig_g new_g)
        ∧ remaining r =
            Some (iter_nodes (list_to_set (seq 0 (vcount new_g))
                              ∖ list_to_set (concat (confirmed measure orig_g new_g))))
        ∧ ∃ ocs', orig_communities r = Some ocs'
            ∧ Forall2 (λ c oc, comprehension (index (vs_id new_g)) c = Ok oc)
                (confirmed measure orig_g new_g) ocs'
      else r = {| pruned := false; orig_communities := None;
                  new_communities := None; remaining := None |}.
Proof.
  intros Hnew Horig Hocs Htest. unfold prune_components.
  rewrite (run_bind_ok _ _ _ _ _ (run_deref _ _ _ Hnew)).
  rewrite (run_bind_ok _ _ _ _ _ (run_deref _ _ _ Horig)).
  cbv zeta. fold (community_test measure).
  pose proof Hocs as Hocs'. apply comprehension_Forall2 in Hocs'.
  rewrite run_bind, run_lift, Hocs'.
  destruct (comprehension_if_total
              (λ ic : nat * list nat, community_test measure orig_g ic.2)
              (enumerate ocs)) as [ics Hics].
  { intros [i oc] Hic. apply Htest. cbn.
    eapply list_elem_of_lookup_2, enumerate_fst, Hic. }
  rewrite run_bind, run_lift, Hics. cbn [mbind res_bind].
  apply comprehension_if_Ok in Hics as [-> _].
  assert (HPQ : ∀ c oc, comprehension (index (vs_id new_g)) c = Ok oc →
            satisfies measure orig_g new_g c ↔ community_test measure orig_g oc = Ok true).
  { intros c oc Hc. unfold satisfies. by rewrite Hc. }
  pose proof (select_positions (λ c oc, comprehension (index (vs_id new_g)) c = Ok oc)
                (satisfies measure orig_g new_g)
                (λ oc, community_test measure orig_g oc = Ok true)
                [] (components new_g) ocs Hocs HPQ) as Hnc.
  pose proof (select_positions (λ oc oc' : list nat, oc = oc')
                (λ oc, community_test measure orig_g oc = Ok true)
                (λ oc, community_test measure orig_g oc = Ok true)
                [] ocs ocs) as Hoc.
  cbn [app length] in Hnc, Hoc. unfold enumerate.
  rewrite run_bind, run_lift, Hoc; [|by apply Forall_Forall2_diag, Forall_true | by intros ?? ->].
  rewrite run_bind, run_lift, Hnc.
  fold (confirmed measure orig_g new_g).
  rewrite length_fmap.
  assert (Hlen : length (filter (λ iy : nat * list nat, community_test measure orig_g iy.2 = Ok true)
                   (zip (seq 0 (length ocs)) ocs))
                 = length (confirmed measure orig_g new_g)).
  { apply comprehension_length in Hnc. by rewrite length_fmap in Hnc. }
  rewrite Hlen. case_decide.
  - eexists. split; [done|]. cbn. split_and!; try done.
    eexists. split; [done|]. by apply Forall2_filter_related.
  - by eexists.
Qed.

Lemma prune_components_inv orig new measure σ r σ' :
  prune_components iter_nodes orig new measure σ = (Ok r, σ') →
  ∃ orig_g new_g ocs,
    σ !! new = Some new_g ∧ σ !! orig = Some orig_g
    ∧ Forall2 (λ c oc, comprehension (index (vs_id new_g)) c = Ok oc) (components new_g) ocs
    ∧ (∀ oc, oc ∈ ocs → ∃ b, community_test measure orig_g oc = Ok b).
Proof.
  unfold prune_components. intros H.
  apply run_bind_inv in H as (new_g & σ1 & [Hnew ->]%run_deref_inv & H).
  apply run_bind_inv in H as (orig_g & σ1 & [Horig ->]%run_deref_inv & H).
  cbv zeta in H. fold (community_test measure) in H.
  apply run_bind_inv in H as (ocs & σ1 & [Hocs ->]%run_lift_inv & H).
  apply run_bind_inv in H as (idx & σ1 & [Hidx ->]%run_lift_inv & H).
  apply res_bind_inv in Hidx as (ics & Hics & _).
  apply comprehension_if_Ok in Hics as [_ Hall].
  exists orig_g, new_g, ocs. split_and!; [done | done | by apply comprehension_Forall2 |].
  intros oc (i & Hi)%list_elem_of_lookup_1.
  apply (Hall (i, oc)). unfold enumerate.
  apply list_elem_of_lookup_2 with i. apply lookup_zip_with_Some.
  exists i, oc. split_and!; [done| |done].
  apply lookup_seq. split; [done|]. by eapply lookup_lt_Some.
Qed.
End Pruning.

(** ** Components and induced subgraphs *)

Lemma components_range g c : c ∈ components g → Forall (λ v, v < vcount g) c.
Proof.
  unfold components. intros (r & -> & _)%list_elem_of_fmap.
  apply Forall_forall. intros v [_ Hv]%list_elem_of_filter.
  by apply elem_of_seq in Hv as [_ Hv].
Qed.

Lemma components_NoDup g c : c ∈ components g → NoDup c.
Proof.
  unfold components. intros (r & -> & _)%list_elem_of_fmap.
  apply NoDup_filter, NoDup_seq.
Qed.

Lemma kept_elem_of g nodes v : v ∈ kept g nodes ↔ v ∈ nodes ∧ v < vcount g.
Proof. unfold kept. rewrite list_elem_of_filter, elem_of_seq. naive_solver lia. Qed.

Lemma kept_NoDup g nodes : NoDup (kept g nodes).
Proof. apply NoDup_filter, NoDup_seq. Qed.

Lemma kept_length g nodes :
  NoDup nodes → Forall (λ v, v < vcount g) nodes → length (kept g nodes) = length nodes.
Proof.
  intros Hnd Hr. apply Permutation_length, NoDup_Permutation; [apply kept_NoDup | done |].
  intros v. rewrite kept_elem_of. rewrite Forall_forall in Hr. naive_solver.
Qed.

Lemma new_index_lt keep u v :
  u ∈ keep → u < v → new_index keep u < new_index keep v.
Proof.
  unfold new_index. induction keep as [|w keep IH]; [by intros ?%elem_of_nil|].
  intros [->|Hu]%elem_of_cons Huv; rewrite !filter_cons.
  - rewrite decide_False, decide_True by lia. cbn.
    apply Nat.lt_succ_r. clear IH. induction keep as [|x keep IH]; [done|].
    rewrite !filter_cons. repeat case_decide; cbn; lia.
  - specialize (IH Hu Huv). repeat case_decide; cbn; lia.
Qed.

Lemma new_index_bound keep v : v ∈ keep → new_index keep v < length keep.
Proof.
  unfold new_index. induction keep as [|w keep IH]; [by intros ?%elem_of_nil|].
  intros [->|Hv]%elem_of_cons; rewrite filter_cons.
  - rewrite decide_False by lia. cbn. apply Nat.lt_succ_r, length_filter.
  - specialize (IH Hv). case_decide; cbn; lia.
Qed.

Lemma set_map_size_le (f : edge → edge) (X : gset edge) :
  size (set_map f X : gset edge) ≤ size X.
Proof.
  induction X as [|x X Hx IH] using set_ind_L.
  - by rewrite set_map_empty.
  - rewrite set_map_union_L, set_map_singleton_L.
    rewrite (size_union {[x]} X), size_singleton by set_solver.
    rewrite size_union_alt, size_singleton.
    assert (size (set_map f X ∖ {[f x]} : gset edge) ≤ size (set_map f X : gset edge));
      [apply subseteq_size; set_solver | lia].
Qed.

Lemma subgraph_working G_v g nodes :
  working G_v g → Forall (λ v, v < vcount g) nodes →
  ∃ s, subgraph g nodes = Ok s
    ∧ working G_v s
    ∧ size (es s) ≤ size (es g)
    ∧ (∀ i, i ∈ vs_id s → i ∈ vs_id g)
    ∧ Forall2 (λ v i, vs_id g !! v = Some i) (kept g nodes) (vs_id s).
Proof.
  intros [Hs Hl Hnd Hr] Hnodes. unfold subgraph. rewrite decide_True by done.
  eexists. split; [done|]. cbn [es vs_id vcount].
  assert (Hids : Forall2 (λ v i, vs_id g !! v = Some i) (kept g nodes)
                   (omap (λ v, vs_id g !! v) (kept g nodes))).
  { assert (Hk : Forall (λ v, v < vcount g) (kept g nodes)).
    { apply Forall_forall. by intros v [_ ?]%kept_elem_of. }
    induction Hk as [|v k Hv Hk IH]; [constructor|]. cbn.
    destruct (lookup_lt_is_Some_2 (vs_id g) v) as [i Hi]; [lia|].
    rewrite Hi. by constructor. }
  split_and!; [split| | |done]; cbn [es vs_id vcount].
  - intros e (e' & -> & [[H1 H2] He']%elem_of_filter)%elem_of_map.
    destruct (Hs _ He') as [Hlt Hv]. cbn. split.
    + apply new_index_lt; [|done]. apply kept_elem_of. split; [done|lia].
    + apply new_index_bound, kept_elem_of. by split.
  - symmetry. by eapply Forall2_length.
  - revert Hids. generalize (omap (λ v, vs_id g !! v) (kept g nodes)).
    intros ids Hids. apply NoDup_alt. intros i j x Hi Hj.
    destruct (Forall2_lookup_r _ _ _ _ _ Hids Hi) as (v & Hv & Hvx).
    destruct (Forall2_lookup_r _ _ _ _ _ Hids Hj) as (w & Hw & Hwx).
    assert (v = w) by (eapply NoDup_lookup; [exact Hnd|done..]). subst w.
    eapply NoDup_lookup; [apply (kept_NoDup g nodes)|done..].
  - apply Forall_forall. intros i (v & _ & Hv)%list_elem_of_omap.
    rewrite Forall_forall in Hr. eapply Hr, list_elem_of_lookup_2, Hv.
  - etrans; [apply set_map_size_le|]. apply subseteq_size. set_solver.
  - intros i (v & _ & Hv)%list_elem_of_omap. by eapply list_elem_of_lookup_2.
Qed.

Lemma tagged_copy_working G_v : simple G_v → working G_v (tagged_copy G_v).
Proof.
  intros Hs. split; cbn; [done | apply length_seq | apply NoDup_seq |].
  apply Forall_forall. by intros i [_ ?]%elem_of_seq.
Qed.

Lemma without_working G_v g X : working G_v g → working G_v (without g X).
Proof. intros [????]. split; cbn; [by apply without_simple | done..]. Qed.

Lemma lookup_ids G_v g (c : list nat) :
  working G_v g → NoDup c → Forall (λ v, v < vcount g) c →
  ∃ oc, comprehension (index (vs_id g)) c = Ok oc
    ∧ Forall2 (λ v i, vs_id g !! v = Some i) c oc
    ∧ NoDup oc
    ∧ Forall (λ i, i < vcount G_v) oc
    ∧ (∀ i, i ∈ oc → i ∈ vs_id g).
Proof.
  intros [Hs Hl Hnd Hr] Hc Hrange.
  destruct (comprehension_total (index (vs_id g)) c) as [oc Hoc].
  { intros v Hv. rewrite Forall_forall in Hrange.
    destruct (lookup_lt_is_Some_2 (vs_id g) v) as [i Hi]; [rewrite Hl; by apply Hrange|].
    exists i. by apply index_ok. }
  exists oc. split; [done|].
  apply comprehension_Forall2 in Hoc.
  assert (Hoc' : Forall2 (λ v i, vs_id g !! v = Some i) c oc).
  { eapply Forall2_impl; [exact Hoc|]. cbn. unfold index. intros v i.
    destruct (vs_id g !! v); by intros [= ->]. }
  split_and!; [done | | |].
  - apply NoDup_alt. intros i j x Hi Hj.
    destruct (Forall2_lookup_r _ _ _ _ _ Hoc' Hi) as (v & Hv & Hvx).
    destruct (Forall2_lookup_r _ _ _ _ _ Hoc' Hj) as (w & Hw & Hwx).
    assert (v = w) by (eapply NoDup_lookup; [exact Hnd|done..]). subst w.
    eapply NoDup_lookup; [exact Hc|done..].
  - apply Forall_forall. intros i (j & Hj)%list_elem_of_lookup_1.
    destruct (Forall2_lookup_r _ _ _ _ _ Hoc' Hj) as (v & Hv & Hvx).
    rewrite Forall_forall in Hr. eapply Hr, list_elem_of_lookup_2, Hvx.
  - intros i (j & Hj)%list_elem_of_lookup_1.
    destruct (Forall2_lookup_r _ _ _ _ _ Hoc' Hj) as (v & Hv & Hvx).
    by eapply list_elem_of_lookup_2.
Qed.

(** ** The community predicates return *)

Lemma degree_nodes_total G nodes :
  Forall (λ v, v < vcount G) nodes → degree_nodes G nodes = Ok (degree_of G <$> nodes).
Proof.
  unfold degree_nodes. induction 1 as [|v nodes Hv _ IH]; [done|].
  cbn. rewrite decide_True by done. cbn. by rewrite IH.
Qed.

Lemma community_test_total measure G nodes :
  NoDup nodes → Forall (λ v, v < vcount G) nodes →
  ∃ b, community_test measure G nodes = Ok b.
Proof.
  intros Hnd Hr. unfold community_test. case_decide.
  - unfold is_strong_community, subgraph. rewrite decide_True by done.
    cbn [mbind res_bind]. rewrite degree_nodes_total by done. cbn [mbind res_bind].
    unfold degree_all at 1. cbn [vcount]. rewrite kept_length by done.
    set (cd := _ <$> seq 0 (length nodes)).
    assert (Hcd : length cd = length nodes) by (unfold cd; by rewrite length_fmap, length_seq).
    assert (Hd : length (degree_of G <$> nodes) = length nodes) by apply length_fmap.
    revert Hcd Hd. generalize (degree_of G <$> nodes) cd. intros d cd' Hcd Hd.
    assert (Hall : Forall (λ i, i < length nodes) (seq 0 (length nodes))).
    { apply Forall_forall. by intros i [_ ?]%elem_of_seq. }
    revert Hall. generalize (seq 0 (length nodes)). intros l.
    induction 1 as [|i l Hi _ IH]; [by eexists|].
    destruct (lookup_lt_is_Some_2 cd' i) as [ci Hci]; [lia|].
    destruct (lookup_lt_is_Some_2 d i) as [di Hdi]; [lia|].
    rewrite (index_ok _ _ _ Hci). cbn [mbind res_bind].
    rewrite (index_ok _ _ _ Hdi). cbn [mbind res_bind].
    case_decide; [by eexists | apply IH].
  - unfold is_weak_community, subgraph. rewrite decide_True by done.
    cbn [mbind res_bind]. rewrite degree_nodes_total by done. by eexists.
Qed.

Section PruningWorking.
Variable iter_nodes : gset nat → list nat.

Lemma prune_components_working G g measure σ G_v g_v :
  σ !! G = Some G_v → σ !! g = Some g_v → working G_v g_v →
  ∃ r, prune_components iter_nodes G g measure σ = (Ok r, σ)
    ∧ if decide (1 < length (confirmed measure G_v g_v)) then
        pruned r = true
        ∧ new_communities r = Some (confirmed measure G_v g_v)
        ∧ remaining r =
            Some (iter_nodes (list_to_set (seq 0 (vcount g_v))
                              ∖ list_to_set (concat (confirmed measure G_v g_v))))
        ∧ ∃ ocs', orig_communities r = Some ocs'
            ∧ Forall2 (λ c oc, comprehension (index (vs_id g_v)) c = Ok oc)
                (confirmed measure G_v g_v) ocs'
      else r = {| pruned := false; orig_communities := None;
                  new_communities := None; remaining := None |}.
Proof.
  intros HG Hg Hw.
  destruct (comprehension_total (comprehension (index (vs_id g_v))) (components g_v))
    as [ocs Hocs].
  { intros c Hc.
    destruct (lookup_ids G_v g_v c Hw) as (oc & Hoc & _);
      [by eapply components_NoDup | by apply components_range | eauto]. }
  apply comprehension_Forall2 in Hocs.
  eapply prune_components_run; [done | done | exact Hocs |].
  intros oc (j & Hj)%list_elem_of_lookup_1.
  destruct (Forall2_lookup_r _ _ _ _ _ Hocs Hj) as (c & Hc & Hcoc).
  apply list_elem_of_lookup_2 in Hc.
  destruct (lookup_ids G_v g_v c Hw) as (oc' & Hoc' & _ & Hnd & Hr & _);
    [by eapply components_NoDup | by apply components_range |].
  assert (oc' = oc) by congruence. subst oc'.
  by apply community_test_total.
Qed.
End PruningWorking.

(** ** The labelling *)

Lemma assign_spec (n : nat) (cl : list nat) (i : nat) (l : list nat) :
  length cl = n → Forall (λ v, v < n) l →
  ∃ cl', assign cl (i, l) = Ok cl' ∧ length cl' = n
    ∧ ∀ v, v ∉ l → cl' !! v = cl !! v.
Proof.
  unfold assign. cbn [fst snd]. intros Hlen Hl. revert cl Hlen.
  induction Hl as [|w l Hw _ IH]; intros cl Hlen; [by exists cl|].
  cbn [for_each]. rewrite decide_True by lia. cbn [mbind res_bind].
  destruct (IH (<[w := i]> cl)) as (cl' & Hcl' & Hlen' & Hout);
    [by rewrite length_insert|].
  exists cl'. split_and!; [done..|].
  intros v Hv. rewrite Hout by set_solver. apply list_lookup_insert_ne. set_solver.
Qed.

Lemma label_from (n k : nat) (cl : list nat) (result : list (list nat)) :
  length cl = n → Forall (Forall (λ v, v < n)) result →
  ∃ cl', for_each assign cl (zip (seq k (length result)) result) = Ok cl'
    ∧ length cl' = n
    ∧ ∀ v, (∀ l, l ∈ result → v ∉ l) → cl' !! v = cl !! v.
Proof.
  intros Hlen Hres. revert k cl Hlen.
  induction Hres as [|l result Hl _ IH]; intros k cl Hlen; [by exists cl|].
  cbn [length seq zip zip_with for_each].
  destruct (assign_spec n cl k l Hlen Hl) as (cl1 & -> & Hlen1 & Hout).
  cbn [mbind res_bind].
  destruct (IH (S k) cl1 Hlen1) as (cl' & Hcl' & Hlen' & Hsame).
  exists cl'. split_and!; [done..|].
  intros v Hno. rewrite Hsame by (intros; apply Hno; by right).
  apply Hout, Hno. by left.
Qed.

Lemma label_spec (n : nat) (result : list (list nat)) :
  Forall (Forall (λ v, v < n)) result →
  ∃ cl, label n result = Ok cl ∧ length cl = n
    ∧ ∀ v, v < n → (∀ l, l ∈ result → v ∉ l) → cl !! v = Some 0.
Proof.
  intros Hres. unfold label, enumerate.
  destruct (label_from n 0 (replicate n 0) result) as (cl & Hcl & Hlen & Hsame);
    [apply length_replicate | done |].
  exists cl. split_and!; [done..|].
  intros v Hv Hno. rewrite Hsame by done. by apply lookup_replicate_2.
Qed.

(** ** Disjoint groups *)

Lemma components_nonempty g c : c ∈ components g → c ≠ [].
Proof.
  unfold components. intros (r & -> & [Hr Hin]%list_elem_of_filter)%list_elem_of_fmap E.
  assert (H : r ∈ filter (λ v, component_labels g !!! v = r) (seq 0 (vcount g))).
  { by apply list_elem_of_filter. }
  rewrite E in H. by apply elem_of_nil in H.
Qed.

Lemma classes_NoDup (lbl : list nat) (vs rs : list nat) :
  NoDup vs → NoDup rs →
  NoDup (concat ((λ r, filter (λ v, lbl !!! v = r) vs) <$> rs)).
Proof.
  intros Hvs Hrs. induction Hrs as [|r rs Hr Hrs IH]; [constructor|].
  cbn. apply NoDup_app. split_and!; [by apply NoDup_filter| |done].
  intros v [Hv _]%list_elem_of_filter (l & Hl & Hvl)%elem_of_concat.
  apply list_elem_of_fmap in Hl as (r' & -> & Hr').
  apply list_elem_of_filter in Hvl as [Hv' _]. congruence.
Qed.

Lemma components_concat_NoDup g : NoDup (concat (components g)).
Proof. unfold components. apply classes_NoDup; [apply NoDup_seq|apply NoDup_filter, NoDup_seq]. Qed.

Lemma concat_filter_NoDup {A} (P : list A → Prop) `{!∀ l, Decision (P l)} (ls : list (list A)) :
  NoDup (concat ls) → NoDup (concat (filter P ls)).
Proof.
  induction ls as [|l ls IH]; [done|]. rewrite filter_cons. cbn [concat].
  intros [Hl [Hd Hls]]%NoDup_app. case_decide; [|by apply IH]. cbn [concat].
  apply NoDup_app. split_and!; [done| |by apply IH].
  intros x Hx (l' & Hl' & Hxl')%elem_of_concat. apply (Hd x Hx).
  apply elem_of_concat. exists l'. split; [|done].
  by apply list_elem_of_filter in Hl' as [_ ?].
Qed.

Lemma NoDup_replace_middle {A} (a b b' c : list A) :
  NoDup (a ++ b ++ c) → NoDup b' → (∀ x, x ∈ b' → x ∈ b) → NoDup (a ++ b' ++ c).
Proof.
  intros (Ha & Hd & (Hb & Hd' & Hc)%NoDup_app)%NoDup_app Hb' Hsub.
  apply NoDup_app. split_and!; [done| |].
  - intros x Hx [Hin|Hin]%elem_of_app; apply (Hd x Hx); set_solver.
  - apply NoDup_app. split_and!; [done| |done]. intros x Hx. apply Hd'. by apply Hsub.
Qed.

(** The ['id'] of a list of working vertices. *)
Lemma image_NoDup (ids vs js : list nat) :
  NoDup ids → NoDup vs → Forall2 (λ v i, ids !! v = Some i) vs js → NoDup js.
Proof.
  intros Hids Hvs H. apply NoDup_alt. intros i j x Hi Hj.
  destruct (Forall2_lookup_r _ _ _ _ _ H Hi) as (v & Hv & Hvx).
  destruct (Forall2_lookup_r _ _ _ _ _ H Hj) as (w & Hw & Hwx).
  assert (v = w) by (eapply NoDup_lookup; [exact Hids|done..]). subst w.
  eapply NoDup_lookup; [exact Hvs|done..].
Qed.

Lemma Forall2_concat_image {A B} (R : A → B → Prop) (xss : list (list A)) (yss : list (list B)) :
  Forall2 (Forall2 R) xss yss → Forall2 R (concat xss) (concat yss).
Proof. induction 1; cbn; [constructor|by apply Forall2_app]. Qed.

Lemma comprehension_index_image (ids c oc : list nat) :
  comprehension (index ids) c = Ok oc → Forall2 (λ v i, ids !! v = Some i) c oc.
Proof.
  intros H%comprehension_Forall2. eapply Forall2_impl; [exact H|]. cbn.
  unfold index. intros v i. destruct (ids !! v); by intros [= ->].
Qed.

(** ** The loop on a working graph *)

Lemma enumerates_elements {A} `{Countable A} : enumerates (elements : gset A → list A).
Proof. by intros X. Qed.

Lemma holds_fresh σ G G_v g g_v s_v :
  holds σ G G_v g g_v →
  holds (<[fresh (dom σ) := s_v]> σ) G G_v (fresh (dom σ)) s_v
  ∧ holds (<[fresh (dom σ) := s_v]> σ) G G_v g g_v.
Proof.
  intros (HG & Hg & Hne).
  assert (fresh (dom σ) ≠ G).
  { intros E. apply (is_fresh (dom σ)). rewrite E. by apply elem_of_dom. }
  assert (fresh (dom σ) ≠ g).
  { intros E. apply (is_fresh (dom σ)). rewrite E. by apply elem_of_dom. }
  repeat split; try done; by rewrite ?lookup_insert_eq, ?lookup_insert_ne.
Qed.

Lemma holds_frame σ σ' G G_v g g_v s :
  holds σ G G_v g g_v → frame {[s]} σ σ' → s ≠ G → s ≠ g → holds σ' G G_v g g_v.
Proof.
  intros (HG & Hg & Hne) [_ Hf] ??.
  repeat split; [| |done]; rewrite Hf; try done; try (by apply elem_of_dom); set_solver.
Qed.

Lemma lookup_ids_range (ids : list nat) (c : list nat) :
  Forall (λ v, v < length ids) c →
  ∃ oc, comprehension (index ids) c = Ok oc ∧ ∀ i, i ∈ oc → i ∈ ids.
Proof.
  induction 1 as [|v c Hv _ (oc & Hoc & Hin)]; [exists []; split; [done|set_solver]|].
  destruct (lookup_lt_is_Some_2 ids v Hv) as [i Hi].
  exists (i :: oc). cbn. rewrite (index_ok _ _ _ Hi), Hoc. split; [done|].
  intros j [->|Hj]%elem_of_cons; [by eapply list_elem_of_lookup_2 | by apply Hin].
Qed.

Lemma groups_ok_nil ids : groups_ok ids [].
Proof. split_and!; [constructor | constructor | constructor | by left]. Qed.

Lemma concat_singletons {A} (l : list A) : concat ((λ i, [i]) <$> l) = l.
Proof. induction l as [|x l IH]; [done|]. cbn. by rewrite IH. Qed.

Lemma omap_enumerate {A B} (pre ys : list B) (xs : list A) :
  length ys = length xs →
  omap (λ ix : nat * A, (pre ++ ys) !! ix.1) (zip (seq (length pre) (length xs)) xs) = ys.
Proof.
  revert pre ys. induction xs as [|x xs IH]; intros pre [|y ys] Hlen; try done.
  cbn [length seq zip zip_with omap list_omap fst].
  rewrite list_lookup_middle by done. f_equal.
  specialize (IH (pre ++ [y]) ys). rewrite <- app_assoc, length_app in IH. cbn in IH.
  rewrite Nat.add_1_r in IH. apply IH. by injection Hlen.
Qed.

Section Recursion.
Variable iter_nodes : gset nat → list nat.
Hypothesis iter_nodes_enumerates : enumerates iter_nodes.

Variable G : nat.
Variable G_v : graph.
Variable bound : nat.
Variable rec : (gset edge → list edge) → nat → M (list (list nat)).
Hypothesis rec_ok : recursion_ok G G_v bound rec.

(** A recursive call on a new induced subgraph. *)
Lemma recursive_call σ g g_v nodes :
  holds σ G G_v g g_v → working G_v g_v → size (es g_v) < bound →
  Forall (λ v, v < vcount g_v) nodes →
  ∃ s_v result σ',
    subgraph g_v nodes = Ok s_v
    ∧ returns (λ iter_edges, rec iter_edges (fresh (dom σ)))
        (<[fresh (dom σ) := s_v]> σ) result σ'
    ∧ holds σ' G G_v g g_v
    ∧ groups_ok (vs_id s_v) result
    ∧ Forall2 (λ v i, vs_id g_v !! v = Some i) (kept g_v nodes) (vs_id s_v).
Proof.
  intros Hh Hw Hsize Hnodes. destruct rec_ok as [Hmod Hrec].
  destruct (subgraph_working G_v g_v nodes Hw Hnodes)
    as (s_v & Hs & Hws & Hle & Hids & Himg).
  destruct (holds_fresh σ G G_v g g_v s_v Hh) as [Hhs Hhg].
  destruct (Hrec _ _ _ Hhs Hws) as (result & σ' & Hret & Hres); [lia|].
  exists s_v, result, σ'. split_and!; [done..| |done|done].
  pose proof (Hmod elements (fresh (dom σ)) (<[fresh (dom σ) := s_v]> σ)) as Hf.
  rewrite (Hret _ enumerates_elements) in Hf. cbn in Hf.
  destruct Hh as (HG & Hg & Hne).
  eapply holds_frame; [exact Hhg | exact Hf | |];
    intros E; apply (is_fresh (dom σ)); rewrite E; by apply elem_of_dom.
Qed.

Lemma assemble_confirmed g g_v (ocs : list (list nat)) (tail : list nat)
    (ics : list (nat * list nat)) :
  working G_v g_v → size (es g_v) < bound →
  Forall (λ ic, Forall (λ v, v < vcount g_v) ic.2 ∧ ic.2 ≠ []
                ∧ ∃ oc, ocs !! ic.1 = Some oc
                        ∧ Forall2 (λ v i, vs_id g_v !! v = Some i) ic.2 oc) ics →
  ∀ σ acc,
    holds σ G G_v g g_v →
    Forall (Forall (λ i, i ∈ vs_id g_v)) acc → Forall (λ l, l ≠ []) acc →
    NoDup (concat acc ++ concat (omap (λ ic : nat * list nat, ocs !! ic.1) ics) ++ tail) →
    ∃ communities σ',
      returns (λ iter_edges,
        for_each_M (λ communities (ic : nat * list nat),
          g_v ← deref g;
          s_v ← lift (subgraph g_v ic.2);
          s ← alloc s_v;
          subcommunities ← rec iter_edges s;
          if decide (length subcommunities = 0) then
            oc ← lift (index ocs ic.1);
            mret (communities ++ [oc])
          else mret (communities ++ subcommunities)) acc ics)
        σ communities σ'
      ∧ holds σ' G G_v g g_v
      ∧ Forall (Forall (λ i, i ∈ vs_id g_v)) communities
      ∧ Forall (λ l, l ≠ []) communities
      ∧ NoDup (concat communities ++ tail)
      ∧ length acc + length ics ≤ length communities.
Proof.
  intros Hw Hsize Hics.
  induction Hics as [|[i c] ics (Hc & Hcne & oc & Hoc & Himg) _ IH];
    intros σ acc Hh Hacc Hne Hnd.
  { exists acc, σ. split_and!; [|done..|cbn; lia]. by intros ie Hie. }
  cbn [fst snd] in Hc, Hcne, Hoc, Himg.
  cbn [omap list_omap fst] in Hnd. rewrite Hoc in Hnd. cbn [concat] in Hnd.
  rewrite <- (app_assoc oc) in Hnd.
  destruct (recursive_call σ g g_v c Hh Hw Hsize Hc)
    as (s_v & subs & σ1 & Hs & Hret & Hh1 & (Hsin & Hsnd & Hsne & _) & Hsimg).
  assert (Hsub : ∀ x, x ∈ vs_id s_v → x ∈ oc).
  { intros x (j & Hj)%list_elem_of_lookup_1.
    destruct (Forall2_lookup_r _ _ _ _ _ Hsimg Hj) as (v & Hv & Hvx).
    apply list_elem_of_lookup_2, kept_elem_of in Hv as [(j' & Hj')%list_elem_of_lookup_1 _].
    destruct (Forall2_lookup_l _ _ _ _ _ Himg Hj') as (x' & Hx' & Hvx').
    assert (x' = x) as -> by congruence. by eapply list_elem_of_lookup_2. }
  assert (Hocin : Forall (λ i, i ∈ vs_id g_v) oc).
  { apply Forall_forall. intros x (j & Hj)%list_elem_of_lookup_1.
    destruct (Forall2_lookup_r _ _ _ _ _ Himg Hj) as (v & _ & Hvx).
    by eapply list_elem_of_lookup_2. }
  assert (Hocne : oc ≠ []).
  { intros ->. apply Forall2_nil_inv_r in Himg. done. }
  set (acc' := if decide (length subs = 0) then acc ++ [oc] else acc ++ subs).
  destruct (IH σ1 acc' Hh1) as (communities & σ' & Hret' & Hh' & Hcomm & Hcne' & Hcnd & Hlen).
  { unfold acc'. case_decide; apply Forall_app; split; try done.
    - by apply Forall_singleton.
    - eapply Forall_impl; [exact Hsin|]. cbn. intros l Hl.
      rewrite Forall_forall in Hl |- *. intros x Hx.
      rewrite Forall_forall in Hocin. by apply Hocin, Hsub, Hl. }
  { unfold acc'. case_decide; apply Forall_app; split; try done.
    by apply Forall_singleton. }
  { unfold acc'. case_decide; rewrite concat_app.
    - cbn [concat]. by rewrite app_nil_r, <- app_assoc.
    - rewrite <- app_assoc. eapply NoDup_replace_middle; [exact Hnd | done |].
      intros x (l & Hl & Hx)%elem_of_concat. apply Hsub.
      rewrite Forall_forall in Hsin. specialize (Hsin l Hl).
      rewrite Forall_forall in Hsin. by apply Hsin. }
  exists communities, σ'. split_and!; [|done..|].
  - intros ie Hie. cbn [for_each_M]. rewrite run_bind.
    destruct Hh as (HG & Hg & Hne').
    rewrite run_bind, (run_deref _ _ _ Hg).
    rewrite run_bind, run_lift. cbn [snd]. rewrite Hs.
    rewrite run_bind. unfold alloc at 1. cbv zeta.
    rewrite run_bind, (Hret ie Hie).
    unfold acc' in Hret'. case_decide.
    + cbn [fst]. rewrite run_bind, run_lift, (index_ok _ _ _ Hoc), run_ret.
      by apply Hret'.
    + rewrite run_ret. by apply Hret'.
  - assert (length acc + 1 ≤ length acc'); [|cbn [length]; lia].
    unfold acc'. case_decide; rewrite length_app; cbn; lia.
Qed.

Lemma assemble_ok σ g g_v r ocs ncs rem :
  holds σ G G_v g g_v → working G_v g_v → size (es g_v) < bound →
  orig_communities r = Some ocs → new_communities r = Some ncs →
  remaining r = Some rem →
  Forall2 (Forall2 (λ v i, vs_id g_v !! v = Some i)) ncs ocs →
  Forall (Forall (λ v, v < vcount g_v)) ncs →
  Forall (λ c, c ≠ []) ncs →
  Forall (λ v, v < vcount g_v) rem →
  NoDup (concat ncs ++ rem) → 2 ≤ length ncs →
  ∃ result σ',
    returns (λ iter_edges, assemble (rec iter_edges) g r) σ result σ'
    ∧ groups_ok (vs_id g_v) result.
Proof.
  intros Hh Hw Hsize Hocs Hncs Hrem Himg Hnr Hnne Hrr Hnd H2.
  destruct (lookup_ids_range (vs_id g_v) rem) as (orig_remaining & Hor' & Hin).
  { by rewrite (working_ids_length _ _ Hw). }
  assert (Hnd' : NoDup (concat ocs ++ orig_remaining)).
  { apply (image_NoDup (vs_id g_v) (concat ncs ++ rem));
      [by apply (working_ids_NoDup G_v) | done |].
    apply Forall2_app; [by apply Forall2_concat_image|].
    by apply comprehension_index_image. }
  destruct (assemble_confirmed g g_v ocs orig_remaining (enumerate ncs) Hw Hsize)
    with (σ := σ) (acc := @nil (list nat))
    as (communities & σ1 & Hret1 & Hh1 & Hcomm & Hcne & Hcnd & Hlen);
    [|done|constructor|constructor| |].
  { apply Forall_forall. intros [i c] Hic. apply enumerate_fst in Hic. cbn [fst snd].
    destruct (Forall2_lookup_l _ _ _ _ _ Himg Hic) as (oc & Hoc & Hrel).
    apply list_elem_of_lookup_2 in Hic.
    rewrite Forall_forall in Hnr, Hnne. split_and!; [by apply Hnr | by apply Hnne | eauto]. }
  { cbn [concat app]. unfold enumerate.
    pose proof (omap_enumerate [] ocs ncs) as E. cbn [app length] in E.
    rewrite E; [done|]. symmetry. by eapply Forall2_length. }
  destruct (recursive_call σ1 g g_v rem Hh1 Hw Hsize Hrr)
    as (r_v & subs & σ' & Hr & Hret & _ & _).
  eexists _, σ'. split.
  - intros ie Hie. unfold assemble. rewrite Hocs, Hncs, Hrem. cbn [sequence].
    do 3 rewrite run_bind, run_lift.
    rewrite run_bind, (Hret1 ie Hie).
    destruct Hh1 as (HG & Hg & Hne).
    rewrite run_bind, (run_deref _ _ _ Hg).
    rewrite run_bind, run_lift, Hor'.
    rewrite run_bind, run_lift, Hr.
    rewrite run_bind. unfold alloc at 1. cbv zeta.
    rewrite run_bind, (Hret ie Hie). by rewrite run_ret.
  - split_and!.
    + apply Forall_app. split; [done|].
      apply Forall_fmap, Forall_forall. intros i [_ Hi]%list_elem_of_filter.
      apply Forall_singleton. by apply Hin.
    + rewrite concat_app, concat_singletons.
      apply NoDup_app in Hcnd as (Hc1 & Hd & Hc2).
      apply NoDup_app. split_and!; [done| |by apply NoDup_filter].
      intros x Hx [_ Hx']%list_elem_of_filter. by apply (Hd x).
    + apply Forall_app. split; [done|]. apply Forall_fmap, Forall_forall. done.
    + right. rewrite length_app. unfold enumerate in Hlen.
      rewrite length_zip_with, length_seq in Hlen. cbn in Hlen. lia.
Qed.

Lemma comprehension_ids_elem_of (ids c oc : list nat) :
  comprehension (index ids) c = Ok oc → Forall (λ i, i ∈ ids) oc.
Proof.
  intros H%comprehension_Forall2. apply Forall_forall.
  intros i (j & Hj)%list_elem_of_lookup_1.
  destruct (Forall2_lookup_r _ _ _ _ _ H Hj) as (v & _ & Hv).
  unfold index in Hv. destruct (ids !! v) eqn:E; [|done].
  injection Hv as ->. by eapply list_elem_of_lookup_2.
Qed.

Lemma split_check_ok σ g g_v k measure :
  holds σ G G_v g g_v → working G_v g_v → size (es g_v) < bound →
  ∃ o σ',
    returns (λ iter_edges,
      split_check iter_nodes (rec iter_edges) G g measure (caches_of g_v k)) σ o σ'
    ∧ match o with
      | Break communities => groups_ok (vs_id g_v) communities
      | Continue st' => σ' = σ ∧ ∃ k', st' = caches_of g_v k'
      end.
Proof.
  intros Hh Hw Hsize. pose proof Hh as (HG & Hg & Hne).
  destruct (decide (k < length (components g_v))) as [Hk|Hk]; last first.
  { exists (Continue (caches_of g_v k)), σ. split; [|eauto].
    intros ie Hie. unfold split_check. rewrite run_bind, (run_deref _ _ _ Hg).
    cbn [n_components caches_of]. by rewrite decide_False. }
  destruct (prune_components_working iter_nodes G g measure σ G_v g_v HG Hg Hw)
    as (r & Hr & Hchar).
  destruct (decide (1 < length (confirmed measure G_v g_v))) as [Hc|Hc].
  - destruct Hchar as (Hp & Hncs & Hrem & ocs & Hocs & Hrel).
    destruct (assemble_ok σ g g_v r ocs _ _ Hh Hw Hsize Hocs Hncs Hrem)
      as (result & σ' & Hret & Hres).
    + eapply Forall2_impl; [exact Hrel|]. cbn. intros c oc.
      apply comprehension_index_image.
    + apply Forall_forall. intros c [_ Hc']%list_elem_of_filter.
      by apply components_range.
    + apply Forall_forall. intros c [_ Hc']%list_elem_of_filter.
      by eapply components_nonempty.
    + apply Forall_forall. intros v Hv.
      rewrite iter_nodes_enumerates, elem_of_elements in Hv.
      apply elem_of_difference in Hv as [Hv _].
      by apply elem_of_list_to_set, elem_of_seq in Hv as [_ Hv].
    + apply NoDup_app. split_and!.
      * apply concat_filter_NoDup, components_concat_NoDup.
      * intros x Hx Hx'. rewrite iter_nodes_enumerates, elem_of_elements in Hx'.
        apply elem_of_difference in Hx' as [_ Hx']. apply Hx'.
        by apply elem_of_list_to_set.
      * rewrite iter_nodes_enumerates. apply NoDup_elements.
    + lia.
    + exists (Break result), σ'. split; [|done].
      intros ie Hie. unfold split_check. rewrite run_bind, (run_deref _ _ _ Hg).
      cbn [n_components caches_of]. rewrite decide_True by done.
      rewrite run_bind, Hr, Hp. by rewrite run_bind, (Hret ie Hie).
  - subst r. exists (Continue (caches_of g_v (length (components g_v)))), σ.
    split; [|eauto].
    intros ie Hie. unfold split_check. rewrite run_bind, (run_deref _ _ _ Hg).
    cbn [n_components caches_of]. rewrite decide_True by done.
    by rewrite run_bind, Hr.
Qed.

Variable ecc : scorer.
Hypothesis ecc_coefficient : coefficient iter_nodes ecc.

Lemma iteration_ok σ g g_v k measure :
  holds σ G G_v g g_v → working G_v g_v → size (es g_v) ≤ bound →
  ∃ o σ',
    returns (λ iter_edges,
      iteration iter_edges iter_nodes (rec iter_edges) G g measure ecc
        (caches_of g_v k)) σ o σ'
    ∧ match o with
      | Break communities => groups_ok (vs_id g_v) communities
      | Continue st' =>
          ∃ g_v' k', st' = caches_of g_v' k' ∧ holds σ' G G_v g g_v'
            ∧ working G_v g_v' ∧ size (es g_v') < size (es g_v)
            ∧ vs_id g_v' = vs_id g_v
      end.
Proof.
  intros Hh Hw Hsize. pose proof Hh as (HG & Hg & Hne).
  destruct (decide (size (es g_v) = 0)) as [Hz|Hz].
  { exists (Break []), σ. split; [|apply groups_ok_nil].
    intros ie Hie. unfold iteration. cbn [edges caches_of]. by rewrite decide_True. }
  assert (Hnonempty : es g_v ≠ ∅) by (intros E; by rewrite E, size_empty in Hz).
  set (g_v' := without g_v (minimum_edges ecc (caches_of g_v k))).
  assert (Hlt : size (es g_v') < size (es g_v)).
  { unfold g_v'. cbn [es without].
    pose proof (minimum_edges_subseteq ecc (caches_of g_v k)) as Hsub.
    cbn [edges caches_of] in Hsub. rewrite size_difference by done.
    assert (size (minimum_edges ecc (caches_of g_v k)) ≠ 0); [|lia].
    apply size_non_empty_iff. intros E%leibniz_equiv. revert E.
    apply (minimum_edges_nonempty elements iter_nodes enumerates_elements
             iter_nodes_enumerates ecc ecc_coefficient); [|done].
    by apply working_simple with G_v. }
  assert (Hw' : working G_v g_v') by by apply without_working.
  assert (Hh' : holds (<[g := g_v']> σ) G G_v g g_v').
  { repeat split; [by rewrite lookup_insert_ne | by rewrite lookup_insert_eq | done]. }
  destruct (split_check_ok (<[g := g_v']> σ) g g_v' k measure Hh' Hw') as (o & σ' & Hret & Ho);
    [lia|].
  exists o, σ'. split.
  - intros ie Hie. unfold iteration. cbn [edges caches_of]. rewrite decide_False by done.
    rewrite run_bind, (remove_minimum_caches ie iter_nodes Hie iter_nodes_enumerates
                         ecc ecc_coefficient g g_v k σ Hg) by
      (done || by apply working_simple with G_v).
    by apply Hret.
  - destruct o as [c|st']; [exact Ho|]. destruct Ho as (-> & k' & ->).
    exists g_v', k'. split_and!; done.
Qed.

Lemma loop_ok fuel σ g g_v k measure :
  holds σ G G_v g g_v → working G_v g_v →
  size (es g_v) < fuel → size (es g_v) ≤ bound →
  ∃ result σ',
    returns (λ iter_edges,
      loop iter_edges iter_nodes (rec iter_edges) G g measure ecc fuel
        (caches_of g_v k)) σ result σ'
    ∧ groups_ok (vs_id g_v) result.
Proof.
  revert σ g_v k. induction fuel as [|fuel IH]; intros σ g_v k Hh Hw Hfuel Hsize; [lia|].
  destruct (iteration_ok σ g g_v k measure Hh Hw Hsize) as (o & σ1 & Hret & Ho).
  destruct o as [c|st'].
  - exists c, σ1. split; [|done]. intros ie Hie. cbn [loop].
    by rewrite run_bind, (Hret ie Hie).
  - destruct Ho as (g_v' & k' & -> & Hh' & Hw' & Hlt & Hids).
    destruct (IH σ1 g_v' k' Hh' Hw') as (result & σ' & Hret' & Hres); [lia..|].
    exists result, σ'. split; [|by rewrite <- Hids].
    intros ie Hie. cbn [loop]. rewrite run_bind, (Hret ie Hie). by apply Hret'.
Qed.
End Recursion.

(** ** The whole algorithm on a simple graph *)

Section Whole.
Variable iter_nodes : gset nat → list nat.
Hypothesis iter_nodes_enumerates : enumerates iter_nodes.

Lemma radicchi_internal_ok fuel G G_v :
  ∀ g g_v level measure clustering σ,
    holds σ G G_v g g_v → working G_v g_v → size (es g_v) + 2 ≤ fuel →
    ∃ result σ',
      returns (λ iter_edges,
        radicchi_internal iter_edges iter_nodes fuel G g level measure clustering)
        σ result σ'
      ∧ groups_ok (vs_id g_v) result.
Proof.
  induction fuel as [|fuel IH]; intros g g_v level measure clustering σ Hh Hw Hfuel; [lia|].
  set (rec := λ (iter_edges : gset edge → list edge) (s : nat),
         radicchi_internal iter_edges iter_nodes fuel G s (level + 1) measure
           default_clustering).
  assert (Hrec : recursion_ok G G_v (fuel - 1) rec).
  { split; [intros ie s; apply modifies_radicchi_internal|].
    intros s s_v σ1 Hh1 Hw1 Hs1. apply IH; [done..|lia]. }
  set (ecc := if decide (clustering = 3%Z) then edge_clustering_coefficient_3
              else edge_clustering_coefficient_4 iter_nodes).
  assert (Hecc : coefficient iter_nodes ecc).
  { unfold ecc, coefficient. case_decide; auto. }
  destruct (loop_ok iter_nodes iter_nodes_enumerates G G_v (fuel - 1) rec Hrec ecc Hecc
              fuel σ g g_v (length (components g_v)) measure Hh Hw)
    as (result & σ' & Hret & Hres); [lia..|].
  exists result, σ'. split; [|done].
  intros ie Hie. cbn [radicchi_internal]. destruct Hh as (HG & Hg & Hne).
  rewrite run_bind, (run_deref _ _ _ Hg). by apply Hret.
Qed.

Lemma radicchi_ok fuel G G_v measure σ :
  σ !! G = Some G_v → simple G_v → size (es G_v) + 2 ≤ fuel →
  measure = "weak" ∨ measure = "strong" →
  ∃ result σ' cl,
    returns (λ iter_edges,
      radicchi_internal iter_edges iter_nodes fuel G (fresh (dom σ)) 0 measure
        (if decide (measure = "weak") then 4 else 3)%Z)
      (<[fresh (dom σ) := tagged_copy G_v]> σ) result σ'
    ∧ returns (λ iter_edges, radicchi iter_edges iter_nodes fuel G measure) σ cl σ'
    ∧ label (vcount G_v) result = Ok cl
    ∧ Forall (Forall (λ v, v < vcount G_v)) result.
Proof.
  intros HG Hs Hfuel Hm.
  assert (Hfresh : fresh (dom σ) ≠ G).
  { intros E. apply (is_fresh (dom σ)). rewrite E. by apply elem_of_dom. }
  assert (Hh : holds (<[fresh (dom σ) := tagged_copy G_v]> σ) G G_v
                 (fresh (dom σ)) (tagged_copy G_v)).
  { repeat split; [by rewrite lookup_insert_ne | by rewrite lookup_insert_eq | done]. }
  destruct (radicchi_internal_ok fuel G G_v (fresh (dom σ)) (tagged_copy G_v) 0 measure
              (if decide (measure = "weak") then 4 else 3)%Z _ Hh)
    as (result & σ' & Hret & Hres & _); [by apply tagged_copy_working | done |].
  assert (Hrange : Forall (Forall (λ v, v < vcount G_v)) result).
  { eapply Forall_impl; [exact Hres|]. cbn. intros l Hl.
    eapply Forall_impl; [exact Hl|]. cbn. by intros v [_ ?]%elem_of_seq. }
  destruct (label_spec (vcount G_v) result Hrange) as (cl & Hcl & _).
  exists result, σ', cl. split_and!; [done| |done..].
  intros ie Hie. rewrite (radicchi_unfold ie iter_nodes fuel G measure σ G_v HG). cbv zeta.
  assert (HG' : σ' !! G = Some G_v).
  { destruct Hh as (HG1 & _).
    pose proof (radicchi_internal_preserves ie iter_nodes fuel G (fresh (dom σ)) 0 measure
                  (if decide (measure = "weak") then 4 else 3)%Z _ G G_v HG1) as Hp.
    rewrite (Hret ie Hie) in Hp. by apply Hp. }
  rewrite run_bind. specialize (Hret ie Hie).
  destruct Hm as [-> | ->].
  - rewrite decide_True in Hret by done. rewrite decide_True by done. rewrite Hret.
    by rewrite run_bind, (run_deref _ _ _ HG'), run_lift, Hcl.
  - rewrite decide_False in Hret by done. rewrite decide_False by done.
    rewrite decide_True by done. rewrite Hret.
    by rewrite run_bind, (run_deref _ _ _ HG'), run_lift, Hcl.
Qed.
End Whole.

(** ** A computed score is never zero *)

Lemma ratio_truth n m : (0 ≤ n)%Z → m ≠ 0%Z → score_truth (ratio n m) = true.
Proof.
  intros Hn Hm. unfold ratio. cbn. apply negb_true_iff, not_true_iff_false.
  rewrite Qeq_bool_iff. unfold Qdiv. intros E.
  apply Qmult_integral in E as [E|E].
  - revert E. change 1%Q with (inject_Z 1). rewrite <- inject_Z_plus.
    change 0%Q with (inject_Z 0). rewrite inject_Z_injective. lia.
  - assert (E' : (inject_Z m == 0)%Q).
    { rewrite <- (Qinv_involutive (inject_Z m)), E. reflexivity. }
    revert E'. change 0%Q with (inject_Z 0). rewrite inject_Z_injective. lia.
Qed.

Lemma for_each_preserves {A B} (P : B → Prop) (body : B → A → res B) l acc r :
  P acc → (∀ acc x acc', P acc → body acc x = Ok acc' → P acc') →
  for_each body acc l = Ok r → P r.
Proof.
  intros Hacc Hstep. revert acc Hacc. induction l as [|x l IH]; intros acc Hacc; cbn.
  - by intros [= <-].
  - destruct (body acc x) as [acc'| |] eqn:Hb; cbn; [|done|done].
    apply IH. by eapply Hstep.
Qed.

Lemma index_inv {A} (l : list A) i (k : A → res score) s :
  index l i ≫= k = Ok s → ∃ x, l !! i = Some x ∧ k x = Ok s.
Proof. unfold index. destruct (l !! i); cbn; [eauto|done]. Qed.

Lemma coefficient_3_truth u v degree neighbors s :
  edge_clustering_coefficient_3 u v degree neighbors = Ok s → score_truth s = true.
Proof.
  unfold edge_clustering_coefficient_3.
  intros (udeg & _ & (vdeg & _ & H)%index_inv)%index_inv.
  case_decide as Hm; [by injection H as <-|].
  apply index_inv in H as (nu & _ & (nv & _ & [= <-])%index_inv).
  apply ratio_truth; [lia | done].
Qed.

Lemma coefficient_4_truth iter_nodes u v degree neighbors s :
  edge_clustering_coefficient_4 iter_nodes u v degree neighbors = Ok s →
  score_truth s = true.
Proof.
  unfold edge_clustering_coefficient_4.
  intros (udeg & _ & (vdeg & _ & H)%index_inv)%index_inv.
  case_decide as Hm; [by injection H as <-|].
  apply index_inv in H as (nu & _ & (nv & _ & H)%index_inv).
  apply res_bind_inv in H as (num & Hnum & [= <-]).
  apply ratio_truth; [|done].
  eapply (for_each_preserves (λ n : Z, (0 ≤ n)%Z)); [| |exact Hnum]; [done|].
  cbn. intros acc w acc' Hacc. unfold index. destruct (neighbors !! w); cbn; [|done].
  intros [= <-]. lia.
Qed.

(** * The claims *)

(** ** C1: the scorer of the recursive calls *)

(** A call of [radicchi_internal] hands [clustering] to no recursive
    call: each of them runs with the default. *)
Lemma radicchi_internal_unfold iter_edges iter_nodes fuel G g level measure clustering :
  radicchi_internal iter_edges iter_nodes (S fuel) G g level measure clustering
  = (g_v ← deref g;
     loop iter_edges iter_nodes
       (λ s, radicchi_internal iter_edges iter_nodes fuel G s (level + 1) measure
               default_clustering)
       G g measure
       (if decide (clustering = 3%Z) then edge_clustering_coefficient_3
        else edge_clustering_coefficient_4 iter_nodes)
       fuel (caches_of g_v (length (components g_v)))).
Proof. reflexivity. Qed.

(** C1 (fails on the code): under the measure ['weak'] only the call at
    level 0 scores edges with the SquareBased coefficient; the
    recursive calls at level 1 are made without [clustering] and score
    with the TriangleBased one. On [pairing_graph] the call at level 0
    returns the groups [{0,5}] and [{1,2,3,4,6,7}], which is what its
    loop gives when the calls at level 1 run with [clustering = 3];
    had they run with [clustering = 4], as the measure asks, the groups
    would be [{0,5}], [{1,3,7}] and [{2,4,6}]. *)
Theorem C1_weak_recursion_scores_by_triangles :
  let g_v := tagged_copy pairing_graph in
  let σ : gmap nat graph := <[1 := g_v]> {[0 := pairing_graph]} in
  let level_0 rec :=
    (loop elements elements rec 0 1 "weak" (edge_clustering_coefficient_4 elements)
       9 (caches_of g_v (length (components g_v))) σ).1 in
  (radicchi_internal elements elements 10 0 1 0 "weak" 4 σ).1
    = Ok [[0; 5]; [1; 2; 3; 4; 6; 7]]
  ∧ level_0 (λ s, radicchi_internal elements elements 9 0 s 1 "weak" 3)
    = Ok [[0; 5]; [1; 2; 3; 4; 6; 7]]
  ∧ level_0 (λ s, radicchi_internal elements elements 9 0 s 1 "weak" 4)
    = Ok [[0; 5]; [1; 3; 7]; [2; 4; 6]]
  ∧ (radicchi elements elements 10 0 "weak" {[0 := pairing_graph]}).1
    = Ok [0; 1; 1; 1; 1; 0; 1; 1].
Proof. vm_compute. by repeat split. Qed.

(** ** C2: a graph without edges *)

(** C2 as stated fails: on two vertices and no edge both vertices get
    the label 0, so they are not alone in their communities. *)
Lemma C2_two_vertices_share_a_community :
  ∃ cl, (radicchi elements elements 2 0 "weak" {[0 := two_vertices]}).1 = Ok cl
    ∧ ¬ all_singletons cl.
Proof.
  exists [0; 0]. split; [by vm_compute|].
  unfold all_singletons. rewrite NoDup_cons. intros [H _]. apply H. by left.
Qed.

(** C2 (amended): on a graph with at least one vertex and no edge,
    [radicchi] returns the clustering that gives every vertex the label
    0, that is one community that holds all the vertices. *)
Theorem C2_no_edges_one_community iter_edges iter_nodes fuel G measure σ G_v :
  σ !! G = Some G_v → 0 < vcount G_v → es G_v = ∅ →
  measure = "weak" ∨ measure = "strong" →
  (radicchi iter_edges iter_nodes (S (S fuel)) G measure σ).1
  = Ok (replicate (vcount G_v) 0).
Proof. intros HG _ He Hm. by apply radicchi_no_edges. Qed.

Lemma C2_no_edges_one_community_witness :
  (radicchi elements elements 2 0 "strong" {[0 := two_vertices]}).1 = Ok [0; 0].
Proof.
  apply (C2_no_edges_one_community elements elements 0 0 "strong"
           {[0 := two_vertices]} two_vertices);
    [reflexivity | vm_compute; lia | reflexivity | right; reflexivity].
Defined.

(** ** C3: the predicates on an empty subset *)

(** C3 as stated fails: on the empty subset of [two_triangles] the
    strong predicate returns [True] and the weak one [False]; neither
    raises. *)
Lemma C3_empty_subset_raises_nothing :
  is_strong_community two_triangles [] = Ok true
  ∧ is_weak_community two_triangles [] = Ok false
  ∧ ¬ (∃ e, is_strong_community two_triangles [] = Raise e)
  ∧ ¬ (∃ e, is_weak_community two_triangles [] = Raise e).
Proof.
  rewrite strong_empty, weak_empty. by repeat split; try intros [e ?].
Qed.

(** C3 (amended): for every graph, on an empty vertex subset the strong
    predicate returns true and the weak predicate returns false, and no
    error is raised. *)
Theorem C3_predicates_on_the_empty_subset G :
  is_strong_community G [] = Ok true ∧ is_weak_community G [] = Ok false.
Proof. split; [apply strong_empty | apply weak_empty]. Qed.

(** ** C4: the edges removed by one pass *)

(** C4: in a pass of the loop on a simple graph with at least one edge,
    whose caches follow the graph, the scan finds the minimum [m] of
    the scores of the current edges, and the pass deletes, from the
    graph and from the cached edge set, exactly the edges whose score
    equals [m] (infinite scores included); their number is the length
    of the list [min_edges] that the scan collected. *)
Theorem C4_removes_the_edges_tied_at_the_minimum
    iter_edges iter_nodes ecc g g_v k σ :
  enumerates iter_edges → enumerates iter_nodes → coefficient iter_nodes ecc →
  σ !! g = Some g_v → simple g_v → es g_v ≠ ∅ →
  let score := score_of ecc (caches_of g_v k) in
  ∃ min_edges m st' g_v',
    scan iter_edges ecc (caches_of g_v k) = Ok (min_edges, Some m)
    ∧ remove_minimum iter_edges g ecc (caches_of g_v k) σ
      = (Ok st', <[g := g_v']> σ)
    ∧ (∃ e, e ∈ es g_v ∧ score e = m)
    ∧ (∀ e, e ∈ es g_v → score_le m (score e) = true)
    ∧ (∀ e, e ∈ es g_v ∖ es g_v' ↔ e ∈ es g_v ∧ score_eq (score e) m = true)
    ∧ edges st' = es g_v'
    ∧ es g_v' ⊆ es g_v
    ∧ min_edges ≠ []
    ∧ size (es g_v) - size (es g_v') = length min_edges
    ∧ length min_edges
      = size (filter (λ e, score_eq (score e) m = true) (es g_v)).
Proof.
  intros Hie Hin Hecc Hg Hs Hne score.
  destruct (scan_caches iter_edges iter_nodes Hie Hin ecc Hecc g_v k Hs Hne)
    as ([min_edges o] & Hscan & Hnd & Hset & Hnil).
  destruct (scan_list_spec ecc (degree (caches_of g_v k)) (neighbors (caches_of g_v k))
              score (iter_edges (es g_v))) as (e0 & He0 & Hleast & Hscan').
  { intros e He. rewrite Hie, elem_of_elements in He.
    by apply (coefficient_value iter_nodes Hin ecc Hecc). }
  { intros E. apply Hne, leibniz_equiv, elements_empty_inv, Permutation_nil_r.
    by rewrite <- (Hie _), E. }
  unfold scan in Hscan. cbn [edges caches_of] in Hscan. rewrite Hscan' in Hscan.
  injection Hscan as <- <-. cbn [fst] in *.
  rewrite Hie, elem_of_elements in He0.
  assert (Hmin : ∀ e, e ∈ es g_v → score_le (score e0) (score e) = true).
  { intros e He. unfold least in Hleast. rewrite Forall_forall in Hleast.
    apply Hleast. by rewrite Hie, elem_of_elements. }
  set (M := minimum_edges ecc (caches_of g_v k)) in *.
  assert (HM : ∀ e, e ∈ M ↔ e ∈ es g_v ∧ score_eq (score e) (score e0) = true).
  { intros e. unfold M, minimum_edges. cbn [edges caches_of].
    rewrite elem_of_filter, score_eq_le, andb_true_iff. unfold set_Forall.
    split.
    - intros [Hall He]. split_and!; [done | by apply Hall | by apply Hmin].
    - intros [He [Hle _]]. split; [|done]. intros e' He'.
      eapply score_le_trans; [exact Hle | by apply Hmin]. }
  eexists _, (score e0), _, (without g_v M). split_and!.
  - exact Hscan'.
  - by apply (remove_minimum_caches iter_edges iter_nodes Hie Hin ecc Hecc).
  - by exists e0.
  - done.
  - intros e. rewrite <- HM. cbn [es without]. rewrite !elem_of_difference.
    split; [|intros He; split; [by apply HM in He as [? _] | tauto]].
    intros [He Hno]. destruct (decide (e ∈ M)); [done | tauto].
  - done.
  - cbn [es without]. set_solver.
  - done.
  - cbn [es without].
    assert (Hsub : M ⊆ es g_v) by apply (minimum_edges_subseteq ecc (caches_of g_v k)).
    rewrite size_difference by done.
    assert (Hlen : size M = length (filter (least score (iter_edges (es g_v))) (iter_edges (es g_v)))).
    { rewrite <- Hset. by apply size_list_to_set. }
    assert (size M ≤ size (es g_v)) by by apply subseteq_size. lia.
  - rewrite <- (size_list_to_set (C := gset edge)) by done. rewrite Hset.
    f_equal. apply set_eq. intros e. rewrite HM, elem_of_filter. tauto.
Qed.

Lemma C4_removes_the_edges_tied_at_the_minimum_witness :
  ∃ min_edges m st' g_v',
    scan elements edge_clustering_coefficient_3 (caches_of two_triangles 1)
      = Ok (min_edges, Some m)
    ∧ remove_minimum elements 0 edge_clustering_coefficient_3
        (caches_of two_triangles 1) {[0 := two_triangles]}
      = (Ok st', <[0 := g_v']> {[0 := two_triangles]})
    ∧ size (es two_triangles) - size (es g_v') = length min_edges.
Proof.
  destruct (C4_removes_the_edges_tied_at_the_minimum elements elements
              edge_clustering_coefficient_3 0 two_triangles 1 {[0 := two_triangles]})
    as (min_edges & m & st' & g_v' & H1 & H2 & _ & _ & _ & _ & _ & _ & H3 & _).
  - apply enumerates_elements.
  - apply enumerates_elements.
  - left; reflexivity.
  - reflexivity.
  - apply (bool_decide_unpack _). vm_compute. exact I.
  - apply (bool_decide_unpack _). vm_compute. exact I.
  - exists min_edges, m, st', g_v'. auto.
Defined.

(** ** C5: determinism *)

(** C5: on a simple graph, two runs of [radicchi] that iterate over the
    sets of edges in different orders end with the same result and the
    same store; under the two supported measures that result is one
    membership list, hence one partition of the vertices. *)
Theorem C5_edge_iteration_order_is_irrelevant
    iter_edges_1 iter_edges_2 iter_nodes fuel G G_v measure σ :
  enumerates iter_edges_1 → enumerates iter_edges_2 → enumerates iter_nodes →
  σ !! G = Some G_v → simple G_v → size (es G_v) + 2 ≤ fuel →
  radicchi iter_edges_1 iter_nodes fuel G measure σ
  = radicchi iter_edges_2 iter_nodes fuel G measure σ
  ∧ (measure = "weak" ∨ measure = "strong" →
     ∃ cl σ', radicchi iter_edges_1 iter_nodes fuel G measure σ = (Ok cl, σ')
       ∧ length cl = vcount G_v).
Proof.
  intros H1 H2 Hin HG Hs Hfuel.
  destruct (decide (measure = "weak" ∨ measure = "strong")) as [Hm|Hm].
  - destruct (radicchi_ok iter_nodes Hin fuel G G_v measure σ HG Hs Hfuel Hm)
      as (result & σ' & cl & _ & Hret & Hcl & Hrange).
    destruct (label_spec _ _ Hrange) as (cl' & Hcl' & Hlen & _).
    assert (cl' = cl) as -> by congruence.
    split; [by rewrite (Hret _ H1), (Hret _ H2) | intros _; exists cl, σ'].
    split; [by apply Hret | done].
  - split; [|done].
    rewrite !(radicchi_invalid_measure _ _ _ _ _ _ G_v HG); tauto.
Qed.

Lemma reverse_elements_enumerates : enumerates (λ X : gset edge, reverse (elements X)).
Proof. intros X. apply reverse_Permutation. Qed.

Lemma C5_edge_iteration_order_is_irrelevant_witness :
  radicchi elements elements 9 0 "strong" {[0 := two_triangles]}
  = radicchi (λ X, reverse (elements X)) elements 9 0 "strong" {[0 := two_triangles]}.
Proof.
  apply (C5_edge_iteration_order_is_irrelevant elements (λ X, reverse (elements X))
           elements 9 0 two_triangles "strong" {[0 := two_triangles]}).
  - apply enumerates_elements.
  - apply reverse_elements_enumerates.
  - apply enumerates_elements.
  - reflexivity.
  - apply (bool_decide_unpack _). vm_compute. exact I.
  - vm_compute. lia.
Defined.

(** ** C6: an unsupported measure *)

(** C6: for a measure other than ['weak'] and ['strong'], whatever the
    recursion budget, [radicchi] raises its exception and leaves a store
    where the only change is the tagged copy of the graph, with all the
    edges of the graph: nothing was removed, no recursive call ran and
    no label was assigned. *)
Theorem C6_unsupported_measure_is_rejected
    iter_edges iter_nodes fuel G measure σ G_v :
  σ !! G = Some G_v → measure ≠ "weak" → measure ≠ "strong" →
  radicchi iter_edges iter_nodes fuel G measure σ
  = (Raise (Exception "Other measures of community not yet supported"),
     <[fresh (dom σ) := tagged_copy G_v]> σ).
Proof. apply radicchi_invalid_measure. Qed.

Lemma C6_unsupported_measure_is_rejected_witness :
  (radicchi elements elements 0 0 "medium" {[0 := two_triangles]}).1
  = Raise (Exception "Other measures of community not yet supported").
Proof.
  rewrite (C6_unsupported_measure_is_rejected elements elements 0 0 "medium"
             {[0 := two_triangles]} two_triangles); [reflexivity..| |];
    intros E; discriminate E.
Defined.

(** ** C7: when pruning is active *)

(** C7: [prune_components] marks its result as pruned if and only if
    two or more components of the working graph satisfy the predicate
    of the measure. Then the new communities are those components and
    the remaining vertices are the vertices of the working graph that
    lie in none of them. When at most one component satisfies the
    predicate the result is not pruned, and the pass of the loop that
    saw the split ends with [Continue]: the caller goes on removing
    edges, with the new number of components as its baseline. *)
Theorem C7_pruning_is_active_from_two_communities
    iter_nodes orig new measure σ r σ' :
  enumerates iter_nodes →
  prune_components iter_nodes orig new measure σ = (Ok r, σ') →
  ∃ orig_g new_g,
    σ !! orig = Some orig_g ∧ σ !! new = Some new_g ∧ σ' = σ
    ∧ (pruned r = true ↔ 2 ≤ length (confirmed measure orig_g new_g))
    ∧ (pruned r = true →
       new_communities r = Some (confirmed measure orig_g new_g)
       ∧ ∃ rem, remaining r = Some rem ∧ NoDup rem
           ∧ ∀ v, v ∈ rem ↔
                  v < vcount new_g
                  ∧ ∀ c, c ∈ confirmed measure orig_g new_g → v ∉ c)
    ∧ (pruned r = false →
       ∀ rec st, n_components st < length (components new_g) →
         split_check iter_nodes rec orig new measure st σ
         = (Ok (Continue {| degree := degree st; neighbors := neighbors st;
                            edges := edges st;
                            n_components := length (components new_g) |}), σ)).
Proof.
  intros Hin Hrun.
  destruct (prune_components_inv _ _ _ _ _ _ _ Hrun)
    as (orig_g & new_g & ocs & Hnew & Horig & Hocs & Htest).
  destruct (prune_components_run iter_nodes orig new measure σ orig_g new_g ocs
              Hnew Horig Hocs Htest) as (r' & Hrun' & Hchar).
  rewrite Hrun in Hrun'. injection Hrun' as <- ->.
  exists orig_g, new_g. split_and!; [done..| | |].
  - case_decide as Hc; [destruct Hchar as [-> _]; split; [lia|done]|].
    subst r. cbn. split; [done|lia].
  - intros Hp. case_decide as Hc; [|by subst r].
    destruct Hchar as (_ & Hncs & Hrem & _). split; [done|].
    eexists. split; [done|]. split.
    + rewrite Hin. apply NoDup_elements.
    + intros v. rewrite Hin, elem_of_elements, elem_of_difference.
      rewrite !elem_of_list_to_set, elem_of_seq, elem_of_concat. naive_solver lia.
  - intros Hp rec st Hst. unfold split_check.
    rewrite run_bind, (run_deref _ _ _ Hnew). rewrite decide_True by done.
    by rewrite run_bind, Hrun, Hp.
Qed.

Lemma C7_pruning_is_active_from_two_communities_witness :
  ∃ r, prune_components elements 0 1 "strong"
         (<[1 := split_triangles]> {[0 := two_triangles]})
       = (Ok r, <[1 := split_triangles]> {[0 := two_triangles]})
    ∧ (pruned r = true ↔ 2 ≤ length (confirmed "strong" two_triangles split_triangles)).
Proof.
  pose (σ := <[1 := split_triangles]> ({[0 := two_triangles]} : gmap nat graph)).
  pose (r := (prune_components elements 0 1 "strong" σ).1).
  assert (Hrun : prune_components elements 0 1 "strong" σ
                 = (Ok {| pruned := true;
                          orig_communities := Some [[0; 1; 2]; [3; 4; 5]];
                          new_communities := Some [[0; 1; 2]; [3; 4; 5]];
                          remaining := Some [] |}, σ)).
  { by vm_compute. }
  destruct (C7_pruning_is_active_from_two_communities elements 0 1 "strong" σ _ σ
              enumerates_elements Hrun)
    as (orig_g & new_g & Horig & Hnew & _ & Hiff & _).
  assert (E0 : σ !! 0 = Some two_triangles) by reflexivity.
  assert (E1 : σ !! 1 = Some split_triangles) by reflexivity.
  rewrite E0 in Horig. rewrite E1 in Hnew.
  injection Horig as <-. injection Hnew as <-.
  eexists. split; [exact Hrun | exact Hiff].
Defined.

(** ** C8: the original graph *)

(** C8: the object of the original graph is the same after a run of
    [radicchi] as before it, and after any call of [radicchi_internal]
    on another working graph, at any level; so are its vertices, its
    edges and its degrees. *)
Theorem C8_original_graph_is_never_updated
    iter_edges iter_nodes fuel G measure σ G_v :
  σ !! G = Some G_v →
  (radicchi iter_edges iter_nodes fuel G measure σ).2 !! G = Some G_v
  ∧ ∀ g level clustering σ1,
      σ1 !! G = Some G_v → g ≠ G →
      (radicchi_internal iter_edges iter_nodes fuel G g level measure clustering σ1).2
        !! G = Some G_v.
Proof.
  intros HG. split; [by apply radicchi_preserves|].
  intros g level clustering σ1 HG1 Hne. by apply radicchi_internal_preserves.
Qed.

Lemma C8_original_graph_is_never_updated_witness :
  (radicchi elements elements 9 0 "strong" {[0 := two_triangles]}).2 !! 0
  = Some two_triangles.
Proof.
  exact (proj1 (C8_original_graph_is_never_updated elements elements 9 0 "strong"
                  {[0 := two_triangles]} two_triangles eq_refl)).
Defined.

(** ** C9: the labelling *)

(** C9: on a simple graph and under a supported measure, [radicchi]
    returns a membership list with one label for every vertex of the
    original graph, and a vertex that is in none of the groups returned
    by the call of [radicchi_internal] at level 0 has the label 0. *)
Theorem C9_every_vertex_has_one_label
    iter_edges iter_nodes fuel G G_v measure σ :
  enumerates iter_edges → enumerates iter_nodes →
  σ !! G = Some G_v → simple G_v → size (es G_v) + 2 ≤ fuel →
  measure = "weak" ∨ measure = "strong" →
  ∃ result σ' cl,
    radicchi_internal iter_edges iter_nodes fuel G (fresh (dom σ)) 0 measure
      (if decide (measure = "weak") then 4 else 3)%Z
      (<[fresh (dom σ) := tagged_copy G_v]> σ) = (Ok result, σ')
    ∧ radicchi iter_edges iter_nodes fuel G measure σ = (Ok cl, σ')
    ∧ length cl = vcount G_v
    ∧ (∀ v, v < vcount G_v → ∃ i, cl !! v = Some i)
    ∧ (∀ v, v < vcount G_v → (∀ l, l ∈ result → v ∉ l) → cl !! v = Some 0).
Proof.
  intros Hie Hin HG Hs Hfuel Hm.
  destruct (radicchi_ok iter_nodes Hin fuel G G_v measure σ HG Hs Hfuel Hm)
    as (result & σ' & cl & Hint & Hret & Hcl & Hrange).
  destruct (label_spec _ _ Hrange) as (cl' & Hcl' & Hlen & Hzero).
  assert (cl' = cl) as -> by congruence.
  exists result, σ', cl. split_and!; [by apply Hint | by apply Hret | done | | done].
  intros v Hv. apply lookup_lt_is_Some_2. lia.
Qed.

Lemma C9_every_vertex_has_one_label_witness :
  ∃ cl, (radicchi elements elements 9 0 "strong" {[0 := two_triangles]}).1 = Ok cl
    ∧ length cl = 6.
Proof.
  destruct (C9_every_vertex_has_one_label elements elements 9 0 two_triangles "strong"
              {[0 := two_triangles]})
    as (result & σ' & cl & _ & Hret & Hlen & _).
  - apply enumerates_elements.
  - apply enumerates_elements.
  - reflexivity.
  - apply (bool_decide_unpack _). vm_compute. exact I.
  - vm_compute. lia.
  - right; reflexivity.
  - exists cl. rewrite Hret. split; [reflexivity | exact Hlen].
Defined.

(** ** C10: the sign of the coefficients *)

(** C10: on an edge of a simple graph, with the caches of that graph,
    both coefficients return a strictly positive score: infinite when
    the denominator is zero, and at least one over the denominator
    otherwise. In every state of the caches a score that a coefficient
    returns is not zero, so it is true as a Python value, and the scan
    compares it with the next scores instead of taking it for the
    unset [None]. *)
Theorem C10_coefficients_are_positive iter_nodes g u v :
  enumerates iter_nodes → simple g → (u, v) ∈ es g →
  let degree := degree (caches_of g 0) in
  let neighbors := neighbors (caches_of g 0) in
  (∃ s, edge_clustering_coefficient_3 u v degree neighbors = Ok s
     ∧ score_positive s
     ∧ score_bound ((degree_of g u - 1) `min` (degree_of g v - 1)) s)
  ∧ (∃ s, edge_clustering_coefficient_4 iter_nodes u v degree neighbors = Ok s
       ∧ score_positive s
       ∧ score_bound ((degree_of g u - 1) * (degree_of g v - 1)) s)
  ∧ (∀ ecc u v degree neighbors m,
       coefficient iter_nodes ecc → ecc u v degree neighbors = Ok m →
       score_truth m = true
       ∧ ∀ ecc' degree' neighbors' min_edges e,
           scan_step ecc' degree' neighbors' (min_edges, Some m) e
           = (ecc ← ecc' e.1 e.2 degree' neighbors';
              if score_lt ecc m then Ok ([e], Some ecc)
              else if score_eq ecc m then Ok (min_edges ++ [e], Some m)
              else Ok (min_edges, Some m))).
Proof.
  intros Hin Hs He. cbv zeta. split_and!.
  - destruct (coefficient_3_value g Hs u v He) as (s & ? & ? & ? & _). eauto.
  - destruct (coefficient_4_value iter_nodes Hin g Hs u v He) as (s & ? & ? & ? & _). eauto.
  - intros ecc u' v' degree neighbors m Hecc Hm.
    assert (Ht : score_truth m = true).
    { destruct Hecc as [-> | ->];
        [by eapply coefficient_3_truth | by eapply coefficient_4_truth]. }
    split; [done|]. intros ecc' degree' neighbors' min_edges e.
    unfold scan_step. by rewrite Ht.
Qed.

Lemma C10_coefficients_are_positive_witness :
  ∃ s, edge_clustering_coefficient_3 2 3 (degree (caches_of two_triangles 0))
         (neighbors (caches_of two_triangles 0)) = Ok s
    ∧ score_positive s.
Proof.
  destruct (C10_coefficients_are_positive elements two_triangles 2 3)
    as ((s & Hs & Hpos & _) & _).
  - apply enumerates_elements.
  - apply (bool_decide_unpack _). vm_compute. exact I.
  - apply (bool_decide_unpack _). vm_compute. exact I.
  - exists s. split; [exact Hs | exact Hpos].
Defined.

(** * Further properties *)

(** ** The labelling of the groups *)

Lemma assign_members (n : nat) (cl : list nat) (i : nat) (l : list nat) cl' :
  length cl = n → Forall (λ v, v < n) l → assign cl (i, l) = Ok cl' →
  ∀ v, v ∈ l → cl' !! v = Some i.
Proof.
  unfold assign. cbn [fst snd]. intros Hlen Hl. revert cl Hlen.
  induction Hl as [|w l Hw Hl IH]; intros cl Hlen Hrun v Hv; [by apply elem_of_nil in Hv|].
  cbn [for_each] in Hrun. rewrite decide_True in Hrun by lia. cbn [mbind res_bind] in Hrun.
  destruct (decide (v ∈ l)) as [Hin|Hin].
  - eapply IH; [|exact Hrun|done]. by rewrite length_insert.
  - apply elem_of_cons in Hv as [->|Hv]; [|done].
    destruct (assign_spec n (<[w := i]> cl) i l) as (cl'' & Hcl'' & _ & Hout);
      [by rewrite length_insert | done |].
    unfold assign in Hcl''. cbn [fst snd] in Hcl''. rewrite Hrun in Hcl''.
    injection Hcl'' as <-. rewrite Hout by done.
    apply list_lookup_insert_eq. lia.
Qed.

Lemma label_from_members (n k : nat) (cl cl' : list nat) (result : list (list nat)) :
  length cl = n → Forall (Forall (λ v, v < n)) result →
  for_each assign cl (zip (seq k (length result)) result) = Ok cl' →
  ∀ i l v, result !! i = Some l → v ∈ l →
    (∀ j l', i < j → result !! j = Some l' → v ∉ l') →
    cl' !! v = Some (k + i).
Proof.
  intros Hlen Hres. revert k cl Hlen.
  induction Hres as [|l0 result Hl0 Hres IH]; intros k cl Hlen Hrun i l v Hi Hv Hlast;
    [done|].
  cbn [length seq zip zip_with for_each] in Hrun.
  destruct (assign_spec n cl k l0 Hlen Hl0) as (cl1 & Hcl1 & Hlen1 & Hout).
  rewrite Hcl1 in Hrun. cbn [mbind res_bind] in Hrun.
  destruct i as [|i].
  - injection Hi as <-.
    destruct (label_from n (S k) cl1 result Hlen1 Hres) as (cl'' & Hcl'' & _ & Hsame).
    rewrite Hrun in Hcl''. injection Hcl'' as <-.
    rewrite Hsame.
    + rewrite Nat.add_0_r. by apply (assign_members n cl k l0 cl1 Hlen Hl0 Hcl1).
    + intros l' (j & Hj)%list_elem_of_lookup_1. apply (Hlast (S j)); [lia | done].
  - replace (k + S i) with (S k + i) by lia.
    eapply (IH (S k) cl1 Hlen1 Hrun i l v); [done | done |].
    intros j l' Hij Hj. apply (Hlast (S j)); [lia | done].
Qed.

(** The labelling of lines 20-23 raises [IndexError] on a group with a
    vertex that the graph does not have, and nothing else. *)
Lemma assign_out_of_range (cl : list nat) (i : nat) (l : list nat) :
  ¬ Forall (λ v, v < length cl) l → assign cl (i, l) = Raise IndexError.
Proof.
  unfold assign. cbn [fst snd]. revert cl.
  induction l as [|w l IH]; intros cl Hno; [by destruct Hno|].
  cbn [for_each]. case_decide as Hw; [|done]. cbn [mbind res_bind].
  apply IH. rewrite length_insert. intros Hl. apply Hno. by constructor.
Qed.

Lemma label_from_out_of_range (k : nat) (cl : list nat) (result : list (list nat)) :
  ¬ Forall (Forall (λ v, v < length cl)) result →
  for_each assign cl (zip (seq k (length result)) result) = Raise IndexError.
Proof.
  revert k cl. induction result as [|l result IH]; intros k cl Hno; [by destruct Hno|].
  cbn [length seq zip zip_with for_each].
  destruct (decide (Forall (λ v, v < length cl) l)) as [Hl|Hl].
  - destruct (assign_spec (length cl) cl k l eq_refl Hl) as (cl1 & -> & Hlen1 & _).
    cbn [mbind res_bind]. apply IH. rewrite Hlen1. intros Hres. apply Hno. by constructor.
  - by rewrite assign_out_of_range.
Qed.

Lemma label_value (n : nat) (result : list (list nat)) :
  (Forall (Forall (λ v, v < n)) result →
   ∃ cl, label n result = Ok cl ∧ length cl = n
     ∧ (∀ v, v < n → (∀ l, l ∈ result → v ∉ l) → cl !! v = Some 0)
     ∧ (∀ i l v, result !! i = Some l → v ∈ l →
          (∀ j l', i < j → result !! j = Some l' → v ∉ l') → cl !! v = Some i))
  ∧ (¬ Forall (Forall (λ v, v < n)) result → label n result = Raise IndexError).
Proof.
  split.
  - intros Hres. destruct (label_spec n result Hres) as (cl & Hcl & Hlen & Hzero).
    exists cl. split_and!; [done..|].
    intros i l v Hi Hv Hlast. unfold label, enumerate in Hcl.
    by apply (label_from_members n 0 (replicate n 0) cl result
                (length_replicate _ _) Hres Hcl i l v).
  - intros Hno. unfold label, enumerate. apply label_from_out_of_range.
    by rewrite length_replicate.
Qed.

(** X1: The membership list that lines 20-23 of [radicchi] build from the
    groups: it exists exactly when every vertex of every group is a
    vertex of the graph (otherwise the assignment raises [IndexError]);
    then a vertex has the index of the last group it is in, and 0 when
    it is in no group. *)
Theorem label_gives_the_last_group (n : nat) (result : list (list nat)) :
  (Forall (Forall (λ v, v < n)) result →
   ∃ cl, label n result = Ok cl ∧ length cl = n
     ∧ (∀ v, v < n → (∀ l, l ∈ result → v ∉ l) → cl !! v = Some 0)
     ∧ (∀ i l v, result !! i = Some l → v ∈ l →
          (∀ j l', i < j → result !! j = Some l' → v ∉ l') → cl !! v = Some i))
  ∧ (¬ Forall (Forall (λ v, v < n)) result → label n result = Raise IndexError).
Proof. apply label_value. Qed.

Lemma label_gives_the_last_group_witness :
  ∃ cl, label 4 [[0; 1]; [1; 2]] = Ok cl
    ∧ cl !! 1 = Some 1 ∧ cl !! 3 = Some 0.
Proof.
  destruct (proj1 (label_gives_the_last_group 4 [[0; 1]; [1; 2]]))
    as (cl & Hcl & _ & Hzero & Hlast).
  - apply (bool_decide_unpack _). vm_compute. exact I.
  - exists cl. split; [exact Hcl|]. split.
    + apply (Hlast 1 [1; 2] 1); [reflexivity | apply (bool_decide_unpack _); vm_compute; exact I |].
      intros j l' Hj Hl'. destruct j as [|[|j]]; [lia | lia | discriminate Hl'].
    + apply Hzero; [lia|]. apply Forall_forall.
      apply (bool_decide_unpack _). vm_compute. exact I.
Defined.

(** ** The groups of the recursion and their labels *)

Lemma concat_NoDup_disjoint {A} (ls : list (list A)) i j l l' x :
  NoDup (concat ls) → ls !! i = Some l → ls !! j = Some l' → i < j →
  x ∈ l → x ∉ l'.
Proof.
  revert i j. induction ls as [|l0 ls IH]; intros i j Hnd Hi Hj Hij Hx Hx'; [done|].
  cbn [concat] in Hnd. apply NoDup_app in Hnd as (_ & Hd & Hnd).
  destruct i as [|i], j as [|j]; try lia.
  - injection Hi as <-. cbn in Hj. apply (Hd x Hx).
    apply elem_of_concat. exists l'. split; [by eapply list_elem_of_lookup_2|done].
  - cbn in Hi, Hj. eapply (IH i j); [done..|lia|done|done].
Qed.

(** X2: On a working graph and with a budget of two more than its edges,
    [radicchi_internal] returns, for every iteration order: its groups
    are non-empty, they are made of ['id']s of the graph, no vertex is
    in two groups or twice in a group, and there are none or at least
    two groups. *)
Theorem radicchi_internal_returns_disjoint_groups
    iter_edges iter_nodes fuel G G_v g g_v level measure clustering σ :
  enumerates iter_edges → enumerates iter_nodes →
  σ !! G = Some G_v → σ !! g = Some g_v → g ≠ G →
  working G_v g_v → size (es g_v) + 2 ≤ fuel →
  ∃ result σ',
    radicchi_internal iter_edges iter_nodes fuel G g level measure clustering σ
      = (Ok result, σ')
    ∧ Forall (Forall (λ i, i ∈ vs_id g_v)) result
    ∧ NoDup (concat result)
    ∧ Forall (λ l, l ≠ []) result
    ∧ (result = [] ∨ 2 ≤ length result).
Proof.
  intros Hie Hin HG Hg Hne Hw Hfuel.
  destruct (radicchi_internal_ok iter_nodes Hin fuel G G_v g g_v level measure
              clustering σ) as (result & σ' & Hret & Hgroups); [by repeat split|done..|].
  exists result, σ'. split; [by apply Hret | exact Hgroups].
Qed.

Lemma radicchi_internal_returns_disjoint_groups_witness :
  ∃ result σ',
    radicchi_internal elements elements 9 0 1 0 "strong" 3
      (<[1 := tagged_copy two_triangles]> {[0 := two_triangles]}) = (Ok result, σ')
    ∧ NoDup (concat result).
Proof.
  destruct (radicchi_internal_returns_disjoint_groups elements elements 9 0 two_triangles
              1 (tagged_copy two_triangles) 0 "strong" 3
              (<[1 := tagged_copy two_triangles]> {[0 := two_triangles]}))
    as (result & σ' & Hrun & _ & Hnd & _).
  - apply enumerates_elements.
  - apply enumerates_elements.
  - reflexivity.
  - reflexivity.
  - lia.
  - apply tagged_copy_working. apply (bool_decide_unpack _). vm_compute. exact I.
  - vm_compute. lia.
  - exists result, σ'. split; [exact Hrun | exact Hnd].
Defined.

(** X3: On a simple graph, the membership list that [radicchi] returns
    follows the groups of the recursion: the vertices of the group at
    position [i] have the label [i], and a vertex with the label [i] is in
    that group or, for [i = 0], in no group at all. So the labels in use
    are 0 alone when there is no group, and otherwise the positions of
    the groups, each of them in use. *)
Theorem radicchi_labels_follow_the_groups
    iter_edges iter_nodes fuel G G_v measure σ :
  enumerates iter_edges → enumerates iter_nodes →
  σ !! G = Some G_v → simple G_v → size (es G_v) + 2 ≤ fuel →
  measure = "weak" ∨ measure = "strong" →
  ∃ result σ' cl,
    radicchi_internal iter_edges iter_nodes fuel G (fresh (dom σ)) 0 measure
      (if decide (measure = "weak") then 4 else 3)%Z
      (<[fresh (dom σ) := tagged_copy G_v]> σ) = (Ok result, σ')
    ∧ radicchi iter_edges iter_nodes fuel G measure σ = (Ok cl, σ')
    ∧ (result = [] ∨ 2 ≤ length result)
    ∧ (∀ i l v, result !! i = Some l → v ∈ l → cl !! v = Some i)
    ∧ (∀ v i, cl !! v = Some i →
         (∃ l, result !! i = Some l ∧ v ∈ l)
         ∨ (i = 0 ∧ ∀ l, l ∈ result → v ∉ l))
    ∧ (∀ i, i < length result → ∃ v, cl !! v = Some i).
Proof.
  intros Hie Hin HG Hs Hfuel Hm.
  destruct (radicchi_ok iter_nodes Hin fuel G G_v measure σ HG Hs Hfuel Hm)
    as (result & σ' & cl & Hint & Hret & Hcl & Hrange).
  assert (Hfresh : fresh (dom σ) ≠ G).
  { intros E. apply (is_fresh (dom σ)). rewrite E. by apply elem_of_dom. }
  assert (Hh : holds (<[fresh (dom σ) := tagged_copy G_v]> σ) G G_v
                 (fresh (dom σ)) (tagged_copy G_v)).
  { repeat split; [by rewrite lookup_insert_ne | by rewrite lookup_insert_eq | done]. }
  destruct (radicchi_internal_ok iter_nodes Hin fuel G G_v (fresh (dom σ))
              (tagged_copy G_v) 0 measure (if decide (measure = "weak") then 4 else 3)%Z
              _ Hh)
    as (result' & σ'' & Hret' & _ & Hnd & Hne & Hlen); [by apply tagged_copy_working | done |].
  assert (E : (Ok result', σ'') = (Ok result, σ')).
  { by rewrite <- (Hret' _ Hie), <- (Hint _ Hie). }
  injection E as -> ->.
  destruct (label_value (vcount G_v) result) as [Hlast _].
  destruct (Hlast Hrange) as (cl' & Hcl' & Hlen' & Hzero & Hmember).
  assert (cl' = cl) as -> by congruence.
  assert (Hin_group : ∀ i l v, result !! i = Some l → v ∈ l → cl !! v = Some i).
  { intros i l v Hi Hv. apply (Hmember i l v Hi Hv).
    intros j l' Hij Hj. by apply (concat_NoDup_disjoint result i j l l' v). }
  exists result, σ', cl. split_and!; [by apply Hint | by apply Hret | done | done | |].
  - intros v i Hvi.
    destruct (decide (Exists (λ l, v ∈ l) result)) as [Hex|Hno].
    + apply Exists_exists in Hex as (l & (j & Hj)%list_elem_of_lookup_1 & Hv).
      left. assert (i = j) as -> by (specialize (Hin_group j l v Hj Hv); congruence).
      eauto.
    + right. assert (Hnone : ∀ l, l ∈ result → v ∉ l).
      { intros l Hl Hv. apply Hno, Exists_exists. eauto. }
      split; [|done]. assert (v < vcount G_v) by (rewrite <- Hlen'; by eapply lookup_lt_Some).
      specialize (Hzero v ltac:(done) Hnone). congruence.
  - intros i Hi. destruct (lookup_lt_is_Some_2 result i Hi) as [l Hl].
    rewrite Forall_forall in Hne.
    destruct l as [|v l]; [by destruct (Hne [] (list_elem_of_lookup_2 _ _ _ Hl))|].
    exists v. apply (Hin_group i (v :: l) v Hl). by left.
Qed.

Lemma radicchi_labels_follow_the_groups_witness :
  ∃ (result : list (list nat)) cl,
    (radicchi elements elements 9 0 "strong" {[0 := two_triangles]}).1 = Ok cl
    ∧ ∀ i l v, result !! i = Some l → v ∈ l → cl !! v = Some i.
Proof.
  destruct (radicchi_labels_follow_the_groups elements elements 9 0 two_triangles
              "strong" {[0 := two_triangles]})
    as (result & σ' & cl & _ & Hret & _ & Hgroups & _).
  - apply enumerates_elements.
  - apply enumerates_elements.
  - reflexivity.
  - apply (bool_decide_unpack _). vm_compute. exact I.
  - vm_compute. lia.
  - right; reflexivity.
  - exists result, cl. rewrite Hret. split; [reflexivity | exact Hgroups].
Defined.

(** ** The caches after a removal *)

Lemma size_set_map_inj_on {A B} `{Countable A} `{Countable B} (f : A → B) (X : gset A) :
  (∀ x y, x ∈ X → y ∈ X → f x = f y → x = y) →
  size (set_map f X : gset B) = size X.
Proof.
  induction X as [|x X Hx IH] using set_ind_L; intros Hinj.
  - by rewrite set_map_empty, !size_empty.
  - rewrite set_map_union_L, set_map_singleton_L.
    rewrite !size_union, !size_singleton, IH; [done| |set_solver|].
    + intros y z Hy Hz. apply Hinj; set_solver.
    + intros y Hy%elem_of_singleton (z & Hz & Hz')%elem_of_map. subst y.
      assert (x = z) by (apply Hinj; set_solver). by subst.
Qed.

Lemma degree_size_neighbors g v :
  simple g → degree_of g v = Z.of_nat (size (neighbors_of g v)).
Proof.
  intros Hs. unfold degree_of, neighbors_of. f_equal.
  rewrite size_union.
  - rewrite !size_set_map_inj_on; [done|..].
    + intros [a b] [c d] [E1 _]%elem_of_filter [E2 _]%elem_of_filter E.
      cbn in *. by subst.
    + intros [a b] [c d] [E1 _]%elem_of_filter [E2 _]%elem_of_filter E.
      cbn in *. by subst.
  - intros w ([a b] & -> & [E1 H1]%elem_of_filter)%elem_of_map
             ([c d] & E & [E2 H2]%elem_of_filter)%elem_of_map.
    cbn in *. subst. apply Hs in H1, H2. cbn in *. lia.
Qed.

Lemma caches_of_consistent g k : simple g → consistent (caches_of g k).
Proof.
  intros Hs. unfold consistent. cbn [caches_of degree neighbors edges]. split_and!.
  - unfold degree_all. by rewrite !length_fmap.
  - intros v nv Hv. apply list_lookup_fmap_Some in Hv as (v' & -> & Hv').
    apply lookup_seq in Hv' as [-> Hlt]. rewrite Nat.add_0_l. split_and!.
    + unfold degree_all. rewrite list_lookup_fmap, lookup_seq_lt by done. cbn.
      by rewrite degree_size_neighbors.
    + intros [H|H]%elem_of_neighbors_of; apply Hs in H; cbn in H; lia.
    + intros w Hw. exists (neighbors_of g w). split.
      * rewrite list_lookup_fmap, lookup_seq_lt; [done|]. by eapply neighbors_of_range.
      * apply elem_of_neighbors_of. apply elem_of_neighbors_of in Hw. tauto.
  - intros u v. split.
    + intros He. pose proof (Hs _ He) as [Huv Hv]. cbn in Huv, Hv.
      split; [done|]. exists (neighbors_of g u). split.
      * rewrite list_lookup_fmap, lookup_seq_lt; [done|lia].
      * apply elem_of_neighbors_of. by left.
    + intros (Huv & nu & Hnu & Hv).
      apply list_lookup_fmap_Some in Hnu as (u' & -> & Hu').
      apply lookup_seq in Hu' as [-> _]. cbn in Hv.
      apply elem_of_neighbors_of in Hv as [H|H]; [done|].
      apply Hs in H. cbn in H. lia.
Qed.

(** X4: Lines 59-64 keep the caches in step with the graph: once a list
    of distinct edges of a simple graph is deleted, from the graph by
    [delete_edges] and from the caches by the loop of line 60, the caches
    are the ones that lines 35-37 would compute again on the graph that
    is left. *)
Theorem caches_follow_the_deleted_edges g k (l : list edge) :
  simple g → NoDup l → (∀ e, e ∈ l → e ∈ es g) →
  ∃ g', delete_edges g l = Ok g'
    ∧ simple g'
    ∧ vcount g' = vcount g ∧ vs_id g' = vs_id g
    ∧ (∀ e, e ∈ es g' ↔ e ∈ es g ∧ e ∉ l)
    ∧ for_each discard_edge (caches_of g k) l = Ok (caches_of g' k).
Proof.
  intros Hs Hnd Hin. exists (without g (list_to_set l)). split_and!.
  - by apply delete_edges_simple.
  - by apply without_simple.
  - done.
  - done.
  - intros e. cbn. rewrite elem_of_difference, elem_of_list_to_set. done.
  - by apply discard_edges_caches.
Qed.

Lemma caches_follow_the_deleted_edges_witness :
  ∃ g', delete_edges two_triangles [(2, 3); (0, 1)] = Ok g'
    ∧ for_each discard_edge (caches_of two_triangles 1) [(2, 3); (0, 1)]
      = Ok (caches_of g' 1).
Proof.
  destruct (caches_follow_the_deleted_edges two_triangles 1 [(2, 3); (0, 1)])
    as (g' & Hdel & _ & _ & _ & _ & Hcaches).
  - apply (bool_decide_unpack _). vm_compute. exact I.
  - apply (bool_decide_unpack _). vm_compute. exact I.
  - apply Forall_forall. apply (bool_decide_unpack _). vm_compute. exact I.
  - exists g'. split; [exact Hdel | exact Hcaches].
Defined.

(** X5: The caches stay consistent through the removals of lines 60-64:
    after the loop has discarded a list of distinct edges of a simple
    graph, every cached degree is the size of the cached neighbourhood,
    the neighbourhoods are symmetric and without loops, and the cached
    edge set holds the pairs [(u, v)], [u < v], of neighbours. *)
Theorem caches_stay_consistent g k (l : list edge) :
  simple g → NoDup l → (∀ e, e ∈ l → e ∈ es g) →
  ∃ st, for_each discard_edge (caches_of g k) l = Ok st
    ∧ consistent st
    ∧ length (neighbors st) = vcount g
    ∧ n_components st = k.
Proof.
  intros Hs Hnd Hin. eexists. split; [by apply discard_edges_caches|].
  split_and!.
  - by apply caches_of_consistent, without_simple.
  - cbn. by rewrite length_fmap, length_seq.
  - done.
Qed.

Lemma caches_stay_consistent_witness :
  ∃ st, for_each discard_edge (caches_of two_triangles 1) [(2, 3); (0, 1)] = Ok st
    ∧ consistent st.
Proof.
  destruct (caches_stay_consistent two_triangles 1 [(2, 3); (0, 1)])
    as (st & Hrun & Hcons & _).
  - apply (bool_decide_unpack _). vm_compute. exact I.
  - apply (bool_decide_unpack _). vm_compute. exact I.
  - apply Forall_forall. apply (bool_decide_unpack _). vm_compute. exact I.
  - exists st. split; [exact Hrun | exact Hcons].
Defined.

(** ** The range and the symmetry of the coefficients *)

Lemma ratio_within n m :
  (0 ≤ n ≤ m)%Z → (0 < m)%Z → score_within m (ratio n m).
Proof.
  intros Hn Hm. unfold ratio. cbn.
  assert (Hm' : (0 < inject_Z m)%Q) by (rewrite <- (Zlt_Qlt 0); done).
  assert (Hone : (1 <= inject_Z m)%Q).
  { change 1%Q with (inject_Z 1). rewrite <- Zle_Qle. lia. }
  assert (Hnm : (inject_Z n + 1 <= inject_Z m + 1)%Q).
  { apply Qplus_le_compat; [rewrite <- Zle_Qle; lia | apply Qle_refl]. }
  split_and!; [lia| |].
  - apply Qle_shift_div_r; [done|].
    assert (E : ((1 + 1 / inject_Z m) * inject_Z m == inject_Z m + 1)%Q).
    { field. intros E. rewrite E in Hm'. by apply Qlt_irrefl in Hm'. }
    by rewrite E.
  - apply Qle_shift_div_r; [done|].
    eapply Qle_trans; [exact Hnm|].
    assert (E : (2 * inject_Z m == inject_Z m + inject_Z m)%Q) by ring.
    rewrite E. apply Qplus_le_compat; [apply Qle_refl | done].
Qed.

Lemma for_each_sum {A} (f : A → nat) (body : Z → A → res Z) l acc :
  (∀ a w, w ∈ l → body a w = Ok (a + Z.of_nat (f w))%Z) →
  for_each body acc l = Ok (acc + Z.of_nat (sum_list_with f l))%Z.
Proof.
  revert acc. induction l as [|w l IH]; intros acc Hbody; cbn.
  - f_equal. lia.
  - rewrite Hbody by (by left). cbn. rewrite IH by (intros; apply Hbody; by right).
    f_equal. lia.
Qed.

Lemma sum_list_with_bound {A} (f : A → nat) (l : list A) b :
  (∀ w, w ∈ l → f w ≤ b) → sum_list_with f l ≤ length l * b.
Proof.
  induction l as [|w l IH]; intros Hb; cbn; [lia|].
  specialize (Hb w (ltac:(by left)) ) as Hw.
  specialize (IH (λ x Hx, Hb x (ltac:(by right)))). lia.
Qed.

Lemma size_neighbors_without g u v :
  v ∈ neighbors_of g u →
  Z.of_nat (size (neighbors_of g u ∖ {[v]})) = (Z.of_nat (size (neighbors_of g u)) - 1)%Z.
Proof.
  intros Hv. rewrite size_difference by set_solver. rewrite size_singleton.
  assert (size (neighbors_of g u) ≠ 0); [|lia].
  apply size_non_empty_iff, (non_empty_inhabited v). done.
Qed.

Section Squares.
Variable iter_nodes : gset nat → list nat.
Hypothesis iter_nodes_enumerates : enumerates iter_nodes.

Variable g : graph.
Hypothesis g_simple : simple g.

Lemma squares_loop u v :
  for_each (λ num_squares w,
      nw ← index (neighbors_of g <$> seq 0 (vcount g)) w;
      Ok (num_squares
          + Z.of_nat (size ((nw ∖ {[u]}) ∩ (neighbors_of g v ∖ {[u]}))))%Z)
    0%Z (iter_nodes (neighbors_of g u ∖ {[v]}))
  = Ok (Z.of_nat (sum_list_with (squares_through g u v)
                    (elements (neighbors_of g u ∖ {[v]})))).
Proof.
  rewrite (for_each_sum (squares_through g u v)).
  - by rewrite (iter_nodes_enumerates _).
  - intros a w Hw. rewrite iter_nodes_enumerates, elem_of_elements in Hw.
    apply elem_of_difference in Hw as [Hw _].
    by rewrite index_neighbors_all by (by eapply neighbors_of_range).
Qed.

Lemma coefficient_4_unfold u v :
  u < vcount g → v < vcount g →
  edge_clustering_coefficient_4 iter_nodes u v
    (degree (caches_of g 0)) (neighbors (caches_of g 0))
  = let mdeg := ((degree_of g u - 1) * (degree_of g v - 1))%Z in
    if decide (mdeg = 0%Z) then Ok Infinity
    else Ok (ratio (Z.of_nat (sum_list_with (squares_through g u v)
                                (elements (neighbors_of g u ∖ {[v]})))) mdeg).
Proof.
  intros Hu Hv. unfold edge_clustering_coefficient_4. cbn [degree neighbors caches_of].
  rewrite !index_degree_all by done. cbn [mbind res_bind]. cbv zeta.
  case_decide; [done|].
  rewrite !index_neighbors_all by done. cbn [mbind res_bind].
  by rewrite squares_loop.
Qed.
End Squares.

(** X6: On an edge of a simple graph, with the caches of that graph, a
    finite score of either coefficient is at most [1 + 1 / m] for its
    denominator [m], so at most 2: an edge is in at most
    [min(du - 1, dv - 1)] triangles and the loop of lines 183-185 counts at
    most [(du - 1) * (dv - 1)] squares. The score is infinite exactly when
    [m] is zero. *)
Theorem coefficients_are_at_most_two iter_nodes g u v :
  enumerates iter_nodes → simple g → (u, v) ∈ es g →
  let degree := degree (caches_of g 0) in
  let neighbors := neighbors (caches_of g 0) in
  (∃ s, edge_clustering_coefficient_3 u v degree neighbors = Ok s
     ∧ score_within ((degree_of g u - 1) `min` (degree_of g v - 1)) s)
  ∧ (∃ s, edge_clustering_coefficient_4 iter_nodes u v degree neighbors = Ok s
       ∧ score_within ((degree_of g u - 1) * (degree_of g v - 1)) s).
Proof.
  intros Hin Hs He. cbv zeta.
  pose proof (Hs _ He) as [Huv Hv]. cbn in Huv, Hv.
  pose proof (degree_of_fst _ _ _ He) as Hdu.
  pose proof (degree_of_snd _ _ _ He) as Hdv.
  assert (Hvu : v ∈ neighbors_of g u) by (apply elem_of_neighbors_of; by left).
  assert (Huv' : u ∈ neighbors_of g v) by (apply elem_of_neighbors_of; by right).
  assert (Hv' : v ∉ neighbors_of g v).
  { intros [H|H]%elem_of_neighbors_of; apply Hs in H; cbn in H; lia. }
  assert (Hu' : u ∉ neighbors_of g u).
  { intros [H|H]%elem_of_neighbors_of; apply Hs in H; cbn in H; lia. }
  pose proof (size_neighbors_without g u v Hvu) as Hsu.
  pose proof (size_neighbors_without g v u Huv') as Hsv.
  rewrite <- !degree_size_neighbors in Hsu, Hsv by done.
  split.
  - unfold edge_clustering_coefficient_3. cbn [degree neighbors caches_of].
    rewrite !index_degree_all by lia. cbn [mbind res_bind].
    case_decide as Hm; [by exists Infinity|].
    rewrite !index_neighbors_all by lia. cbn [mbind res_bind].
    eexists; split; [done|]. apply ratio_within; [|lia]. split; [lia|].
    assert (size (neighbors_of g u ∩ neighbors_of g v)
            ≤ size (neighbors_of g u ∖ {[v]})) by (apply subseteq_size; set_solver).
    assert (size (neighbors_of g u ∩ neighbors_of g v)
            ≤ size (neighbors_of g v ∖ {[u]})) by (apply subseteq_size; set_solver).
    lia.
  - rewrite (coefficient_4_unfold iter_nodes Hin g Hs) by lia. cbv zeta.
    case_decide as Hm; [by exists Infinity|].
    eexists; split; [done|]. apply ratio_within; [|nia]. split; [lia|].
    pose proof (sum_list_with_bound (squares_through g u v)
                  (elements (neighbors_of g u ∖ {[v]}))
                  (size (neighbors_of g v ∖ {[u]}))) as Hb.
    assert (Hlen : length (elements (neighbors_of g u ∖ {[v]}))
                   = size (neighbors_of g u ∖ {[v]})) by done.
    rewrite Hlen in Hb.
    assert (sum_list_with (squares_through g u v) (elements (neighbors_of g u ∖ {[v]}))
            ≤ size (neighbors_of g u ∖ {[v]}) * size (neighbors_of g v ∖ {[u]})).
    { apply Hb. intros w _. unfold squares_through. apply subseteq_size. set_solver. }
    nia.
Qed.

Lemma coefficients_are_at_most_two_witness :
  ∃ s, edge_clustering_coefficient_4 elements 2 3
         (degree (caches_of two_triangles 0)) (neighbors (caches_of two_triangles 0)) = Ok s
    ∧ score_within 4 s.
Proof.
  destruct (coefficients_are_at_most_two elements two_triangles 2 3) as [_ (s & Hs & Hw)].
  - apply enumerates_elements.
  - apply (bool_decide_unpack _). vm_compute. exact I.
  - apply (bool_decide_unpack _). vm_compute. exact I.
  - exists s. split; [exact Hs | exact Hw].
Defined.

Lemma index_raises {A} (l : list A) i : l !! i = None → index l i = Raise IndexError.
Proof. intros H. unfold index. by rewrite H. Qed.

Lemma index_cases {A} (l : list A) i :
  (∃ x, index l i = Ok x) ∨ index l i = Raise IndexError.
Proof. unfold index. destruct (l !! i); eauto. Qed.

Lemma count_pairs {A B} (R : A → B → Prop) (R' : B → A → Prop)
    `{!∀ a b, Decision (R a b)} `{!∀ b a, Decision (R' b a)} (la : list A) (lb : list B) :
  (∀ a b, a ∈ la → b ∈ lb → R a b ↔ R' b a) →
  sum_list_with (λ a, length (filter (R a) lb)) la
  = sum_list_with (λ b, length (filter (R' b) la)) lb.
Proof.
  induction la as [|a la IH]; intros HR.
  - cbn. induction lb as [|b lb IHb]; [done|]. cbn. apply IHb. intros ?? []%elem_of_nil.
  - cbn [sum_list_with]. rewrite IH by (intros; apply HR; [by right|done]).
    assert (Ha : ∀ b, b ∈ lb → R a b ↔ R' b a) by (intros; apply HR; [by left|done]).
    clear IH HR. induction lb as [|b lb IHb]; [done|].
    cbn [sum_list_with]. rewrite <- IHb by (intros; apply Ha; by right).
    pose proof (Ha b ltac:(by left)) as Hb.
    rewrite !filter_cons. destruct (decide (R a b)), (decide (R' b a)); cbn; try tauto; lia.
Qed.

Lemma size_intersection_filter (X Y : gset nat) :
  size (X ∩ Y) = length (filter (λ x, x ∈ X) (elements Y)).
Proof.
  unfold size, set_size. cbn. apply Permutation_length, NoDup_Permutation.
  - apply NoDup_elements.
  - apply NoDup_filter, NoDup_elements.
  - intros x. rewrite elem_of_elements, list_elem_of_filter, elem_of_elements. set_solver.
Qed.

Lemma sum_list_with_ext {A} (f f' : A → nat) (l : list A) :
  (∀ x, f x = f' x) → sum_list_with f l = sum_list_with f' l.
Proof. intros E. induction l as [|x l IH]; [done|]. cbn. by rewrite E, IH. Qed.

Lemma squares_symmetric g u v :
  sum_list_with (squares_through g u v) (elements (neighbors_of g u ∖ {[v]}))
  = sum_list_with (squares_through g v u) (elements (neighbors_of g v ∖ {[u]})).
Proof.
  unfold squares_through.
  rewrite (sum_list_with_ext _ (λ w, length (filter (λ x, x ∈ neighbors_of g w ∖ {[u]})
                                   (elements (neighbors_of g v ∖ {[u]})))));
    [|intros w; apply size_intersection_filter].
  rewrite (sum_list_with_ext
              (λ w, size ((neighbors_of g w ∖ {[v]}) ∩ (neighbors_of g u ∖ {[v]})))
              (λ w, length (filter (λ x, x ∈ neighbors_of g w ∖ {[v]})
                              (elements (neighbors_of g u ∖ {[v]})))));
    [|intros w; apply size_intersection_filter].
  apply (count_pairs (λ w x, x ∈ neighbors_of g w ∖ {[u]})
           (λ x w, w ∈ neighbors_of g x ∖ {[v]})).
  intros w x Hw Hx. rewrite elem_of_elements in Hw, Hx.
  rewrite !elem_of_difference, !elem_of_singleton, !elem_of_neighbors_of in *.
  naive_solver.
Qed.

(** X7: The coefficients do not depend on the orientation of the edge.
    Exchanging [u] and [v] never changes what
    [edge_clustering_coefficient_3] returns or raises, in any state of
    the caches; with the caches of a simple graph the same holds for
    [edge_clustering_coefficient_4], whose loop then counts the same
    squares from either end. *)
Theorem coefficients_ignore_the_orientation iter_nodes :
  (∀ u v degree neighbors,
     edge_clustering_coefficient_3 u v degree neighbors
     = edge_clustering_coefficient_3 v u degree neighbors)
  ∧ (enumerates iter_nodes →
     ∀ g u v, simple g →
       edge_clustering_coefficient_4 iter_nodes u v
         (degree (caches_of g 0)) (neighbors (caches_of g 0))
       = edge_clustering_coefficient_4 iter_nodes v u
           (degree (caches_of g 0)) (neighbors (caches_of g 0))).
Proof.
  split.
  - intros u v degree neighbors. unfold edge_clustering_coefficient_3.
    destruct (index_cases degree u) as [[du ->] | ->],
             (index_cases degree v) as [[dv ->] | ->]; cbn [mbind res_bind]; try done.
    rewrite (Z.min_comm (dv - 1)). case_decide; [done|].
    destruct (index_cases neighbors u) as [[nu ->] | ->],
             (index_cases neighbors v) as [[nv ->] | ->]; cbn [mbind res_bind]; try done.
    by rewrite (comm_L (∩) nv).
  - intros Hin g u v Hs.
    assert (Hout : ∀ w, ¬ w < vcount g → degree_all g !! w = None).
    { intros w Hw. apply lookup_ge_None_2. unfold degree_all.
      rewrite length_fmap, length_seq. lia. }
    destruct (decide (u < vcount g)) as [Hu|Hu], (decide (v < vcount g)) as [Hv|Hv].
    + rewrite !(coefficient_4_unfold iter_nodes Hin g Hs) by done. cbv zeta.
      rewrite (Z.mul_comm (degree_of g v - 1)). case_decide; [done|].
      by rewrite squares_symmetric.
    + unfold edge_clustering_coefficient_4. cbn [degree neighbors caches_of].
      rewrite (index_degree_all g u) by done. by rewrite (index_raises (degree_all g) v) by by apply Hout.
    + unfold edge_clustering_coefficient_4. cbn [degree neighbors caches_of].
      rewrite (index_degree_all g v) by done. by rewrite (index_raises (degree_all g) u) by by apply Hout.
    + unfold edge_clustering_coefficient_4. cbn [degree neighbors caches_of].
      by rewrite (index_raises (degree_all g) u), (index_raises (degree_all g) v) by by apply Hout.
Qed.

Lemma coefficients_ignore_the_orientation_witness :
  edge_clustering_coefficient_4 elements 2 3
    (degree (caches_of two_triangles 0)) (neighbors (caches_of two_triangles 0))
  = edge_clustering_coefficient_4 elements 3 2
      (degree (caches_of two_triangles 0)) (neighbors (caches_of two_triangles 0)).
Proof.
  apply (proj2 (coefficients_ignore_the_orientation elements)).
  - apply enumerates_elements.
  - apply (bool_decide_unpack _). vm_compute. exact I.
Defined.

(** ** The community predicates *)

Lemma new_index_inj keep u v :
  u ∈ keep → v ∈ keep → new_index keep u = new_index keep v → u = v.
Proof.
  intros Hu Hv E. destruct (Nat.lt_trichotomy u v) as [H|[H|H]]; [|done|].
  - pose proof (new_index_lt keep u v Hu H). lia.
  - pose proof (new_index_lt keep v u Hv H). lia.
Qed.

Lemma subgraph_inv G nodes s :
  subgraph G nodes = Ok s →
  Forall (λ v, v < vcount G) nodes
  ∧ vcount s = length (kept G nodes)
  ∧ es s = set_map (λ e : edge, (new_index (kept G nodes) e.1, new_index (kept G nodes) e.2))
             (filter (λ e : edge, e.1 ∈ nodes ∧ e.2 ∈ nodes) (es G)).
Proof. unfold subgraph. case_decide; [|done]. by intros [= <-]. Qed.

Lemma subgraph_simple G nodes s : simple G → subgraph G nodes = Ok s → simple s.
Proof.
  intros Hs (Hr & Hv & He)%subgraph_inv e. rewrite He, Hv.
  intros (e' & -> & [[H1 H2] He']%elem_of_filter)%elem_of_map.
  destruct (Hs _ He') as [Hlt Hv']. cbn. split.
  - apply new_index_lt; [|done]. apply kept_elem_of. split; [done|lia].
  - apply new_index_bound, kept_elem_of. by split.
Qed.

Lemma subgraph_neighbors G nodes s v :
  simple G → subgraph G nodes = Ok s → v ∈ kept G nodes →
  neighbors_of s (new_index (kept G nodes) v)
  = set_map (new_index (kept G nodes)) (filter (λ w, w ∈ nodes) (neighbors_of G v)).
Proof.
  intros Hs (Hr & Hvc & He)%subgraph_inv Hv.
  assert (Hkeep : ∀ e, e ∈ es G → e.1 ∈ nodes → e.2 ∈ nodes →
            e.1 ∈ kept G nodes ∧ e.2 ∈ kept G nodes).
  { intros e He' H1 H2. destruct (Hs _ He'). rewrite !kept_elem_of. split; (split; [done|lia]). }
  apply set_eq. intros i. rewrite elem_of_neighbors_of, elem_of_map, He. split.
  - intros [(e & [= E1 E2] & [[H1 H2] He']%elem_of_filter)%elem_of_map
           |(e & [= E1 E2] & [[H1 H2] He']%elem_of_filter)%elem_of_map];
      destruct (Hkeep e He' H1 H2) as [K1 K2]; destruct e as [a b]; cbn in *.
    + apply new_index_inj in E1; [|done..]. subst a. exists b. split; [done|].
      apply elem_of_filter. split; [done|]. apply elem_of_neighbors_of. by left.
    + apply new_index_inj in E2; [|done..]. subst b. exists a. split; [done|].
      apply elem_of_filter. split; [done|]. apply elem_of_neighbors_of. by right.
  - intros (w & -> & [Hw Hn]%elem_of_filter). apply kept_elem_of in Hv as [Hv _].
    apply elem_of_neighbors_of in Hn as [Hn|Hn].
    + left. apply elem_of_map. exists (v, w). split; [done|]. by apply elem_of_filter.
    + right. apply elem_of_map. exists (w, v). split; [done|]. by apply elem_of_filter.
Qed.

Lemma subgraph_degree G nodes s v :
  simple G → subgraph G nodes = Ok s → v ∈ kept G nodes →
  degree_of s (new_index (kept G nodes) v) = internal_degree G nodes v.
Proof.
  intros Hs Hsub Hv. rewrite degree_size_neighbors by (by eapply subgraph_simple).
  rewrite (subgraph_neighbors G nodes s v) by done. unfold internal_degree. f_equal.
  apply size_set_map_inj_on. intros x y [Hx Hx']%elem_of_filter [Hy Hy']%elem_of_filter.
  apply new_index_inj; apply kept_elem_of; (split; [done|]); by eapply neighbors_of_range.
Qed.

Lemma degree_split G nodes v :
  simple G → degree_of G v = (internal_degree G nodes v + external_degree G nodes v)%Z.
Proof.
  intros Hs. rewrite degree_size_neighbors by done.
  unfold internal_degree, external_degree. rewrite <- Nat2Z.inj_add. f_equal.
  rewrite <- size_union by set_solver. f_equal. apply set_eq. intros w.
  rewrite elem_of_union, !elem_of_filter. destruct (decide (w ∈ nodes)); tauto.
Qed.

Lemma kept_sorted G nodes : StronglySorted lt (kept G nodes).
Proof.
  unfold kept. generalize 0. induction (vcount G) as [|n IH]; intros k; [constructor|].
  cbn [seq]. rewrite filter_cons. case_decide; [|apply IH].
  constructor; [apply IH|]. apply Forall_forall.
  intros x [_ [Hx _]%elem_of_seq]%list_elem_of_filter. lia.
Qed.

Lemma new_index_position (l : list nat) i v :
  StronglySorted lt l → l !! i = Some v → new_index l v = i.
Proof.
  unfold new_index. intros Hl. revert i. induction Hl as [|x l Hl IH Hx]; intros i Hi; [done|].
  rewrite filter_cons. destruct i as [|i]; cbn in Hi.
  - injection Hi as ->. rewrite decide_False by lia.
    rewrite filter_none; [done|]. rewrite Forall_forall in Hx.
    intros w Hw%Hx. lia.
  - rewrite decide_True.
    + cbn. f_equal. by apply IH.
    + rewrite Forall_forall in Hx. eapply Hx, list_elem_of_lookup_2, Hi.
Qed.

Lemma kept_of_sorted G nodes :
  StronglySorted lt nodes → Forall (λ v, v < vcount G) nodes → kept G nodes = nodes.
Proof.
  intros Hs Hr.
  assert (Hanti : AntiSymm (=) lt) by (intros x y ??; lia).
  apply (StronglySorted_unique lt); [apply kept_sorted | done |].
  apply NoDup_Permutation.
  - apply kept_NoDup.
  - clear Hr. induction Hs as [|x l Hl IH Hx]; constructor; [|done].
    intros Hin. rewrite Forall_forall in Hx. apply Hx in Hin. lia.
  - intros v. rewrite kept_elem_of. rewrite Forall_forall in Hr. naive_solver.
Qed.

Lemma subgraph_degree_all G nodes s :
  simple G → subgraph G nodes = Ok s →
  degree_all s = internal_degree G nodes <$> kept G nodes.
Proof.
  intros Hs Hsub. pose proof (subgraph_inv _ _ _ Hsub) as (_ & Hvc & _).
  unfold degree_all. rewrite Hvc. apply list_eq. intros i.
  rewrite !list_lookup_fmap. destruct (kept G nodes !! i) as [v|] eqn:Hv.
  - rewrite lookup_seq_lt by (by eapply lookup_lt_Some). cbn. f_equal.
    rewrite <- (new_index_position (kept G nodes) i v); [|apply kept_sorted|done].
    apply subgraph_degree; [done..|]. by eapply list_elem_of_lookup_2.
  - rewrite lookup_seq_ge; [done|]. by apply lookup_ge_None.
Qed.

Lemma strong_loop (d cd : list Z) :
  ∀ (pd pc : list Z), length pd = length pc → length d = length cd →
  (fix loop (range : list nat) : res bool :=
     match range with
     | [] => Ok true
     | i :: range' =>
         ci ← index (pc ++ cd) i;
         di ← index (pd ++ d) i;
         if decide (ci ≤ di - ci)%Z then Ok false else loop range'
     end) (seq (length pd) (length d))
  = Ok (bool_decide (Forall (λ p : Z * Z, (p.1 - p.2 < p.2)%Z) (zip d cd))).
Proof.
  revert cd. induction d as [|x d IH]; intros [|c cd] pd pc Hp Hl; try done.
  cbn [length seq]. cbn -[index mbind].
  rewrite (index_ok (pc ++ c :: cd) (length pd) c) by (by rewrite list_lookup_middle).
  rewrite (index_ok (pd ++ x :: d) (length pd) x) by (by rewrite list_lookup_middle).
  cbn [mbind res_bind]. case_decide as Hc.
  - f_equal. symmetry. apply bool_decide_eq_false. intros H.
    apply Forall_cons in H as [H _]. cbn in H. lia.
  - cbn [length] in Hl. specialize (IH cd (pd ++ [x]) (pc ++ [c])).
    rewrite <- !(assoc_L (++)), length_app in IH. cbn [app length] in IH.
    rewrite Nat.add_1_r in IH. rewrite IH by (rewrite ?length_app; cbn; lia).
    f_equal. apply bool_decide_ext. cbn [zip zip_with]. rewrite Forall_cons. cbn.
    split; [intros; split; [lia|done] | tauto].
Qed.

Lemma Forall_zip_fmap {A} (f f' : A → Z) (P : Z * Z → Prop) (l l' : list A) :
  Forall P (zip (f <$> l) (f' <$> l')) ↔ Forall (λ p, P (f p.1, f' p.2)) (zip l l').
Proof.
  revert l'. induction l as [|x l IH]; intros [|y l']; cbn; try by rewrite !Forall_nil.
  by rewrite !Forall_cons, IH.
Qed.

Lemma Forall_zip_diag {A} (P : A * A → Prop) (l : list A) :
  Forall P (zip l l) ↔ Forall (λ x, P (x, x)) l.
Proof. induction l as [|x l IH]; cbn; [by rewrite !Forall_nil|]. by rewrite !Forall_cons, IH. Qed.

Lemma sum_Z_Permutation (l l' : list Z) : l ≡ₚ l' → sum_Z l = sum_Z l'.
Proof. induction 1; unfold sum_Z in *; cbn in *; lia. Qed.

Lemma sum_Z_fmap_add {A} (f f' : A → Z) (l : list A) :
  sum_Z ((λ x, f x + f' x)%Z <$> l) = (sum_Z (f <$> l) + sum_Z (f' <$> l))%Z.
Proof. induction l as [|x l IH]; unfold sum_Z in *; cbn in *; lia. Qed.

Lemma strong_test_value G nodes :
  simple G → NoDup nodes → Forall (λ v, v < vcount G) nodes →
  is_strong_community G nodes
  = Ok (bool_decide (Forall (λ p : nat * nat,
          (degree_of G p.1 - internal_degree G nodes p.2
           < internal_degree G nodes p.2)%Z) (zip nodes (kept G nodes))))
  ∧ (StronglySorted lt nodes →
     is_strong_community G nodes
     = Ok (bool_decide (Forall (λ v,
             (external_degree G nodes v < internal_degree G nodes v)%Z) nodes))).
Proof.
  intros Hs Hnd Hr.
  assert (Hgen : is_strong_community G nodes
    = Ok (bool_decide (Forall (λ p : nat * nat,
            (degree_of G p.1 - internal_degree G nodes p.2
             < internal_degree G nodes p.2)%Z) (zip nodes (kept G nodes))))).
  { unfold is_strong_community.
    destruct (subgraph G nodes) as [s| |] eqn:Hsub;
      [|unfold subgraph in Hsub; by rewrite decide_True in Hsub..].
    cbn [mbind res_bind]. rewrite degree_nodes_total by done. cbn [mbind res_bind].
    rewrite (subgraph_degree_all G nodes s) by done.
    pose proof (strong_loop (degree_of G <$> nodes)
                  (internal_degree G nodes <$> kept G nodes) [] []) as Hloop.
    cbn [app length] in Hloop. rewrite length_fmap in Hloop.
    rewrite Hloop by (by rewrite ?length_fmap, ?kept_length).
    f_equal. apply bool_decide_ext.
    by rewrite (Forall_zip_fmap (degree_of G) (internal_degree G nodes)). }
  split; [done|]. intros Hsorted. rewrite Hgen. f_equal. apply bool_decide_ext.
  rewrite kept_of_sorted by done. rewrite Forall_zip_diag. cbn.
  apply Forall_proper; [|done]. intros v.
  rewrite (degree_split G nodes v) by done. lia.
Qed.

(** X8: [is_strong_community] on distinct vertices of a simple graph
    compares, position by position, the degree of [nodes[i]] with the
    internal degree of the [i]-th smallest vertex of [nodes], since the
    subgraph numbers its vertices in increasing order. When [nodes] is
    sorted, the precondition of line 131, it returns whether every vertex
    of [nodes] has more neighbours inside of [nodes] than outside. *)
Theorem strong_community_test G nodes :
  simple G → NoDup nodes → Forall (λ v, v < vcount G) nodes →
  is_strong_community G nodes
  = Ok (bool_decide (Forall (λ p : nat * nat,
          (degree_of G p.1 - internal_degree G nodes p.2
           < internal_degree G nodes p.2)%Z) (zip nodes (kept G nodes))))
  ∧ (StronglySorted lt nodes →
     is_strong_community G nodes
     = Ok (bool_decide (Forall (λ v,
             (external_degree G nodes v < internal_degree G nodes v)%Z) nodes))).
Proof. apply strong_test_value. Qed.

Lemma strong_community_test_witness :
  is_strong_community two_triangles [0; 1; 2]
  = Ok (bool_decide (Forall (λ v,
          Z.lt (external_degree two_triangles [0; 1; 2] v)
               (internal_degree two_triangles [0; 1; 2] v)) [0; 1; 2])).
Proof.
  apply (strong_community_test two_triangles [0; 1; 2]).
  - apply (bool_decide_unpack _). vm_compute. exact I.
  - apply (bool_decide_unpack _). vm_compute. exact I.
  - apply (bool_decide_unpack _). vm_compute. exact I.
  - apply (bool_decide_unpack _). vm_compute. exact I.
Defined.

Lemma weak_test_value G nodes :
  simple G → NoDup nodes → Forall (λ v, v < vcount G) nodes →
  is_weak_community G nodes
  = Ok (bool_decide (sum_Z (external_degree G nodes <$> nodes)
                     < sum_Z (internal_degree G nodes <$> nodes))%Z).
Proof.
  intros Hs Hnd Hr. unfold is_weak_community.
  destruct (subgraph G nodes) as [s| |] eqn:Hsub;
    [|unfold subgraph in Hsub; by rewrite decide_True in Hsub..].
  cbn [mbind res_bind]. rewrite degree_nodes_total by done. cbn [mbind res_bind].
  rewrite (subgraph_degree_all G nodes s) by done.
  assert (Hperm : kept G nodes ≡ₚ nodes).
  { apply NoDup_Permutation; [apply kept_NoDup | done |].
    intros v. rewrite kept_elem_of. rewrite Forall_forall in Hr. naive_solver. }
  rewrite (sum_Z_Permutation (internal_degree G nodes <$> kept G nodes)
             (internal_degree G nodes <$> nodes)) by (by apply fmap_Permutation).
  assert (E : degree_of G <$> nodes
              = (λ v, internal_degree G nodes v + external_degree G nodes v)%Z <$> nodes).
  { apply list_fmap_ext. intros _ v _. by apply degree_split. }
  rewrite E, sum_Z_fmap_add. f_equal. apply bool_decide_ext. lia.
Qed.

(** X9: [is_weak_community] on distinct vertices of a simple graph, in any
    order, returns whether the vertices of [nodes] have in total more
    neighbours inside of [nodes] than outside. *)
Theorem weak_community_test G nodes :
  simple G → NoDup nodes → Forall (λ v, v < vcount G) nodes →
  is_weak_community G nodes
  = Ok (bool_decide (sum_Z (external_degree G nodes <$> nodes)
                     < sum_Z (internal_degree G nodes <$> nodes))%Z).
Proof. apply weak_test_value. Qed.

Lemma weak_community_test_witness :
  is_weak_community two_triangles [2; 0; 1]
  = Ok (bool_decide (Z.lt (sum_Z (external_degree two_triangles [2; 0; 1] <$> [2; 0; 1]))
                          (sum_Z (internal_degree two_triangles [2; 0; 1] <$> [2; 0; 1])))).
Proof.
  apply (weak_community_test two_triangles [2; 0; 1]).
  - apply (bool_decide_unpack _). vm_compute. exact I.
  - apply (bool_decide_unpack _). vm_compute. exact I.
  - apply (bool_decide_unpack _). vm_compute. exact I.
Defined.

(** X10: A strong community is a weak one: on a non-empty sorted list of
    vertices of a simple graph, [is_weak_community] returns true whenever
    [is_strong_community] does. *)
Theorem strong_communities_are_weak G nodes :
  simple G → StronglySorted lt nodes → Forall (λ v, v < vcount G) nodes →
  nodes ≠ [] →
  is_strong_community G nodes = Ok true → is_weak_community G nodes = Ok true.
Proof.
  intros Hs Hsorted Hr Hne Hstrong.
  assert (Hnd : NoDup nodes).
  { clear Hr Hne Hstrong. induction Hsorted as [|x l Hl IH Hx]; constructor; [|done].
    intros Hin. rewrite Forall_forall in Hx. apply Hx in Hin. lia. }
  destruct (strong_test_value G nodes Hs Hnd Hr) as [_ Hchar].
  rewrite (Hchar Hsorted) in Hstrong. injection Hstrong as Hstrong.
  apply bool_decide_eq_true in Hstrong.
  rewrite weak_test_value by done. f_equal. apply bool_decide_eq_true.
  revert Hstrong Hne. generalize (external_degree G nodes) (internal_degree G nodes).
  intros f f' Hall Hne. clear Hnd Hchar Hsorted Hr.
  induction Hall as [|x l Hx Hall IH]; [done|]. cbn.
  destruct l as [|y l]; [cbn; lia|]. specialize (IH ltac:(done)). cbn in IH |- *. lia.
Qed.

Lemma strong_communities_are_weak_witness :
  is_weak_community two_triangles [0; 1; 2] = Ok true.
Proof.
  apply (strong_communities_are_weak two_triangles [0; 1; 2]).
  - apply (bool_decide_unpack _). vm_compute. exact I.
  - apply (bool_decide_unpack _). vm_compute. exact I.
  - apply (bool_decide_unpack _). vm_compute. exact I.
  - apply (bool_decide_unpack _). vm_compute. exact I.
  - vm_compute. reflexivity.
Defined.

(** ** The communities that [prune_components] tests and returns *)

Lemma sorted_NoDup (l : list nat) : StronglySorted lt l → NoDup l.
Proof.
  induction 1 as [|x l Hl IH Hx]; constructor; [|done].
  intros Hin. rewrite Forall_forall in Hx. apply Hx in Hin. lia.
Qed.

Lemma sorted_lookup_lt (l : list nat) i j x y :
  StronglySorted lt l → l !! i = Some x → l !! j = Some y → i < j → x < y.
Proof.
  intros Hl. revert i j. induction Hl as [|z l Hl IH Hz]; intros i j Hi Hj Hij; [done|].
  destruct i as [|i], j as [|j]; try lia; cbn in Hi, Hj.
  - injection Hi as ->. rewrite Forall_forall in Hz.
    eapply Hz, list_elem_of_lookup_2, Hj.
  - eapply (IH i j); [done..|lia].
Qed.

Lemma image_sorted (ids vs js : list nat) :
  StronglySorted lt ids → StronglySorted lt vs →
  Forall2 (λ v i, ids !! v = Some i) vs js → StronglySorted lt js.
Proof.
  intros Hids Hvs H. induction H as [|v i vs js Hv H IH]; [constructor|].
  apply StronglySorted_inv in Hvs as [Hvs Hlt]. constructor; [by apply IH|].
  apply Forall_forall. intros j (k & Hk)%list_elem_of_lookup_1.
  destruct (Forall2_lookup_r _ _ _ _ _ H Hk) as (w & Hw & Hwj).
  eapply (sorted_lookup_lt ids v w); [done..|].
  rewrite Forall_forall in Hlt. eapply Hlt, list_elem_of_lookup_2, Hw.
Qed.

Lemma filter_seq_sorted (P : nat → Prop) `{!∀ x, Decision (P x)} k n :
  StronglySorted lt (filter P (seq k n)).
Proof.
  revert k. induction n as [|n IH]; intros k; [constructor|].
  cbn [seq]. rewrite filter_cons. case_decide; [|apply IH].
  constructor; [apply IH|]. apply Forall_forall.
  intros x [_ [Hx _]%elem_of_seq]%list_elem_of_filter. lia.
Qed.

Lemma seq_sorted k n : StronglySorted lt (seq k n).
Proof.
  revert k. induction n as [|n IH]; intros k; [constructor|].
  cbn [seq]. constructor; [apply IH|]. apply Forall_forall.
  intros x [Hx _]%elem_of_seq. lia.
Qed.

Lemma components_sorted g c : c ∈ components g → StronglySorted lt c.
Proof.
  unfold components. intros (r & -> & _)%list_elem_of_fmap. apply filter_seq_sorted.
Qed.

(** X11: The vertices of the working graphs carry increasing ['id']s: the
    copy of line 11 numbers them from 0, and a subgraph of a graph with
    increasing ['id']s has, for its vertices in their new order, the
    ['id']s of the vertices it keeps, which increase again. *)
Theorem working_ids_increase G_v g nodes s :
  StronglySorted lt (vs_id (tagged_copy G_v))
  ∧ (StronglySorted lt (vs_id g) → length (vs_id g) = vcount g →
     subgraph g nodes = Ok s →
     StronglySorted lt (vs_id s)
     ∧ length (vs_id s) = vcount s
     ∧ Forall2 (λ v i, vs_id g !! v = Some i) (kept g nodes) (vs_id s)).
Proof.
  split.
  - cbn. apply seq_sorted.
  - intros Hsorted Hlen Hsub. unfold subgraph in Hsub. case_decide as Hr; [|done].
    injection Hsub as <-. cbn [vs_id vcount].
    assert (Hids : Forall2 (λ v i, vs_id g !! v = Some i) (kept g nodes)
                     (omap (λ v, vs_id g !! v) (kept g nodes))).
    { assert (Hk : Forall (λ v, v < vcount g) (kept g nodes)).
      { apply Forall_forall. by intros v [_ ?]%kept_elem_of. }
      induction Hk as [|v k Hv Hk IH]; [constructor|]. cbn.
      destruct (lookup_lt_is_Some_2 (vs_id g) v) as [i Hi]; [lia|].
      rewrite Hi. by constructor. }
    split_and!; [|symmetry; by eapply Forall2_length|done].
    eapply image_sorted; [exact Hsorted | apply kept_sorted | exact Hids].
Qed.

Lemma working_ids_increase_witness :
  ∃ s, subgraph split_triangles [5; 3; 4] = Ok s ∧ vs_id s = [3; 4; 5].
Proof.
  destruct (subgraph split_triangles [5; 3; 4]) as [s| |] eqn:Hsub; [|done..].
  destruct (working_ids_increase two_triangles split_triangles [5; 3; 4] s)
    as [_ Hkeep].
  destruct Hkeep as (_ & _ & Hids).
  - apply (bool_decide_unpack _). vm_compute. exact I.
  - reflexivity.
  - exact Hsub.
  - exists s. split; [reflexivity|].
    injection Hsub as <-. vm_compute. reflexivity.
Defined.

(** X12: Every call of a predicate that [prune_components] makes on a
    working graph with increasing ['id']s meets the precondition of lines
    131 and 145: the component, named by the ['id']s of its vertices, is a
    sorted list of vertices of the original graph. The component then
    passes the test of the strong measure exactly when each of these
    vertices has more neighbours inside than outside in the original
    graph, and the test of any other measure exactly when they have more
    in total. *)
Theorem components_are_tested_sorted measure G_v g_v c :
  simple G_v → working G_v g_v → StronglySorted lt (vs_id g_v) →
  c ∈ components g_v →
  ∃ oc, comprehension (index (vs_id g_v)) c = Ok oc
    ∧ StronglySorted lt oc
    ∧ oc ≠ []
    ∧ Forall (λ v, v < vcount G_v) oc
    ∧ (measure = "strong" →
       (satisfies measure G_v g_v c ↔
        Forall (λ v, (external_degree G_v oc v < internal_degree G_v oc v)%Z) oc))
    ∧ (measure ≠ "strong" →
       (satisfies measure G_v g_v c ↔
        (sum_Z (external_degree G_v oc <$> oc)
         < sum_Z (internal_degree G_v oc <$> oc))%Z)).
Proof.
  intros Hs Hw Hsorted Hc.
  destruct (lookup_ids G_v g_v c Hw) as (oc & Hoc & Himg & Hnd & Hr & _);
    [by eapply components_NoDup | by apply components_range |].
  assert (Hoc_sorted : StronglySorted lt oc).
  { eapply image_sorted; [exact Hsorted | by eapply components_sorted | exact Himg]. }
  exists oc. split_and!; [done..| | | |].
  - intros ->. apply Forall2_nil_inv_r in Himg. by eapply components_nonempty.
  - done.
  - intros ->. unfold satisfies. rewrite Hoc. cbn [mbind res_bind].
    unfold community_test. rewrite decide_True by done.
    destruct (strong_test_value G_v oc Hs Hnd Hr) as [_ Hchar].
    rewrite (Hchar Hoc_sorted). split.
    + intros [= H]. by apply bool_decide_eq_true in H.
    + intros H. f_equal. by apply bool_decide_eq_true.
  - intros Hm. unfold satisfies. rewrite Hoc. cbn [mbind res_bind].
    unfold community_test. rewrite decide_False by done.
    rewrite (weak_test_value G_v oc Hs Hnd Hr). split.
    + intros [= H]. by apply bool_decide_eq_true in H.
    + intros H. f_equal. by apply bool_decide_eq_true.
Qed.

Lemma components_are_tested_sorted_witness :
  ∃ oc, comprehension (index (vs_id split_triangles)) [3; 4; 5] = Ok oc
    ∧ StronglySorted lt oc.
Proof.
  destruct (components_are_tested_sorted "strong" two_triangles split_triangles [3; 4; 5])
    as (oc & Hoc & Hsorted & _).
  - apply (bool_decide_unpack _). vm_compute. exact I.
  - split.
    + apply (bool_decide_unpack _). vm_compute. exact I.
    + reflexivity.
    + apply (bool_decide_unpack _). vm_compute. exact I.
    + apply (bool_decide_unpack _). vm_compute. exact I.
  - apply (bool_decide_unpack _). vm_compute. exact I.
  - apply (bool_decide_unpack _). vm_compute. exact I.
  - exists oc. split; [exact Hoc | exact Hsorted].
Defined.

(** X13: On a working graph [prune_components] returns without touching
    the store. When the result is pruned, its new communities and its
    remaining vertices split the vertices of the working graph, every
    vertex being in exactly one of them, and the original communities
    are, position by position, the new communities named by ['id'].
    When it is not pruned, the three other entries are [None]. *)
Theorem prune_components_splits_the_vertices iter_nodes G g measure σ G_v g_v :
  enumerates iter_nodes →
  σ !! G = Some G_v → σ !! g = Some g_v → working G_v g_v →
  ∃ r, prune_components iter_nodes G g measure σ = (Ok r, σ)
    ∧ (pruned r = false →
       orig_communities r = None ∧ new_communities r = None ∧ remaining r = None)
    ∧ (pruned r = true →
       ∃ ocs ncs rem,
         orig_communities r = Some ocs ∧ new_communities r = Some ncs
         ∧ remaining r = Some rem
         ∧ Forall2 (Forall2 (λ v i, vs_id g_v !! v = Some i)) ncs ocs
         ∧ concat ncs ++ rem ≡ₚ seq 0 (vcount g_v)
         ∧ 2 ≤ length ncs).
Proof.
  intros Hin HG Hg Hw.
  destruct (prune_components_working iter_nodes G g measure σ G_v g_v HG Hg Hw)
    as (r & Hr & Hchar).
  exists r. split; [done|].
  destruct (decide (1 < length (confirmed measure G_v g_v))) as [Hc|Hc].
  - destruct Hchar as (Hp & Hncs & Hrem & ocs & Hocs & Hrel).
    split; [by rewrite Hp|]. intros _.
    eexists ocs, _, _. split_and!; [done..| | |lia].
    + eapply Forall2_impl; [exact Hrel|]. cbn. intros c oc.
      apply comprehension_index_image.
    + apply NoDup_Permutation.
      * apply NoDup_app. split_and!.
        -- apply concat_filter_NoDup, components_concat_NoDup.
        -- intros x Hx Hx'. rewrite Hin, elem_of_elements in Hx'.
           apply elem_of_difference in Hx' as [_ Hx']. apply Hx'.
           by apply elem_of_list_to_set.
        -- rewrite Hin. apply NoDup_elements.
      * apply NoDup_seq.
      * intros v. rewrite elem_of_app, Hin, elem_of_elements, elem_of_difference.
        rewrite !elem_of_list_to_set, elem_of_seq. split.
        -- intros [(c & [_ Hc']%list_elem_of_filter & Hv)%elem_of_concat | [[_ ?] _]];
             [|lia]. apply components_range in Hc'. rewrite Forall_forall in Hc'.
           apply Hc' in Hv. lia.
        -- intros [_ Hv].
           destruct (decide (v ∈ concat (confirmed measure G_v g_v))); [by left|].
           right. split; [lia|done].
  - subst r. cbn. split; [done|]. done.
Qed.

Lemma prune_components_splits_the_vertices_witness :
  ∃ r, prune_components elements 0 1 "strong"
         (<[1 := split_triangles]> {[0 := two_triangles]})
       = (Ok r, <[1 := split_triangles]> {[0 := two_triangles]})
    ∧ (pruned r = true → ∃ rem, remaining r = Some rem).
Proof.
  destruct (prune_components_splits_the_vertices elements 0 1 "strong"
              (<[1 := split_triangles]> {[0 := two_triangles]})
              two_triangles split_triangles)
    as (r & Hrun & _ & Hpruned).
  - apply enumerates_elements.
  - reflexivity.
  - reflexivity.
  - split.
    + apply (bool_decide_unpack _). vm_compute. exact I.
    + reflexivity.
    + apply (bool_decide_unpack _). vm_compute. exact I.
    + apply (bool_decide_unpack _). vm_compute. exact I.
  - exists r. split; [exact Hrun|]. intros Hp.
    destruct (Hpruned Hp) as (_ & _ & rem & _ & _ & Hrem & _). by exists rem.
Defined.

(** ** The parameters that the recursion does not use *)

Lemma bind_ext {A B} (m : M A) (f f' : A → M B) σ :
  (∀ a σ', f a σ' = f' a σ') → (m ≫= f) σ = (m ≫= f') σ.
Proof. intros Hf. rewrite !run_bind. by destruct (m σ) as [[a| |] σ']. Qed.

Lemma for_each_M_ext {A B} (body body' : B → A → M B) l :
  (∀ acc x σ, body acc x σ = body' acc x σ) →
  ∀ acc σ, for_each_M body acc l σ = for_each_M body' acc l σ.
Proof.
  intros Hb. induction l as [|x l IH]; intros acc σ; [done|].
  cbn [for_each_M]. rewrite !run_bind, Hb.
  by destruct (body' acc x σ) as [[a| |] σ'].
Qed.

Section Ext.
Variable iter_edges : gset edge → list edge.
Variable iter_nodes : gset nat → list nat.
Variables rec rec' : nat → M (list (list nat)).
Hypothesis rec_ext : ∀ s σ, rec s σ = rec' s σ.

Lemma assemble_ext g result σ : assemble rec g result σ = assemble rec' g result σ.
Proof.
  unfold assemble.
  apply bind_ext. intros ocs σ1. apply bind_ext. intros ncs σ2.
  apply bind_ext. intros rem σ3.
  rewrite !run_bind.
  rewrite (for_each_M_ext
    (λ communities (ic : nat * list nat),
       g_v ← deref g; s_v ← lift (subgraph g_v ic.2); s ← alloc s_v;
       subcommunities ← rec s;
       if decide (length subcommunities = 0) then
         oc ← lift (index ocs ic.1); mret (communities ++ [oc])
       else mret (communities ++ subcommunities))
    (λ communities (ic : nat * list nat),
       g_v ← deref g; s_v ← lift (subgraph g_v ic.2); s ← alloc s_v;
       subcommunities ← rec' s;
       if decide (length subcommunities = 0) then
         oc ← lift (index ocs ic.1); mret (communities ++ [oc])
       else mret (communities ++ subcommunities))).
  - match goal with |- context [for_each_M ?b ?a ?l ?s] =>
      destruct (for_each_M b a l s) as [[communities| |] σ4]; try done end.
    apply bind_ext. intros g_v σ5. apply bind_ext. intros orem σ6.
    apply bind_ext. intros r_v σ7. apply bind_ext. intros r σ8.
    by rewrite !run_bind, rec_ext.
  - intros acc ic σ4. apply bind_ext. intros g_v σ5. apply bind_ext. intros s_v σ6.
    apply bind_ext. intros s σ7. by rewrite !run_bind, rec_ext.
Qed.

Lemma split_check_ext G g measure st σ :
  split_check iter_nodes rec G g measure st σ
  = split_check iter_nodes rec' G g measure st σ.
Proof.
  unfold split_check. apply bind_ext. intros g_v σ1. case_decide; [|done].
  apply bind_ext. intros result σ2. destruct (pruned result); [|done].
  by rewrite !run_bind, assemble_ext.
Qed.

Lemma iteration_ext G g measure ecc st σ :
  iteration iter_edges iter_nodes rec G g measure ecc st σ
  = iteration iter_edges iter_nodes rec' G g measure ecc st σ.
Proof.
  unfold iteration. case_decide; [done|]. apply bind_ext. intros st' σ1.
  apply split_check_ext.
Qed.

Lemma loop_ext G g measure ecc fuel st σ :
  loop iter_edges iter_nodes rec G g measure ecc fuel st σ
  = loop iter_edges iter_nodes rec' G g measure ecc fuel st σ.
Proof.
  revert st σ. induction fuel as [|fuel IH]; intros st σ; [done|].
  cbn [loop]. rewrite !run_bind, iteration_ext.
  destruct (iteration iter_edges iter_nodes rec' G g measure ecc st σ) as [[[c|st']| |] σ'];
    first [done | apply IH].
Qed.
End Ext.

(** X14: [radicchi_internal] never uses its [level], and of [clustering] only
    whether it is 3: two calls that differ in their [level], and in their
    [clustering] when both or neither are 3, return or raise the same
    and leave the same store, for every budget. *)
Theorem radicchi_internal_ignores_the_level
    iter_edges iter_nodes fuel G g level level' measure clustering clustering' σ :
  (clustering = 3%Z ↔ clustering' = 3%Z) →
  radicchi_internal iter_edges iter_nodes fuel G g level measure clustering σ
  = radicchi_internal iter_edges iter_nodes fuel G g level' measure clustering' σ.
Proof.
  revert g level level' clustering clustering' σ.
  induction fuel as [|fuel IH]; intros g level level' clustering clustering' σ Hc; [done|].
  cbn [radicchi_internal]. apply bind_ext. intros g_v σ1.
  assert (E : (if decide (clustering = 3%Z) then edge_clustering_coefficient_3
               else edge_clustering_coefficient_4 iter_nodes)
              = (if decide (clustering' = 3%Z) then edge_clustering_coefficient_3
                 else edge_clustering_coefficient_4 iter_nodes)).
  { destruct (decide (clustering = 3%Z)), (decide (clustering' = 3%Z)); tauto. }
  rewrite E. apply loop_ext. intros s σ2. by apply IH.
Qed.

Lemma radicchi_internal_ignores_the_level_witness :
  radicchi_internal elements elements 9 0 1 0 "weak" 4
    (<[1 := tagged_copy two_triangles]> {[0 := two_triangles]})
  = radicchi_internal elements elements 9 0 1 7 "weak" 5
      (<[1 := tagged_copy two_triangles]> {[0 := two_triangles]}).
Proof.
  apply (radicchi_internal_ignores_the_level elements elements 9 0 1 0 7 "weak" 4 5).
  split; intros H; discriminate H.
Defined.
